(** * Time-auction server: the room / round state machine

    A shallow embedding of the latest revision of [index.js] (the one that
    carries the [isEliminated] flag) and proofs about the room state machine.
    The revision before it and the first skeleton of the server follow in
    the modules [Earlier] and [Skeleton].

    Modelling choices, all visible in the definitions below:

    - Player records are JavaScript objects shared between [game.players] and
      [game.activePlayersInRound].  They live in a [heap] (a list indexed by
      reference); both arrays hold references.  A record removed from
      [game.players] stays in the heap and can still be reached through
      [activePlayersInRound].
    - One room is modelled.  [registered] says whether [games[roomId]] still
      holds the room; [attached] lists the sockets whose [socket.roomId] is
      this room.  Room identifiers are taken to be unique.
    - Numbers are integers ([Z]); [initialTime] and [maxRounds] are taken
      integral.
    - [setInterval] timers are entries of [intervals]; a timer fires as an
      event of its own.  [setTimeout(() => startNewRound(roomId), _)] is
      counted in [timeouts]; the model fixes no delay, so a pending timeout
      or a live interval can fire at any later point.
    - Outbound socket.io events are appended to [out].  Free-text [message]
      broadcasts and console logging carry no state and are left out.
    - An uncaught [TypeError] stops the process: [crashed]. *)

From stdpp Require Import base numbers list strings option.

Open Scope Z_scope.

(** ** Data model *)

Abbreviation SocketId := nat (only parsing).
Abbreviation Ref := nat (only parsing).
Abbreviation TimerId := nat (only parsing).

Record Player := mkPlayer {
  id : SocketId;
  name : string;
  time : Z;
  tokens : Z;
  isHoldingButton : bool;
  hasOptedOut : bool;
  roundHoldDuration : Z;
  isEliminated : bool
}.

Definition set_time (v : Z) (p : Player) : Player :=
  mkPlayer (id p) (name p) v (tokens p) (isHoldingButton p) (hasOptedOut p)
    (roundHoldDuration p) (isEliminated p).
Definition set_tokens (v : Z) (p : Player) : Player :=
  mkPlayer (id p) (name p) (time p) v (isHoldingButton p) (hasOptedOut p)
    (roundHoldDuration p) (isEliminated p).
Definition set_isHoldingButton (v : bool) (p : Player) : Player :=
  mkPlayer (id p) (name p) (time p) (tokens p) v (hasOptedOut p)
    (roundHoldDuration p) (isEliminated p).
Definition set_hasOptedOut (v : bool) (p : Player) : Player :=
  mkPlayer (id p) (name p) (time p) (tokens p) (isHoldingButton p) v
    (roundHoldDuration p) (isEliminated p).
Definition set_roundHoldDuration (v : Z) (p : Player) : Player :=
  mkPlayer (id p) (name p) (time p) (tokens p) (isHoldingButton p)
    (hasOptedOut p) v (isEliminated p).
Definition set_isEliminated (v : bool) (p : Player) : Player :=
  mkPlayer (id p) (name p) (time p) (tokens p) (isHoldingButton p)
    (hasOptedOut p) (roundHoldDuration p) v.

Inductive Status := waiting | preCountdown | inRound | roundEnded | gameOver.

Definition Status_eqb (a b : Status) : bool :=
  match a, b with
  | waiting, waiting | preCountdown, preCountdown | inRound, inRound
  | roundEnded, roundEnded | gameOver, gameOver => true
  | _, _ => false
  end.

Lemma Status_eqb_eq a b : Status_eqb a b = true ↔ a = b.
Proof. destruct a, b; simpl; split; intros; congruence. Qed.

Inductive IntervalKind := CountdownTimer | RoundTimer.

(** The [reason] strings handed to [gameEnded]. *)
Inductive Reason :=
| SoleSurvivor (winner : string)  (* "<name> is the only survivor" *)
| AllEliminated                   (* "all players were eliminated" *)
| RoundsExhausted                 (* "all rounds are over" *)
| InsufficientPlayers.            (* "not enough players" *)

Record PlayerInfo := mkInfo {
  info_id : SocketId; info_name : string; info_tokens : Z; info_time : Z }.

Definition info_of (p : Player) : PlayerInfo :=
  mkInfo (id p) (name p) (tokens p) (time p).

(** The [finalWinner] object of the [gameOver] event. *)
Inductive FinalWinner :=
| FWTie (coWinners : list PlayerInfo)   (* { isTie: true, names, players } *)
| FWSingle (top : PlayerInfo)           (* { isTie: false, name, id, tokens, time } *)
| FWNobody.                             (* { isTie: false, id: null, tokens: 0, time: 0 } *)

Inductive Target := ToRoom | ToSocket (s : SocketId).

Inductive JoinError := RoomNotFound | PhaseNotJoinable | RoomFull | NameTaken.

Inductive CreateError := InvalidInitialTime | InvalidMaxRounds.

Inductive Emit :=
| EmPlayerStatusUpdate (ps : list Player) (round maxR : Z) (gameStatus : Status)
| EmPreRoundCountdownUpdate (to : Target) (n : Z)
| EmRoundStarting (to : Target)
| EmRoundTimerUpdate (to : Target) (n : Z)
| EmRoundEnded (updatedPlayers : list Player) (round maxR : Z)
| EmShowRoundStatsModal
| EmRoundWinnerAnnounced (winners : list (SocketId * string)) (duration : Z)
    (isTie : bool)
| EmGameOver (to : Target) (reason : option Reason) (finalPlayers : list Player)
    (finalWinner : option FinalWinner)
| EmCreateCallback (s : SocketId) (r : CreateError + Player)
| EmJoinCallback (s : SocketId) (r : JoinError + Player).

Record World := mkWorld {
  heap : list Player;
  registered : bool;
  (* the game object *)
  players : list Ref;
  status : Status;
  currentRound : Z;
  maxRounds : Z;
  preRoundCountdown : Z;
  preRoundIntervalId : option TimerId;
  roundElapsedTime : Z;
  roundTimerIntervalId : option TimerId;
  activePlayersInRound : list Ref;
  (* the runtime around it *)
  intervals : list (TimerId * IntervalKind);
  nextTimerId : TimerId;
  timeouts : nat;
  attached : list SocketId;
  out : list Emit;
  crashed : bool
}.

Definition set_heap (v : list Player) (w : World) : World :=
  mkWorld v (registered w) (players w) (status w) (currentRound w) (maxRounds w)
    (preRoundCountdown w) (preRoundIntervalId w) (roundElapsedTime w)
    (roundTimerIntervalId w) (activePlayersInRound w) (intervals w)
    (nextTimerId w) (timeouts w) (attached w) (out w) (crashed w).
Definition set_registered (v : bool) (w : World) : World :=
  mkWorld (heap w) v (players w) (status w) (currentRound w) (maxRounds w)
    (preRoundCountdown w) (preRoundIntervalId w) (roundElapsedTime w)
    (roundTimerIntervalId w) (activePlayersInRound w) (intervals w)
    (nextTimerId w) (timeouts w) (attached w) (out w) (crashed w).
Definition set_players (v : list Ref) (w : World) : World :=
  mkWorld (heap w) (registered w) v (status w) (currentRound w) (maxRounds w)
    (preRoundCountdown w) (preRoundIntervalId w) (roundElapsedTime w)
    (roundTimerIntervalId w) (activePlayersInRound w) (intervals w)
    (nextTimerId w) (timeouts w) (attached w) (out w) (crashed w).
Definition set_status (v : Status) (w : World) : World :=
  mkWorld (heap w) (registered w) (players w) v (currentRound w) (maxRounds w)
    (preRoundCountdown w) (preRoundIntervalId w) (roundElapsedTime w)
    (roundTimerIntervalId w) (activePlayersInRound w) (intervals w)
    (nextTimerId w) (timeouts w) (attached w) (out w) (crashed w).
Definition set_currentRound (v : Z) (w : World) : World :=
  mkWorld (heap w) (registered w) (players w) (status w) v (maxRounds w)
    (preRoundCountdown w) (preRoundIntervalId w) (roundElapsedTime w)
    (roundTimerIntervalId w) (activePlayersInRound w) (intervals w)
    (nextTimerId w) (timeouts w) (attached w) (out w) (crashed w).
Definition set_preRoundCountdown (v : Z) (w : World) : World :=
  mkWorld (heap w) (registered w) (players w) (status w) (currentRound w)
    (maxRounds w) v (preRoundIntervalId w) (roundElapsedTime w)
    (roundTimerIntervalId w) (activePlayersInRound w) (intervals w)
    (nextTimerId w) (timeouts w) (attached w) (out w) (crashed w).
Definition set_preRoundIntervalId (v : option TimerId) (w : World) : World :=
  mkWorld (heap w) (registered w) (players w) (status w) (currentRound w)
    (maxRounds w) (preRoundCountdown w) v (roundElapsedTime w)
    (roundTimerIntervalId w) (activePlayersInRound w) (intervals w)
    (nextTimerId w) (timeouts w) (attached w) (out w) (crashed w).
Definition set_roundElapsedTime (v : Z) (w : World) : World :=
  mkWorld (heap w) (registered w) (players w) (status w) (currentRound w)
    (maxRounds w) (preRoundCountdown w) (preRoundIntervalId w) v
    (roundTimerIntervalId w) (activePlayersInRound w) (intervals w)
    (nextTimerId w) (timeouts w) (attached w) (out w) (crashed w).
Definition set_roundTimerIntervalId (v : option TimerId) (w : World) : World :=
  mkWorld (heap w) (registered w) (players w) (status w) (currentRound w)
    (maxRounds w) (preRoundCountdown w) (preRoundIntervalId w)
    (roundElapsedTime w) v (activePlayersInRound w) (intervals w)
    (nextTimerId w) (timeouts w) (attached w) (out w) (crashed w).
Definition set_activePlayersInRound (v : list Ref) (w : World) : World :=
  mkWorld (heap w) (registered w) (players w) (status w) (currentRound w)
    (maxRounds w) (preRoundCountdown w) (preRoundIntervalId w)
    (roundElapsedTime w) (roundTimerIntervalId w) v (intervals w)
    (nextTimerId w) (timeouts w) (attached w) (out w) (crashed w).
Definition set_intervals (v : list (TimerId * IntervalKind)) (w : World) : World :=
  mkWorld (heap w) (registered w) (players w) (status w) (currentRound w)
    (maxRounds w) (preRoundCountdown w) (preRoundIntervalId w)
    (roundElapsedTime w) (roundTimerIntervalId w) (activePlayersInRound w) v
    (nextTimerId w) (timeouts w) (attached w) (out w) (crashed w).
Definition set_nextTimerId (v : TimerId) (w : World) : World :=
  mkWorld (heap w) (registered w) (players w) (status w) (currentRound w)
    (maxRounds w) (preRoundCountdown w) (preRoundIntervalId w)
    (roundElapsedTime w) (roundTimerIntervalId w) (activePlayersInRound w)
    (intervals w) v (timeouts w) (attached w) (out w) (crashed w).
Definition set_timeouts (v : nat) (w : World) : World :=
  mkWorld (heap w) (registered w) (players w) (status w) (currentRound w)
    (maxRounds w) (preRoundCountdown w) (preRoundIntervalId w)
    (roundElapsedTime w) (roundTimerIntervalId w) (activePlayersInRound w)
    (intervals w) (nextTimerId w) v (attached w) (out w) (crashed w).
Definition set_attached (v : list SocketId) (w : World) : World :=
  mkWorld (heap w) (registered w) (players w) (status w) (currentRound w)
    (maxRounds w) (preRoundCountdown w) (preRoundIntervalId w)
    (roundElapsedTime w) (roundTimerIntervalId w) (activePlayersInRound w)
    (intervals w) (nextTimerId w) (timeouts w) v (out w) (crashed w).
Definition set_out (v : list Emit) (w : World) : World :=
  mkWorld (heap w) (registered w) (players w) (status w) (currentRound w)
    (maxRounds w) (preRoundCountdown w) (preRoundIntervalId w)
    (roundElapsedTime w) (roundTimerIntervalId w) (activePlayersInRound w)
    (intervals w) (nextTimerId w) (timeouts w) (attached w) v (crashed w).
Definition set_crashed (v : bool) (w : World) : World :=
  mkWorld (heap w) (registered w) (players w) (status w) (currentRound w)
    (maxRounds w) (preRoundCountdown w) (preRoundIntervalId w)
    (roundElapsedTime w) (roundTimerIntervalId w) (activePlayersInRound w)
    (intervals w) (nextTimerId w) (timeouts w) (attached w) (out w) v.

(** ** Arrays of references, timers, output *)

Definition deref (h : list Player) (refs : list Ref) : list Player :=
  omap (λ r, h !! r) refs.

(** A predicate on the object behind a reference. *)
Definition holds (P : Player → bool) (h : list Player) (r : Ref) : bool :=
  match h !! r with Some p => P p | None => false end.

(** [refs.forEach(p => { p.field = ... })]: the objects are updated in place,
    one reference after the other. *)
Definition forEach (f : Player → Player) (refs : list Ref) (h : list Player)
  : list Player :=
  foldl (λ h r, alter f r h) h refs.

(** The same loop when the body also raises a flag declared outside it. *)
Definition forEachFlag (f : Player → Player * bool) (refs : list Ref)
    (h : list Player) : list Player * bool :=
  foldl (λ hb r, match hb.1 !! r with
                 | Some p => (<[r := (f p).1]> hb.1, hb.2 || (f p).2)
                 | None => hb
                 end) (h, false) refs.

Definition emit (e : Emit) (w : World) : World := set_out (out w ++ [e]) w.

Definition alive (p : Player) : bool := negb (isEliminated p).

(** [game.players.filter(p => !p.isEliminated)] *)
Definition alivePlayers (w : World) : list Ref :=
  List.filter (holds alive (heap w)) (players w).

Definition has_id (s : SocketId) (p : Player) : bool := Nat.eqb (id p) s.

(** [game.players.find(p => p.id === socket.id)] *)
Definition find_player (s : SocketId) (w : World) : option Ref :=
  List.find (holds (has_id s) (heap w)) (players w).

Definition is_attached (s : SocketId) (w : World) : bool :=
  existsb (Nat.eqb s) (attached w).

Definition detach (s : SocketId) (w : World) : World :=
  set_attached (List.filter (λ s', negb (Nat.eqb s s')) (attached w)) w.

Definition clearInterval (t : TimerId) (w : World) : World :=
  set_intervals (List.filter (λ e, negb (Nat.eqb e.1 t)) (intervals w)) w.

Definition setInterval (k : IntervalKind) (w : World) : World :=
  set_nextTimerId (S (nextTimerId w))
    (set_intervals (intervals w ++ [(nextTimerId w, k)]) w).

Definition setTimeout_startNewRound (w : World) : World :=
  set_timeouts (S (timeouts w)) w.

Definition clearGameIntervals (w : World) : World :=
  let w := match preRoundIntervalId w with
           | Some t => set_preRoundIntervalId None (clearInterval t w)
           | None => w
           end in
  match roundTimerIntervalId w with
  | Some t => set_roundTimerIntervalId None (clearInterval t w)
  | None => w
  end.

Definition broadcastPlayerStatusUpdate (w : World) : World :=
  if registered w then
    emit (EmPlayerStatusUpdate (deref (heap w) (players w)) (currentRound w)
            (maxRounds w) (status w)) w
  else w.

(** ** Game over *)

(** [Array.prototype.sort] is stable; for a comparator that is a total
    preorder its result is the stable sorted arrangement, computed here by
    insertion from the right. *)
Fixpoint insert_sorted {A} (cmp : A → A → Z) (a : A) (l : list A) : list A :=
  match l with
  | [] => [a]
  | b :: l' => if cmp a b <=? 0 then a :: l else b :: insert_sorted cmp a l'
  end.

Definition sort {A} (cmp : A → A → Z) (l : list A) : list A :=
  foldr (insert_sorted cmp) [] l.

(** [(a, b) => b.tokens !== a.tokens ? b.tokens - a.tokens : b.time - a.time] *)
Definition compareFinal (a b : Player) : Z :=
  if negb (tokens b =? tokens a) then tokens b - tokens a else time b - time a.

Definition same_score (top p : Player) : bool :=
  (tokens p =? tokens top) && (time p =? time top).

Definition finalWinnerOf (alivePs : list Player) : FinalWinner :=
  if (0 <? length alivePs)%nat then
    match sort compareFinal alivePs with
    | (topPlayer :: _) as sortedPlayers =>
        let coWinners := List.filter (same_score topPlayer) sortedPlayers in
        if (1 <? length coWinners)%nat then FWTie (info_of <$> coWinners)
        else FWSingle (info_of topPlayer)
    | [] => FWNobody
    end
  else FWNobody.

Definition gameEnded (reason : Reason) (w : World) : World :=
  if negb (registered w) then w else
  let w := set_status gameOver w in
  let w := clearGameIntervals w in
  let alivePs := List.filter alive (deref (heap w) (players w)) in
  emit (EmGameOver ToRoom (Some reason) (deref (heap w) (players w))
          (Some (finalWinnerOf alivePs))) w.

(** ** Round flow *)

Definition resetForNewRound (p : Player) : Player :=
  set_roundHoldDuration 0 (set_hasOptedOut false (set_isHoldingButton false p)).

(** The state changes of a round that does start. *)
Definition prepareRound (w : World) : World :=
  let w := set_currentRound (currentRound w + 1) w in
  let w := set_preRoundCountdown 0 w in
  let w := set_roundElapsedTime 0 w in
  let w := set_status waiting w in
  set_heap (forEach resetForNewRound (players w) (heap w)) w.

(** ... and what is sent after them. *)
Definition announceRound (w : World) : World :=
  let w := broadcastPlayerStatusUpdate w in
  let w := emit (EmRoundEnded (deref (heap w) (players w)) (currentRound w)
                   (maxRounds w)) w in
  if (0 <? currentRound w) && (Z.rem (currentRound w) 3 =? 0)
     && negb (currentRound w =? maxRounds w)
  then emit EmShowRoundStatsModal w else w.

Definition startNewRound (w : World) : World :=
  if negb (registered w) then w else
  let alivePs := alivePlayers w in
  if (length alivePs <=? 1)%nat && (0 <? currentRound w) then
    gameEnded (match deref (heap w) alivePs with
               | [p] => SoleSurvivor (name p)
               | _ => AllEliminated
               end) w
  else if maxRounds w <=? currentRound w then gameEnded RoundsExhausted w
  else announceRound (prepareRound w).

Definition resetForCountdown (p : Player) : Player :=
  set_roundHoldDuration 0 (set_hasOptedOut false p).

(** The arming condition of [startPreRoundCountdown] and [playerHolding]. *)
Definition shouldStartCountdown (w : World) : bool :=
  let alivePs := alivePlayers w in
  let playerCount := length alivePs in
  let allPlayersHolding := forallb (holds isHoldingButton (heap w)) alivePs in
  if Nat.eqb playerCount 1 then allPlayersHolding
  else (2 <=? playerCount)%nat && allPlayersHolding.

Definition startPreRoundCountdown (w : World) : World :=
  if negb (registered w) || Status_eqb (status w) preCountdown
     || Status_eqb (status w) inRound then w else
  if negb (shouldStartCountdown w) then w else
  let w := set_status preCountdown w in
  let w := set_preRoundCountdown 5 w in
  let w := set_heap (forEach resetForCountdown (players w) (heap w)) w in
  let w := broadcastPlayerStatusUpdate w in
  let w := emit (EmPreRoundCountdownUpdate ToRoom (preRoundCountdown w)) w in
  let t := nextTimerId w in
  set_preRoundIntervalId (Some t) (setInterval CountdownTimer w).

(** One player at the end of the countdown. *)
Definition preRoundEndPlayer (p : Player) : Player :=
  if (time p <=? 0) && negb (hasOptedOut p) && negb (isEliminated p) then
    set_isEliminated true (set_hasOptedOut true p)
  else if negb (isHoldingButton p) && negb (hasOptedOut p)
          && negb (isEliminated p) then
    set_hasOptedOut true p
  else p.

Definition contesting (p : Player) : bool :=
  isHoldingButton p && negb (hasOptedOut p) && negb (isEliminated p).

(** One player in one bidding tick; the flag is [somePlayerStatusChanged]. *)
Definition tickPlayer (p : Player) : Player * bool :=
  if contesting p then
    let p := set_roundHoldDuration (roundHoldDuration p + 1) p in
    if time p - roundHoldDuration p <=? 0 then
      (set_isEliminated true
         (set_hasOptedOut true
            (set_roundHoldDuration (time p) (set_isHoldingButton false p))),
       true)
    else (p, false)
  else (p, false).

Definition released (p : Player) : bool :=
  negb (isHoldingButton p) || hasOptedOut p || isEliminated p.

(** The test of [checkAllReleasedOnServer] on one member of
    [activePlayersInRound]: the current record is looked up by socket id. *)
Definition releasedNow (w : World) (r : Ref) : bool :=
  match heap w !! r with
  | Some p =>
      match find_player (id p) w with
      | Some c => holds released (heap w) c
      | None => true
      end
  | None => true
  end.

Definition award (maxHoldDuration : Z) (p : Player) : Player :=
  set_time (time p - maxHoldDuration) (set_tokens (tokens p + 1) p).

(** The scan of [endRoundOnServer]: running maximum and its holders. *)
Definition scanStep (h : list Player) (acc : Z * list Ref) (r : Ref)
  : Z * list Ref :=
  match h !! r with
  | Some p =>
      if negb (isEliminated p) && negb (hasOptedOut p) then
        if acc.1 <? roundHoldDuration p then (roundHoldDuration p, [r])
        else if roundHoldDuration p =? acc.1 then (acc.1, acc.2 ++ [r])
        else acc
      else acc
  | None => acc
  end.

Definition scanWinners (h : list Player) (active : list Ref) : Z * list Ref :=
  foldl (scanStep h) (0, []) active.

Definition resetAfterRound (p : Player) : Player :=
  set_hasOptedOut false (set_isHoldingButton false p).

Definition winner_entry (h : list Player) (r : Ref) : option (SocketId * string) :=
  (λ p, (id p, name p)) <$> h !! r.

Definition endRoundOnServer (w : World) : World :=
  if negb (registered w) then w else
  let w := set_status roundEnded w in
  let maxHoldDuration := (scanWinners (heap w) (activePlayersInRound w)).1 in
  let winningPlayers := (scanWinners (heap w) (activePlayersInRound w)).2 in
  let w :=
    if (maxHoldDuration =? 0) || Nat.eqb (length winningPlayers) 0 then w
    else
      match winningPlayers with
      | [winner] => set_heap (alter (award maxHoldDuration) winner (heap w)) w
      | _ => set_heap (forEach (award maxHoldDuration) winningPlayers (heap w)) w
      end in
  let w := emit (EmRoundWinnerAnnounced (omap (winner_entry (heap w)) winningPlayers)
                   maxHoldDuration (1 <? length winningPlayers)%nat) w in
  let w := set_heap (forEach resetAfterRound (players w) (heap w)) w in
  let w := broadcastPlayerStatusUpdate w in
  setTimeout_startNewRound w.

Definition checkAllReleasedOnServer (w : World) : World :=
  if negb (registered w) || negb (Status_eqb (status w) inRound) then w else
  let allActiveReleased := forallb (releasedNow w) (activePlayersInRound w) in
  if allActiveReleased then endRoundOnServer (clearGameIntervals w) else w.

(** The callback of the bidding timer. *)
Definition roundTick (w : World) : World :=
  let w := set_roundElapsedTime (roundElapsedTime w + 1) w in
  let hb := forEachFlag tickPlayer (players w) (heap w) in
  let w := set_heap hb.1 w in
  let w := if hb.2 then broadcastPlayerStatusUpdate w else w in
  let w := emit (EmRoundTimerUpdate ToRoom (roundElapsedTime w)) w in
  checkAllReleasedOnServer w.

Definition handlePreRoundEndOnServer (w : World) : World :=
  if negb (registered w) then w else
  let w := set_heap (forEach preRoundEndPlayer (players w) (heap w)) w in
  let w := set_activePlayersInRound
             (List.filter (holds contesting (heap w)) (players w)) w in
  if (length (activePlayersInRound w) <? 1)%nat then setTimeout_startNewRound w
  else
    let w := set_status inRound w in
    let w := set_roundElapsedTime 0 w in
    let w := emit (EmRoundStarting ToRoom) w in
    let t := nextTimerId w in
    set_roundTimerIntervalId (Some t) (setInterval RoundTimer w).

(** The callback of the countdown timer. *)
Definition countdownTick (w : World) : World :=
  let w := set_preRoundCountdown (preRoundCountdown w - 1) w in
  let w := emit (EmPreRoundCountdownUpdate ToRoom (preRoundCountdown w)) w in
  if preRoundCountdown w <=? 0 then
    let w := match preRoundIntervalId w with
             | Some t => clearInterval t w
             | None => w
             end in
    let w := set_preRoundIntervalId None w in
    handlePreRoundEndOnServer w
  else w.

(** ** Socket handlers *)

Definition newPlayerRecord (s : SocketId) (playerName : string) (t : Z) : Player :=
  mkPlayer s playerName t 0 false false 0 false.

Definition emptyWorld : World :=
  mkWorld [] false [] waiting 0 0 0 None 0 None [] [] 0%nat 0%nat [] [] false.

(** [createRoom]: the room this development follows comes into being.  The
    handler tests the type and the range of [initialTime] and [maxRounds],
    not that they are whole numbers; both are integers here. *)
Definition createRoom (s : SocketId) (playerName : string)
    (initialTime maxRoundsArg : Z) : World :=
  if (initialTime <? 10) || (600 <? initialTime) then
    emit (EmCreateCallback s (inl InvalidInitialTime)) emptyWorld
  else if (maxRoundsArg <? 1) || (50 <? maxRoundsArg) then
    emit (EmCreateCallback s (inl InvalidMaxRounds)) emptyWorld
  else
    let newPlayer := newPlayerRecord s playerName initialTime in
    let w := mkWorld [newPlayer] true [0%nat] waiting 0 maxRoundsArg 0 None 0
               None [] [] 0%nat 0%nat [s] [] false in
    let w := emit (EmCreateCallback s (inr newPlayer)) w in
    startNewRound w.

Definition joinable (st : Status) : bool :=
  Status_eqb st waiting || Status_eqb st roundEnded || Status_eqb st gameOver.

(** What [joinRoom] replays to the newcomer alone, by phase (the free-text
    [message] sent along in each phase is left out, as everywhere). *)
Definition replayPhase (s : SocketId) (w : World) : World :=
  if Status_eqb (status w) preCountdown then
    emit (EmPreRoundCountdownUpdate (ToSocket s) (preRoundCountdown w)) w
  else if Status_eqb (status w) inRound then
    emit (EmRoundTimerUpdate (ToSocket s) (roundElapsedTime w))
      (emit (EmRoundStarting (ToSocket s)) w)
  else if Status_eqb (status w) gameOver then
    (* game.gameOverReason and game.finalWinner are never stored *)
    emit (EmGameOver (ToSocket s) None (deref (heap w) (players w)) None) w
  else w.

Definition joinRoom (s : SocketId) (playerName : string) (w : World) : World :=
  if negb (registered w) then emit (EmJoinCallback s (inl RoomNotFound)) w
  else if negb (joinable (status w)) then
    emit (EmJoinCallback s (inl PhaseNotJoinable)) w
  else if (4 <=? length (players w))%nat then
    emit (EmJoinCallback s (inl RoomFull)) w
  else if existsb (holds (λ p, String.eqb (name p) playerName) (heap w))
            (players w) then
    emit (EmJoinCallback s (inl NameTaken)) w
  else
    match deref (heap w) (take 1 (players w)) with
    | first :: _ =>
        let newPlayer := newPlayerRecord s playerName (time first) in
        let r := length (heap w) in
        let w := set_heap (heap w ++ [newPlayer]) w in
        let w := set_players (players w ++ [r]) w in
        let w := set_attached (s :: attached w) w in
        let w := emit (EmJoinCallback s (inr newPlayer)) w in
        let w := broadcastPlayerStatusUpdate w in
        replayPhase s w
    | [] => set_crashed true w   (* game.players[0] is undefined *)
    end.

Definition is_active_phase (st : Status) : bool :=
  Status_eqb st preCountdown || Status_eqb st inRound.

Definition wasHolding (w : World) (disconnectedPlayer : option Ref) : bool :=
  match disconnectedPlayer with
  | Some r => holds isHoldingButton (heap w) r
  | None => false
  end.

Definition is_Some_b {A} (o : option A) : bool :=
  match o with Some _ => true | None => false end.

(** What [leaveRoom] and [disconnect] do once the record is removed and at
    least one player is left. *)
Definition afterRemoval (disconnectedPlayer : option Ref) (w : World) : World :=
  let alivePlayersCount := length (alivePlayers w) in
  let w :=
    if is_active_phase (status w) && (alivePlayersCount <? 2)%nat then
      gameEnded InsufficientPlayers w
    else if Status_eqb (status w) preCountdown
            && wasHolding w disconnectedPlayer
            && is_Some_b (preRoundIntervalId w) then
      let w := match preRoundIntervalId w with
               | Some t => clearInterval t w
               | None => w
               end in
      let w := set_preRoundIntervalId None w in
      let w := set_status waiting w in
      let allAliveHolding :=
        forallb (holds isHoldingButton (heap w)) (alivePlayers w) in
      if allAliveHolding then startPreRoundCountdown w
      else setTimeout_startNewRound w
    else if Status_eqb (status w) inRound && wasHolding w disconnectedPlayer then
      checkAllReleasedOnServer w
    else w in
  broadcastPlayerStatusUpdate w.

Definition leaveRoom (s : SocketId) (w : World) : World :=
  if is_attached s w && registered w then
    let disconnectedPlayer := find_player s w in
    let w := set_players
               (List.filter (λ r, negb (holds (has_id s) (heap w) r)) (players w)) w in
    let w := detach s w in
    if Nat.eqb (length (players w)) 0 then
      set_registered false (clearGameIntervals w)
    else afterRemoval disconnectedPlayer w
  else w.

(** The [disconnect] handler repeats [leaveRoom] line for line. *)
Definition disconnect (s : SocketId) (w : World) : World :=
  if is_attached s w && registered w then
    let disconnectedPlayer := find_player s w in
    let w := set_players
               (List.filter (λ r, negb (holds (has_id s) (heap w) r)) (players w)) w in
    let w := detach s w in
    if Nat.eqb (length (players w)) 0 then
      set_registered false (clearGameIntervals w)
    else afterRemoval disconnectedPlayer w
  else w.

Definition canArm (st : Status) : bool :=
  Status_eqb st waiting || Status_eqb st roundEnded.

Definition playerHolding (s : SocketId) (w : World) : World :=
  if negb (is_attached s w && registered w) then w else
  match find_player s w with
  | Some r =>
      if holds (λ player, (time player <=? 0) || isEliminated player) (heap w) r
      then w
      else if holds (λ player, negb (isHoldingButton player)) (heap w) r then
        let w := set_heap (alter (set_isHoldingButton true) r (heap w)) w in
        let w := broadcastPlayerStatusUpdate w in
        let alivePs := alivePlayers w in
        let playerCount := length alivePs in
        let allPlayersHolding :=
          forallb (holds isHoldingButton (heap w)) alivePs in
        if canArm (status w) then
          if Nat.eqb playerCount 1 then
            if allPlayersHolding && negb (is_Some_b (preRoundIntervalId w))
            then startPreRoundCountdown w else w
          else
            if (2 <=? playerCount)%nat && allPlayersHolding
               && negb (is_Some_b (preRoundIntervalId w))
            then startPreRoundCountdown w else w
        else w
      else w
  | None => w
  end.

Definition playerReleased (s : SocketId) (w : World) : World :=
  if negb (is_attached s w && registered w) then w else
  match find_player s w with
  | Some r =>
      if holds isHoldingButton (heap w) r then
        let w := set_heap (alter (set_isHoldingButton false) r (heap w)) w in
        if Status_eqb (status w) preCountdown
           && is_Some_b (preRoundIntervalId w) then
          let w := set_heap (alter (set_hasOptedOut true) r (heap w)) w in
          broadcastPlayerStatusUpdate w
        else
          let w := broadcastPlayerStatusUpdate w in
          if Status_eqb (status w) inRound then checkAllReleasedOnServer w
          else w
      else w
  | None => set_crashed true w   (* the log line reads player.name *)
  end.

(** ** Events and runs *)

Inductive Event :=
| JoinRoom (s : SocketId) (playerName : string)
| LeaveRoom (s : SocketId)
| PlayerHolding (s : SocketId)
| PlayerReleased (s : SocketId)
| Disconnect (s : SocketId)
| IntervalFires (t : TimerId)
| TimeoutFires
| SocketMovesAway (s : SocketId).  (* socket.roomId is overwritten by another room *)

Definition timer_kind (t : TimerId) (w : World) : option IntervalKind :=
  snd <$> List.find (λ e, Nat.eqb e.1 t) (intervals w).

Definition step (e : Event) (w : World) : World :=
  if crashed w then w else
  match e with
  | JoinRoom s playerName => joinRoom s playerName w
  | LeaveRoom s => leaveRoom s w
  | PlayerHolding s => playerHolding s w
  | PlayerReleased s => playerReleased s w
  | Disconnect s => disconnect s w
  | IntervalFires t =>
      match timer_kind t w with
      | Some CountdownTimer => countdownTick w
      | Some RoundTimer => roundTick w
      | None => w
      end
  | TimeoutFires =>
      match timeouts w with
      | O => w
      | S n => startNewRound (set_timeouts n w)
      end
  | SocketMovesAway s => detach s w
  end.

Definition run (es : list Event) (w : World) : World :=
  foldl (λ w e, step e w) w es.

Inductive reachable : World → Prop :=
| reach_create s playerName initialTime maxRoundsArg :
    reachable (createRoom s playerName initialTime maxRoundsArg)
| reach_step e w : reachable w → reachable (step e w).

Lemma reachable_run es w : reachable w → reachable (run es w).
Proof.
  revert w. induction es as [|e es IH]; intros w Hw; [done|].
  simpl. apply IH. by apply reach_step.
Qed.

(** ** Scenarios *)

(** Scenario B: A creates (60 s, 3 rounds), B joins, both hold, the countdown
    runs out, A releases after 4 ticks, B after 7. *)
Definition scenarioB : list Event :=
  [JoinRoom 2 "B"; PlayerHolding 1; PlayerHolding 2]
  ++ replicate 5 (IntervalFires 0)
  ++ replicate 4 (IntervalFires 1) ++ [PlayerReleased 1]
  ++ replicate 3 (IntervalFires 1) ++ [PlayerReleased 2].

(** * The earlier revision of [index.js]

    The first half of the source file is the revision before the
    [isEliminated] flag.  It differs from the later one in how a release
    during the countdown is handled (the countdown is cancelled and the room
    is looked at again a moment later), in how a round is resolved (every
    member of [activePlayersInRound] counts, and the game ends as soon as
    somebody's time is used up) and in the final ranking (all players, sent
    in ranked order).  Phases, timer kinds and join errors are those of the
    later revision; delayed calls are kept in [timeouts] with their kind. *)

Module Earlier.

Record Player := mkPlayer {
  id : SocketId;
  name : string;
  time : Z;
  tokens : Z;
  isHoldingButton : bool;
  hasOptedOut : bool;
  roundHoldDuration : Z
}.

Definition set_time (v : Z) (p : Player) : Player :=
  mkPlayer (id p) (name p) v (tokens p) (isHoldingButton p) (hasOptedOut p)
    (roundHoldDuration p).
Definition set_tokens (v : Z) (p : Player) : Player :=
  mkPlayer (id p) (name p) (time p) v (isHoldingButton p) (hasOptedOut p)
    (roundHoldDuration p).
Definition set_isHoldingButton (v : bool) (p : Player) : Player :=
  mkPlayer (id p) (name p) (time p) (tokens p) v (hasOptedOut p)
    (roundHoldDuration p).
Definition set_hasOptedOut (v : bool) (p : Player) : Player :=
  mkPlayer (id p) (name p) (time p) (tokens p) (isHoldingButton p) v
    (roundHoldDuration p).
Definition set_roundHoldDuration (v : Z) (p : Player) : Player :=
  mkPlayer (id p) (name p) (time p) (tokens p) (isHoldingButton p)
    (hasOptedOut p) v.

(** What a [setTimeout] will call. *)
Inductive TimeoutKind :=
| StartNewRound                                  (* startNewRound(roomId) *)
| DecideAfterRound (isGameOverDueToTime : bool)  (* the 3 s callback of endRoundOnServer *)
| RecheckAfterRelease.                           (* the 1.5 s callback of playerReleased *)

Inductive Reason :=
| RoundsExhausted       (* "all rounds are over" *)
| TimeRanOut            (* "a player's time is used up" *)
| InsufficientPlayers.  (* "not enough players" *)

Definition info_of (p : Player) : PlayerInfo :=
  mkInfo (id p) (name p) (tokens p) (time p).

(** The [finalWinner] object; [null] when the room has no player. *)
Inductive FinalWinner :=
| FWTie (coWinners : list PlayerInfo)
| FWSingle (top : PlayerInfo).

Inductive Emit :=
| EmPlayerStatusUpdate (ps : list Player) (round maxR : Z) (gameStatus : Status)
| EmPreRoundCountdownUpdate (to : Target) (n : Z)
| EmRoundStarting (to : Target)
| EmRoundTimerUpdate (to : Target) (n : Z)
| EmRoundEnded (updatedPlayers : list Player) (round maxR : Z)
| EmShowRoundStatsModal
| EmRoundWinnerAnnounced (winners : list (SocketId * string)) (duration : Z)
    (isTie : bool)
| EmGameOver (reason : Reason) (finalPlayers : list Player)
    (finalWinner : option FinalWinner)
| EmCreateCallback (s : SocketId) (r : CreateError + Player)
| EmJoinCallback (s : SocketId) (r : JoinError + Player).

Record World := mkWorld {
  heap : list Player;
  registered : bool;
  players : list Ref;
  status : Status;
  currentRound : Z;
  maxRounds : Z;
  preRoundCountdown : Z;
  preRoundIntervalId : option TimerId;
  roundElapsedTime : Z;
  roundTimerIntervalId : option TimerId;
  activePlayersInRound : list Ref;
  intervals : list (TimerId * IntervalKind);
  nextTimerId : TimerId;
  timeouts : list TimeoutKind;
  attached : list SocketId;
  out : list Emit;
  crashed : bool
}.

Definition set_heap (v : list Player) (w : World) : World :=
  mkWorld v (registered w) (players w) (status w) (currentRound w) (maxRounds w)
    (preRoundCountdown w) (preRoundIntervalId w) (roundElapsedTime w)
    (roundTimerIntervalId w) (activePlayersInRound w) (intervals w)
    (nextTimerId w) (timeouts w) (attached w) (out w) (crashed w).
Definition set_registered (v : bool) (w : World) : World :=
  mkWorld (heap w) v (players w) (status w) (currentRound w) (maxRounds w)
    (preRoundCountdown w) (preRoundIntervalId w) (roundElapsedTime w)
    (roundTimerIntervalId w) (activePlayersInRound w) (intervals w)
    (nextTimerId w) (timeouts w) (attached w) (out w) (crashed w).
Definition set_players (v : list Ref) (w : World) : World :=
  mkWorld (heap w) (registered w) v (status w) (currentRound w) (maxRounds w)
    (preRoundCountdown w) (preRoundIntervalId w) (roundElapsedTime w)
    (roundTimerIntervalId w) (activePlayersInRound w) (intervals w)
    (nextTimerId w) (timeouts w) (attached w) (out w) (crashed w).
Definition set_status (v : Status) (w : World) : World :=
  mkWorld (heap w) (registered w) (players w) v (currentRound w) (maxRounds w)
    (preRoundCountdown w) (preRoundIntervalId w) (roundElapsedTime w)
    (roundTimerIntervalId w) (activePlayersInRound w) (intervals w)
    (nextTimerId w) (timeouts w) (attached w) (out w) (crashed w).
Definition set_currentRound (v : Z) (w : World) : World :=
  mkWorld (heap w) (registered w) (players w) (status w) v (maxRounds w)
    (preRoundCountdown w) (preRoundIntervalId w) (roundElapsedTime w)
    (roundTimerIntervalId w) (activePlayersInRound w) (intervals w)
    (nextTimerId w) (timeouts w) (attached w) (out w) (crashed w).
Definition set_maxRounds (v : Z) (w : World) : World :=
  mkWorld (heap w) (registered w) (players w) (status w) (currentRound w) v
    (preRoundCountdown w) (preRoundIntervalId w) (roundElapsedTime w)
    (roundTimerIntervalId w) (activePlayersInRound w) (intervals w)
    (nextTimerId w) (timeouts w) (attached w) (out w) (crashed w).
Definition set_preRoundCountdown (v : Z) (w : World) : World :=
  mkWorld (heap w) (registered w) (players w) (status w) (currentRound w)
    (maxRounds w) v (preRoundIntervalId w) (roundElapsedTime w)
    (roundTimerIntervalId w) (activePlayersInRound w) (intervals w)
    (nextTimerId w) (timeouts w) (attached w) (out w) (crashed w).
Definition set_preRoundIntervalId (v : option TimerId) (w : World) : World :=
  mkWorld (heap w) (registered w) (players w) (status w) (currentRound w)
    (maxRounds w) (preRoundCountdown w) v (roundElapsedTime w)
    (roundTimerIntervalId w) (activePlayersInRound w) (intervals w)
    (nextTimerId w) (timeouts w) (attached w) (out w) (crashed w).
Definition set_roundElapsedTime (v : Z) (w : World) : World :=
  mkWorld (heap w) (registered w) (players w) (status w) (currentRound w)
    (maxRounds w) (preRoundCountdown w) (preRoundIntervalId w) v
    (roundTimerIntervalId w) (activePlayersInRound w) (intervals w)
    (nextTimerId w) (timeouts w) (attached w) (out w) (crashed w).
Definition set_roundTimerIntervalId (v : option TimerId) (w : World) : World :=
  mkWorld (heap w) (registered w) (players w) (status w) (currentRound w)
    (maxRounds w) (preRoundCountdown w) (preRoundIntervalId w)
    (roundElapsedTime w) v (activePlayersInRound w) (intervals w) (nextTimerId
    w) (timeouts w) (attached w) (out w) (crashed w).
Definition set_activePlayersInRound (v : list Ref) (w : World) : World :=
  mkWorld (heap w) (registered w) (players w) (status w) (currentRound w)
    (maxRounds w) (preRoundCountdown w) (preRoundIntervalId w)
    (roundElapsedTime w) (roundTimerIntervalId w) v (intervals w) (nextTimerId
    w) (timeouts w) (attached w) (out w) (crashed w).
Definition set_intervals (v : list (TimerId * IntervalKind)) (w : World) :
World :=
  mkWorld (heap w) (registered w) (players w) (status w) (currentRound w)
    (maxRounds w) (preRoundCountdown w) (preRoundIntervalId w)
    (roundElapsedTime w) (roundTimerIntervalId w) (activePlayersInRound w) v
    (nextTimerId w) (timeouts w) (attached w) (out w) (crashed w).
Definition set_nextTimerId (v : TimerId) (w : World) : World :=
  mkWorld (heap w) (registered w) (players w) (status w) (currentRound w)
    (maxRounds w) (preRoundCountdown w) (preRoundIntervalId w)
    (roundElapsedTime w) (roundTimerIntervalId w) (activePlayersInRound w)
    (intervals w) v (timeouts w) (attached w) (out w) (crashed w).
Definition set_timeouts (v : list TimeoutKind) (w : World) : World :=
  mkWorld (heap w) (registered w) (players w) (status w) (currentRound w)
    (maxRounds w) (preRoundCountdown w) (preRoundIntervalId w)
    (roundElapsedTime w) (roundTimerIntervalId w) (activePlayersInRound w)
    (intervals w) (nextTimerId w) v (attached w) (out w) (crashed w).
Definition set_attached (v : list SocketId) (w : World) : World :=
  mkWorld (heap w) (registered w) (players w) (status w) (currentRound w)
    (maxRounds w) (preRoundCountdown w) (preRoundIntervalId w)
    (roundElapsedTime w) (roundTimerIntervalId w) (activePlayersInRound w)
    (intervals w) (nextTimerId w) (timeouts w) v (out w) (crashed w).
Definition set_out (v : list Emit) (w : World) : World :=
  mkWorld (heap w) (registered w) (players w) (status w) (currentRound w)
    (maxRounds w) (preRoundCountdown w) (preRoundIntervalId w)
    (roundElapsedTime w) (roundTimerIntervalId w) (activePlayersInRound w)
    (intervals w) (nextTimerId w) (timeouts w) (attached w) v (crashed w).
Definition set_crashed (v : bool) (w : World) : World :=
  mkWorld (heap w) (registered w) (players w) (status w) (currentRound w)
    (maxRounds w) (preRoundCountdown w) (preRoundIntervalId w)
    (roundElapsedTime w) (roundTimerIntervalId w) (activePlayersInRound w)
    (intervals w) (nextTimerId w) (timeouts w) (attached w) (out w) v.

Definition deref (h : list Player) (refs : list Ref) : list Player :=
  omap (λ r, h !! r) refs.

Definition holds (P : Player → bool) (h : list Player) (r : Ref) : bool :=
  match h !! r with Some p => P p | None => false end.

Definition forEach (f : Player → Player) (refs : list Ref) (h : list Player)
  : list Player :=
  foldl (λ h r, alter f r h) h refs.

Definition forEachFlag (f : Player → Player * bool) (refs : list Ref)
    (h : list Player) : list Player * bool :=
  foldl (λ hb r, match hb.1 !! r with
                 | Some p => (<[r := (f p).1]> hb.1, hb.2 || (f p).2)
                 | None => hb
                 end) (h, false) refs.

Definition emit (e : Emit) (w : World) : World := set_out (out w ++ [e]) w.

Definition has_id (s : SocketId) (p : Player) : bool := Nat.eqb (id p) s.

Definition find_player (s : SocketId) (w : World) : option Ref :=
  List.find (holds (has_id s) (heap w)) (players w).

Definition is_attached (s : SocketId) (w : World) : bool :=
  existsb (Nat.eqb s) (attached w).

Definition detach (s : SocketId) (w : World) : World :=
  set_attached (List.filter (λ s', negb (Nat.eqb s s')) (attached w)) w.

Definition clearInterval (t : TimerId) (w : World) : World :=
  set_intervals (List.filter (λ e, negb (Nat.eqb e.1 t)) (intervals w)) w.

Definition setInterval (k : IntervalKind) (w : World) : World :=
  set_nextTimerId (S (nextTimerId w))
    (set_intervals (intervals w ++ [(nextTimerId w, k)]) w).

Definition setTimeout (k : TimeoutKind) (w : World) : World :=
  set_timeouts (timeouts w ++ [k]) w.

Definition clearGameIntervals (w : World) : World :=
  let w := match preRoundIntervalId w with
           | Some t => set_preRoundIntervalId None (clearInterval t w)
           | None => w
           end in
  match roundTimerIntervalId w with
  | Some t => set_roundTimerIntervalId None (clearInterval t w)
  | None => w
  end.

Definition broadcastPlayerStatusUpdate (w : World) : World :=
  if registered w then
    emit (EmPlayerStatusUpdate (deref (heap w) (players w)) (currentRound w)
            (maxRounds w) (status w)) w
  else w.

(** ** Game over: every player is ranked, and the ranked list is sent *)

Definition compareFinal (a b : Player) : Z :=
  if negb (tokens b =? tokens a) then tokens b - tokens a else time b - time a.

Definition same_score (top p : Player) : bool :=
  (tokens p =? tokens top) && (time p =? time top).

Definition finalWinnerOf (sortedPlayers : list Player) : option FinalWinner :=
  match sortedPlayers with
  | top :: _ =>
      let coWinners := List.filter (same_score top) sortedPlayers in
      Some (if (1 <? length coWinners)%nat then FWTie (info_of <$> coWinners)
            else FWSingle (info_of top))
  | [] => None
  end.

Definition gameEnded (reason : Reason) (w : World) : World :=
  if negb (registered w) then w else
  let w := set_status gameOver w in
  let w := clearGameIntervals w in
  let sortedPlayers := sort compareFinal (deref (heap w) (players w)) in
  emit (EmGameOver reason sortedPlayers (finalWinnerOf sortedPlayers)) w.

(** ** Round flow *)

Definition resetForNewRound (p : Player) : Player :=
  set_roundHoldDuration 0 (set_hasOptedOut false (set_isHoldingButton false p)).

Definition startNewRound (w : World) : World :=
  if negb (registered w) then w else
  if maxRounds w <=? currentRound w then gameEnded RoundsExhausted w else
  let w := set_currentRound (currentRound w + 1) w in
  let w := set_preRoundCountdown 0 w in
  let w := set_roundElapsedTime 0 w in
  let w := set_status waiting w in
  let w := set_heap (forEach resetForNewRound (players w) (heap w)) w in
  let w := broadcastPlayerStatusUpdate w in
  let w := emit (EmRoundEnded (deref (heap w) (players w)) (currentRound w)
                   (maxRounds w)) w in
  if (0 <? currentRound w) && (Z.rem (currentRound w) 3 =? 0)
     && negb (currentRound w =? maxRounds w)
  then emit EmShowRoundStatsModal w else w.

Definition resetForCountdown (p : Player) : Player :=
  set_roundHoldDuration 0 (set_hasOptedOut false p).

Definition shouldStartCountdown (w : World) : bool :=
  let playerCount := length (players w) in
  let allPlayersHolding :=
    forallb (holds isHoldingButton (heap w)) (players w) in
  if Nat.eqb playerCount 1 then allPlayersHolding
  else (2 <=? playerCount)%nat && allPlayersHolding.

Definition startPreRoundCountdown (w : World) : World :=
  if negb (registered w) || Status_eqb (status w) preCountdown
     || Status_eqb (status w) inRound then w else
  if negb (shouldStartCountdown w) then w else
  let w := set_status preCountdown w in
  let w := set_preRoundCountdown 5 w in
  let w := set_heap (forEach resetForCountdown (players w) (heap w)) w in
  let w := broadcastPlayerStatusUpdate w in
  let w := emit (EmPreRoundCountdownUpdate ToRoom (preRoundCountdown w)) w in
  let t := nextTimerId w in
  set_preRoundIntervalId (Some t) (setInterval CountdownTimer w).

(** One player at the end of the countdown: the two tests follow each other. *)
Definition preRoundEndPlayer (p : Player) : Player :=
  let p := if negb (isHoldingButton p) && negb (hasOptedOut p)
           then set_hasOptedOut true p else p in
  if (time p <=? 0) && negb (hasOptedOut p) then set_hasOptedOut true p else p.

Definition contesting (p : Player) : bool :=
  isHoldingButton p && negb (hasOptedOut p).

Definition tickPlayer (p : Player) : Player * bool :=
  if contesting p then
    let p := set_roundHoldDuration (roundHoldDuration p + 1) p in
    if time p - roundHoldDuration p <=? 0 then
      (set_hasOptedOut true
         (set_roundHoldDuration (time p) (set_isHoldingButton false p)),
       true)
    else (p, false)
  else (p, false).

Definition released (p : Player) : bool :=
  negb (isHoldingButton p) || hasOptedOut p.

Definition releasedNow (w : World) (r : Ref) : bool :=
  match heap w !! r with
  | Some p =>
      match find_player (id p) w with
      | Some c => holds released (heap w) c
      | None => true
      end
  | None => true
  end.

Definition award (maxHoldDuration : Z) (p : Player) : Player :=
  set_time (time p - maxHoldDuration) (set_tokens (tokens p + 1) p).

(** The scan of [endRoundOnServer]: every member of the active list counts. *)
Definition scanStep (h : list Player) (acc : Z * list Ref) (r : Ref)
  : Z * list Ref :=
  match h !! r with
  | Some p =>
      if acc.1 <? roundHoldDuration p then (roundHoldDuration p, [r])
      else if roundHoldDuration p =? acc.1 then (acc.1, acc.2 ++ [r])
      else acc
  | None => acc
  end.

Definition scanWinners (h : list Player) (active : list Ref) : Z * list Ref :=
  foldl (scanStep h) (0, []) active.

Definition resetAfterRound (p : Player) : Player :=
  set_roundHoldDuration 0 (set_hasOptedOut false (set_isHoldingButton false p)).

Definition winner_entry (h : list Player) (r : Ref) : option (SocketId * string) :=
  (λ p, (id p, name p)) <$> h !! r.

Definition endRoundOnServer (w : World) : World :=
  if negb (registered w) then w else
  let w := set_status roundEnded w in
  let maxHoldDuration := (scanWinners (heap w) (activePlayersInRound w)).1 in
  let winningPlayers := (scanWinners (heap w) (activePlayersInRound w)).2 in
  let w :=
    if (maxHoldDuration =? 0) || Nat.eqb (length winningPlayers) 0 then w
    else
      match winningPlayers with
      | [winner] => set_heap (alter (award maxHoldDuration) winner (heap w)) w
      | _ => set_heap (forEach (award maxHoldDuration) winningPlayers (heap w)) w
      end in
  let w := emit (EmRoundWinnerAnnounced (omap (winner_entry (heap w)) winningPlayers)
                   maxHoldDuration (1 <? length winningPlayers)%nat) w in
  let w := set_heap (forEach resetAfterRound (players w) (heap w)) w in
  let w := broadcastPlayerStatusUpdate w in
  let isGameOverDueToTime :=
    existsb (holds (λ p, time p <=? 0) (heap w)) (players w) in
  setTimeout (DecideAfterRound isGameOverDueToTime) w.

(** The callback that [endRoundOnServer] schedules. *)
Definition decideAfterRound (isGameOverDueToTime : bool) (w : World) : World :=
  if isGameOverDueToTime then gameEnded TimeRanOut w else startNewRound w.

Definition checkAllReleasedOnServer (w : World) : World :=
  if negb (registered w) || negb (Status_eqb (status w) inRound) then w else
  let allActiveReleased := forallb (releasedNow w) (activePlayersInRound w) in
  if allActiveReleased then endRoundOnServer (clearGameIntervals w) else w.

Definition roundTick (w : World) : World :=
  let w := set_roundElapsedTime (roundElapsedTime w + 1) w in
  let hb := forEachFlag tickPlayer (players w) (heap w) in
  let w := set_heap hb.1 w in
  let w := if hb.2 then broadcastPlayerStatusUpdate w else w in
  let w := emit (EmRoundTimerUpdate ToRoom (roundElapsedTime w)) w in
  checkAllReleasedOnServer w.

Definition handlePreRoundEndOnServer (w : World) : World :=
  if negb (registered w) then w else
  let w := set_heap (forEach preRoundEndPlayer (players w) (heap w)) w in
  let w := set_activePlayersInRound
             (List.filter (holds contesting (heap w)) (players w)) w in
  if (1 <=? length (activePlayersInRound w))%nat then
    let w := set_status inRound w in
    let w := set_roundElapsedTime 0 w in
    let w := emit (EmRoundStarting ToRoom) w in
    let t := nextTimerId w in
    set_roundTimerIntervalId (Some t) (setInterval RoundTimer w)
  else setTimeout StartNewRound w.

Definition countdownTick (w : World) : World :=
  let w := set_preRoundCountdown (preRoundCountdown w - 1) w in
  let w := emit (EmPreRoundCountdownUpdate ToRoom (preRoundCountdown w)) w in
  if preRoundCountdown w <=? 0 then
    let w := match preRoundIntervalId w with
             | Some t => clearInterval t w
             | None => w
             end in
    let w := set_preRoundIntervalId None w in
    handlePreRoundEndOnServer w
  else w.

(** ** Socket handlers *)

Definition newPlayerRecord (s : SocketId) (playerName : string) (t : Z) : Player :=
  mkPlayer s playerName t 0 false false 0.

Definition emptyWorld : World :=
  mkWorld [] false [] waiting 0 0 0 None 0 None [] [] 0%nat [] [] [] false.

Definition createRoom (s : SocketId) (playerName : string)
    (initialTime maxRoundsArg : Z) : World :=
  if (initialTime <? 10) || (600 <? initialTime) then
    emit (EmCreateCallback s (inl InvalidInitialTime)) emptyWorld
  else if (maxRoundsArg <? 1) || (50 <? maxRoundsArg) then
    emit (EmCreateCallback s (inl InvalidMaxRounds)) emptyWorld
  else
    let newPlayer := newPlayerRecord s playerName initialTime in
    let w := mkWorld [newPlayer] true [0%nat] waiting 0 maxRoundsArg 0 None 0
               None [] [] 0%nat [] [s] [] false in
    let w := emit (EmCreateCallback s (inr newPlayer)) w in
    startNewRound w.

Definition replayPhase (s : SocketId) (w : World) : World :=
  if Status_eqb (status w) preCountdown then
    emit (EmPreRoundCountdownUpdate (ToSocket s) (preRoundCountdown w)) w
  else if Status_eqb (status w) inRound then
    emit (EmRoundTimerUpdate (ToSocket s) (roundElapsedTime w))
      (emit (EmRoundStarting (ToSocket s)) w)
  else w.

Definition joinRoom (s : SocketId) (playerName : string) (w : World) : World :=
  if negb (registered w) then emit (EmJoinCallback s (inl RoomNotFound)) w
  else if negb (joinable (status w)) then
    emit (EmJoinCallback s (inl PhaseNotJoinable)) w
  else if (4 <=? length (players w))%nat then
    emit (EmJoinCallback s (inl RoomFull)) w
  else if existsb (holds (λ p, String.eqb (name p) playerName) (heap w))
            (players w) then
    emit (EmJoinCallback s (inl NameTaken)) w
  else
    match deref (heap w) (take 1 (players w)) with
    | first :: _ =>
        let newPlayer := newPlayerRecord s playerName (time first) in
        let r := length (heap w) in
        let w := set_heap (heap w ++ [newPlayer]) w in
        let w := set_players (players w ++ [r]) w in
        let w := set_attached (s :: attached w) w in
        let w := emit (EmJoinCallback s (inr newPlayer)) w in
        let w := broadcastPlayerStatusUpdate w in
        replayPhase s w
    | [] => set_crashed true w   (* game.players[0] is undefined *)
    end.

Definition wasHolding (w : World) (disconnectedPlayer : option Ref) : bool :=
  match disconnectedPlayer with
  | Some r => holds isHoldingButton (heap w) r
  | None => false
  end.

Definition afterRemoval (disconnectedPlayer : option Ref) (w : World) : World :=
  let w :=
    if is_active_phase (status w) && (length (players w) <? 2)%nat then
      gameEnded InsufficientPlayers w
    else if Status_eqb (status w) preCountdown
            && wasHolding w disconnectedPlayer
            && is_Some_b (preRoundIntervalId w) then
      let w := match preRoundIntervalId w with
               | Some t => clearInterval t w
               | None => w
               end in
      let w := set_preRoundIntervalId None w in
      let w := set_status waiting w in
      let allPlayersHolding :=
        (2 <=? length (players w))%nat
        && forallb (holds isHoldingButton (heap w)) (players w) in
      if allPlayersHolding then startPreRoundCountdown w
      else setTimeout StartNewRound w
    else if Status_eqb (status w) inRound && wasHolding w disconnectedPlayer then
      checkAllReleasedOnServer w
    else w in
  broadcastPlayerStatusUpdate w.

Definition leaveRoom (s : SocketId) (w : World) : World :=
  if is_attached s w && registered w then
    let disconnectedPlayer := find_player s w in
    let w := set_players
               (List.filter (λ r, negb (holds (has_id s) (heap w) r)) (players w)) w in
    let w := detach s w in
    if Nat.eqb (length (players w)) 0 then
      set_registered false (clearGameIntervals w)
    else afterRemoval disconnectedPlayer w
  else w.

Definition disconnect (s : SocketId) (w : World) : World :=
  if is_attached s w && registered w then
    let disconnectedPlayer := find_player s w in
    let w := set_players
               (List.filter (λ r, negb (holds (has_id s) (heap w) r)) (players w)) w in
    let w := detach s w in
    if Nat.eqb (length (players w)) 0 then
      set_registered false (clearGameIntervals w)
    else afterRemoval disconnectedPlayer w
  else w.

Definition playerHolding (s : SocketId) (w : World) : World :=
  if negb (is_attached s w && registered w) then w else
  match find_player s w with
  | Some r =>
      if holds (λ player, time player <=? 0) (heap w) r then w
      else if holds (λ player, negb (isHoldingButton player)) (heap w) r then
        let w := set_heap (alter (set_isHoldingButton true) r (heap w)) w in
        let w := broadcastPlayerStatusUpdate w in
        if canArm (status w) then
          let allPlayersHolding :=
            forallb (holds isHoldingButton (heap w)) (players w) in
          let playerCount := length (players w) in
          if Nat.eqb playerCount 1 then
            if allPlayersHolding && negb (is_Some_b (preRoundIntervalId w))
            then startPreRoundCountdown w else w
          else
            if (2 <=? playerCount)%nat && allPlayersHolding
               && negb (is_Some_b (preRoundIntervalId w))
            then startPreRoundCountdown w else w
        else w
      else w
  | None => w
  end.

(** A release while the countdown runs: the countdown is cancelled. *)
Definition cancelCountdown (r : Ref) (w : World) : World :=
  let w := match preRoundIntervalId w with
           | Some t => clearInterval t w
           | None => w
           end in
  let w := set_preRoundIntervalId None w in
  let w := set_status waiting w in
  let anyPlayerStillHolding :=
    existsb (holds isHoldingButton (heap w)) (players w) in
  if negb anyPlayerStillHolding then
    let w := set_heap (forEach (set_hasOptedOut false) (players w) (heap w)) w in
    let w := broadcastPlayerStatusUpdate w in
    setTimeout StartNewRound w
  else
    let w := set_heap (alter (set_hasOptedOut true) r (heap w)) w in
    let w := broadcastPlayerStatusUpdate w in
    setTimeout RecheckAfterRelease w.

Definition playerReleased (s : SocketId) (w : World) : World :=
  if negb (is_attached s w && registered w) then w else
  match find_player s w with
  | Some r =>
      if holds isHoldingButton (heap w) r then
        let w := set_heap (alter (set_isHoldingButton false) r (heap w)) w in
        if Status_eqb (status w) preCountdown
           && is_Some_b (preRoundIntervalId w) then cancelCountdown r w
        else
          let w := broadcastPlayerStatusUpdate w in
          if Status_eqb (status w) inRound then checkAllReleasedOnServer w
          else w
      else w
  | None => w
  end.

(** The callback scheduled by a release that left somebody holding.  It
    works on the game object it captured, in the registry or not. *)
Definition recheckAfterRelease (w : World) : World :=
  let playersStillInGame :=
    List.filter (holds (λ p, negb (hasOptedOut p)) (heap w)) (players w) in
  let allRemainingHoldingAndEnough :=
    (2 <=? length playersStillInGame)%nat
    && forallb (holds isHoldingButton (heap w)) playersStillInGame in
  let isSinglePlayerTest := Nat.eqb (length (players w)) 1 in
  let shortcut :=
    match playersStillInGame with
    | [singleWinner] =>
        if isSinglePlayerTest && holds isHoldingButton (heap w) singleWinner
        then Some singleWinner else None
    | _ => None
    end in
  match shortcut with
  | Some singleWinner =>
      let w := set_heap (alter (set_roundHoldDuration 0) singleWinner (heap w)) w in
      let w := set_activePlayersInRound [singleWinner] w in
      endRoundOnServer w
  | None =>
      if allRemainingHoldingAndEnough then startPreRoundCountdown w
      else
        let w := set_heap (forEach (set_hasOptedOut false) (players w) (heap w)) w in
        let w := broadcastPlayerStatusUpdate w in
        setTimeout StartNewRound w
  end.

(** ** Events *)

Inductive Event :=
| JoinRoom (s : SocketId) (playerName : string)
| LeaveRoom (s : SocketId)
| PlayerHolding (s : SocketId)
| PlayerReleased (s : SocketId)
| Disconnect (s : SocketId)
| IntervalFires (t : TimerId)
| TimeoutFires (i : nat)          (* the i-th pending delayed call runs *)
| SocketMovesAway (s : SocketId).

Definition timer_kind (t : TimerId) (w : World) : option IntervalKind :=
  snd <$> List.find (λ e, Nat.eqb e.1 t) (intervals w).

Definition fire (k : TimeoutKind) (w : World) : World :=
  match k with
  | StartNewRound => startNewRound w
  | DecideAfterRound isGameOverDueToTime =>
      decideAfterRound isGameOverDueToTime w
  | RecheckAfterRelease => recheckAfterRelease w
  end.

Definition step (e : Event) (w : World) : World :=
  if crashed w then w else
  match e with
  | JoinRoom s playerName => joinRoom s playerName w
  | LeaveRoom s => leaveRoom s w
  | PlayerHolding s => playerHolding s w
  | PlayerReleased s => playerReleased s w
  | Disconnect s => disconnect s w
  | IntervalFires t =>
      match timer_kind t w with
      | Some CountdownTimer => countdownTick w
      | Some RoundTimer => roundTick w
      | None => w
      end
  | TimeoutFires i =>
      match timeouts w !! i with
      | Some k => fire k (set_timeouts (delete i (timeouts w)) w)
      | None => w
      end
  | SocketMovesAway s => detach s w
  end.

Definition run (es : list Event) (w : World) : World :=
  foldl (λ w e, step e w) w es.

End Earlier.

(** * The first skeleton of the server ([node.js])

    The oldest file holds the room bookkeeping only: rooms are created,
    joined and left, the button state is recorded and broadcast, and the game
    flow functions are empty stubs.  One room is followed, as above. *)

Module Skeleton.

Record Player := mkPlayer {
  id : SocketId;
  name : string;
  time : Z;
  tokens : Z;
  lastHoldDuration : Z;
  isHoldingButton : bool;
  hasOptedOut : bool
}.

Definition set_isHoldingButton (v : bool) (p : Player) : Player :=
  mkPlayer (id p) (name p) (time p) (tokens p) (lastHoldDuration p) v
    (hasOptedOut p).

(** ['waiting'], ['playing'], ['gameOver'] *)
Inductive Status := waiting | playing | gameOver.

Inductive JoinError := RoomNotFound | GameStarted | RoomFull.

Inductive Emit :=
| EmPlayerStatusUpdate (ps : list Player)
| EmCreateCallback (s : SocketId) (p : Player)
| EmJoinCallback (s : SocketId) (r : JoinError + Player).

Record World := mkWorld {
  registered : bool;
  (* the game object *)
  players : list Player;
  status : Status;
  currentRound : Z;
  maxRounds : Z;
  preRoundCountdown : Z;
  preRoundIntervalId : option TimerId;
  roundTimerIntervalId : option TimerId;
  activePlayersInRound : list Player;
  (* the sockets whose roomId is this room, the events sent *)
  attached : list SocketId;
  out : list Emit
}.

Definition set_registered (v : bool) (w : World) : World :=
  mkWorld v (players w) (status w) (currentRound w) (maxRounds w)
    (preRoundCountdown w) (preRoundIntervalId w) (roundTimerIntervalId w)
    (activePlayersInRound w) (attached w) (out w).
Definition set_players (v : list Player) (w : World) : World :=
  mkWorld (registered w) v (status w) (currentRound w) (maxRounds w)
    (preRoundCountdown w) (preRoundIntervalId w) (roundTimerIntervalId w)
    (activePlayersInRound w) (attached w) (out w).
Definition set_attached (v : list SocketId) (w : World) : World :=
  mkWorld (registered w) (players w) (status w) (currentRound w) (maxRounds w)
    (preRoundCountdown w) (preRoundIntervalId w) (roundTimerIntervalId w)
    (activePlayersInRound w) v (out w).
Definition emit (e : Emit) (w : World) : World :=
  mkWorld (registered w) (players w) (status w) (currentRound w) (maxRounds w)
    (preRoundCountdown w) (preRoundIntervalId w) (roundTimerIntervalId w)
    (activePlayersInRound w) (attached w) (out w ++ [e]).

Definition newPlayer (s : SocketId) (playerName : string) : Player :=
  mkPlayer s playerName 600 0 0 false false.

Definition createRoom (s : SocketId) (playerName : string) : World :=
  let w := mkWorld true [newPlayer s playerName] waiting 0 19 0 None None []
             [s] [] in
  let w := emit (EmCreateCallback s (newPlayer s playerName)) w in
  emit (EmPlayerStatusUpdate (players w)) w.

Definition is_waiting (st : Status) : bool :=
  match st with waiting => true | _ => false end.

Definition joinRoom (s : SocketId) (playerName : string) (w : World) : World :=
  if negb (registered w) then emit (EmJoinCallback s (inl RoomNotFound)) w
  else if negb (is_waiting (status w)) then
    emit (EmJoinCallback s (inl GameStarted)) w
  else if (4 <=? length (players w))%nat then
    emit (EmJoinCallback s (inl RoomFull)) w
  else
    let w := set_players (players w ++ [newPlayer s playerName]) w in
    let w := set_attached (s :: attached w) w in
    let w := emit (EmJoinCallback s (inr (newPlayer s playerName))) w in
    emit (EmPlayerStatusUpdate (players w)) w.

Definition is_attached (s : SocketId) (w : World) : bool :=
  existsb (Nat.eqb s) (attached w).

Definition detach (s : SocketId) (w : World) : World :=
  set_attached (List.filter (λ s', negb (Nat.eqb s s')) (attached w)) w.

Definition has_id (s : SocketId) (p : Player) : bool := Nat.eqb (id p) s.

(** The part [leaveRoom] and [disconnect] share. *)
Definition removePlayer (s : SocketId) (w : World) : World :=
  let w := set_players (List.filter (λ p, negb (has_id s p)) (players w)) w in
  if Nat.eqb (length (players w)) 0 then
    (* clearInterval on both handles, which are null; the room is deleted *)
    set_registered false w
  else emit (EmPlayerStatusUpdate (players w)) w.

Definition leaveRoom (s : SocketId) (w : World) : World :=
  if is_attached s w && registered w then detach s (removePlayer s w) else w.

(** [disconnect] leaves [socket.roomId] in place. *)
Definition disconnect (s : SocketId) (w : World) : World :=
  if is_attached s w && registered w then removePlayer s w else w.

(** [player.isHoldingButton = v] on the first record with the socket's id,
    when its button is in the other state. *)
Fixpoint press (v : bool) (s : SocketId) (ps : list Player)
  : option (list Player) :=
  match ps with
  | [] => None
  | p :: ps' =>
      if has_id s p then
        if Bool.eqb (isHoldingButton p) v then None
        else Some (set_isHoldingButton v p :: ps')
      else (λ l, p :: l) <$> press v s ps'
  end.

Definition playerHolding (s : SocketId) (w : World) : World :=
  if is_attached s w && registered w then
    match press true s (players w) with
    | Some ps => emit (EmPlayerStatusUpdate ps) (set_players ps w)
    | None => w
    end
  else w.

Definition playerReleased (s : SocketId) (w : World) : World :=
  if is_attached s w && registered w then
    match press false s (players w) with
    | Some ps => emit (EmPlayerStatusUpdate ps) (set_players ps w)
    | None => w
    end
  else w.

Inductive Event :=
| JoinRoom (s : SocketId) (playerName : string)
| LeaveRoom (s : SocketId)
| PlayerHolding (s : SocketId)
| PlayerReleased (s : SocketId)
| Disconnect (s : SocketId).

Definition step (e : Event) (w : World) : World :=
  match e with
  | JoinRoom s playerName => joinRoom s playerName w
  | LeaveRoom s => leaveRoom s w
  | PlayerHolding s => playerHolding s w
  | PlayerReleased s => playerReleased s w
  | Disconnect s => disconnect s w
  end.

Definition run (es : list Event) (w : World) : World :=
  foldl (λ w e, step e w) w es.

End Skeleton.

(** * Proofs *)

#[local] Set Warnings "-clear-no-such-hyp".
#[local] Arguments Nat.leb : simpl never.
#[local] Arguments Nat.ltb : simpl never.
#[local] Arguments Nat.eqb : simpl never.
#[local] Arguments Z.leb : simpl never.
#[local] Arguments Z.ltb : simpl never.
#[local] Arguments Z.eqb : simpl never.
#[local] Arguments Z.add : simpl never.
#[local] Arguments Z.sub : simpl never.

(** ** In-place loops over references *)

Section ForEach.
Context (f : Player → Player).

Lemma forEach_cons r refs h :
  forEach f (r :: refs) h = forEach f refs (alter f r h).
Proof. reflexivity. Qed.

Lemma length_forEach refs h : length (forEach f refs h) = length h.
Proof.
  revert h. induction refs as [|r refs IH]; intros h; [done|].
  rewrite forEach_cons, IH. apply length_alter.
Qed.

Lemma lookup_forEach_notin refs h r :
  ¬ In r refs → forEach f refs h !! r = h !! r.
Proof.
  revert h. induction refs as [|r' refs IH]; intros h Hnin; [done|].
  rewrite forEach_cons, IH by (intros ?; apply Hnin; by right).
  apply list_lookup_alter_ne. intros ->. apply Hnin. by left.
Qed.

Lemma lookup_forEach_in refs h r :
  List.NoDup refs → In r refs → forEach f refs h !! r = f <$> h !! r.
Proof.
  revert h. induction refs as [|r' refs IH]; intros h Hnd Hin; [done|].
  inversion_clear Hnd as [|? ? Hr' Hnd']. rewrite forEach_cons.
  destruct Hin as [->|Hin].
  - rewrite lookup_forEach_notin by done. apply list_lookup_alter_eq.
  - rewrite IH by done. rewrite list_lookup_alter_ne; [done|].
    by intros ->.
Qed.

Lemma lookup_forEach_idem refs h r :
  (∀ p, f (f p) = f p) → In r refs → forEach f refs h !! r = f <$> h !! r.
Proof.
  intros Hidem. revert h.
  induction refs as [|r' refs IH]; intros h Hin; [done|].
  rewrite forEach_cons.
  destruct (in_dec Nat.eq_dec r refs) as [Hin'|Hnin].
  - rewrite IH by done. rewrite list_lookup_alter.
    case_decide; [subst|done].
    destruct (h !! r); simpl; [by rewrite Hidem|done].
  - destruct Hin as [->|?]; [|done].
    rewrite lookup_forEach_notin by done. apply list_lookup_alter_eq.
Qed.

(** Whatever the body guarantees step by step holds of the whole loop. *)
Lemma forEach_rel (R : Player → Player → Prop) refs h r p :
  (∀ q, R q q) → (∀ a b c, R a b → R b c → R a c) → (∀ q, R q (f q)) →
  h !! r = Some p → ∃ p', forEach f refs h !! r = Some p' ∧ R p p'.
Proof.
  intros Hrefl Htrans Hf. revert h p.
  induction refs as [|r' refs IH]; intros h p Hp; [by exists p|].
  rewrite forEach_cons.
  destruct (decide (r' = r)) as [->|Hne].
  - destruct (IH (alter f r h) (f p)) as (p' & Hp' & HR).
    { by rewrite list_lookup_alter_eq, Hp. }
    exists p'. split; [done|]. eapply Htrans; [apply Hf|done].
  - apply IH. by rewrite list_lookup_alter_ne.
Qed.
End ForEach.

Lemma forEachFlag_fst f refs h :
  (forEachFlag f refs h).1 = forEach (λ p, (f p).1) refs h.
Proof.
  unfold forEachFlag, forEach. generalize false. revert h.
  induction refs as [|r refs IH]; intros h b; [done|]. simpl.
  destruct (h !! r) as [p|] eqn:Hp; simpl.
  - rewrite IH. f_equal. rewrite list_insert_alter.
    apply list_alter_ext; [|done]. intros q Hq. congruence.
  - rewrite IH. f_equal. symmetry. apply list_eq. intros i.
    rewrite list_lookup_alter. case_decide; [subst; by rewrite Hp|done].
Qed.

Lemma holds_Some P h r : holds P h r = true ↔ ∃ p, h !! r = Some p ∧ P p = true.
Proof.
  unfold holds. destruct (h !! r) as [p|]; split.
  - intros ?. by exists p.
  - by intros (? & [= <-] & ?).
  - done.
  - by intros (? & ? & ?).
Qed.

Lemma In_alivePlayers w r :
  In r (alivePlayers w) ↔
  In r (players w) ∧ ∃ p, heap w !! r = Some p ∧ isEliminated p = false.
Proof.
  unfold alivePlayers. rewrite filter_In, holds_Some. unfold alive.
  split; intros (? & p & ? & ?); (split; [done|]); exists p;
    destruct (isEliminated p); naive_solver.
Qed.

(** ** Frame facts for the small helpers *)

(** [w'] differs from [w] by outbound events only. *)
Definition onlyEmits (w w' : World) : Prop :=
  ∃ more, w' = set_out (out w ++ more) w.

Lemma onlyEmits_refl w : onlyEmits w w.
Proof. exists []. rewrite app_nil_r. by destruct w. Qed.

Lemma onlyEmits_trans w1 w2 w3 :
  onlyEmits w1 w2 → onlyEmits w2 w3 → onlyEmits w1 w3.
Proof.
  intros [m1 ->] [m2 ->]. exists (m1 ++ m2). simpl. by rewrite app_assoc.
Qed.

Lemma emit_onlyEmits e w : onlyEmits w (emit e w).
Proof. by exists [e]. Qed.

Lemma broadcastPlayerStatusUpdate_onlyEmits w :
  onlyEmits w (broadcastPlayerStatusUpdate w).
Proof.
  unfold broadcastPlayerStatusUpdate.
  destruct (registered w); [apply emit_onlyEmits|apply onlyEmits_refl].
Qed.

Lemma announceRound_onlyEmits w : onlyEmits w (announceRound w).
Proof.
  unfold announceRound.
  destruct (broadcastPlayerStatusUpdate_onlyEmits w) as [m ->].
  match goal with |- context [if ?c then _ else _] => destruct c end;
    repeat (eapply onlyEmits_trans; [|apply emit_onlyEmits]);
    by exists m.
Qed.

Lemma replayPhase_onlyEmits s w : onlyEmits w (replayPhase s w).
Proof.
  unfold replayPhase.
  repeat match goal with |- context [if ?c then _ else _] => destruct c end;
    eauto using emit_onlyEmits, onlyEmits_refl, onlyEmits_trans.
Qed.

Lemma clearGameIntervals_frame w w' :
  w' = clearGameIntervals w →
  heap w' = heap w ∧ players w' = players w ∧ status w' = status w
  ∧ registered w' = registered w ∧ out w' = out w
  ∧ currentRound w' = currentRound w ∧ maxRounds w' = maxRounds w
  ∧ activePlayersInRound w' = activePlayersInRound w
  ∧ timeouts w' = timeouts w ∧ attached w' = attached w
  ∧ crashed w' = crashed w ∧ preRoundCountdown w' = preRoundCountdown w
  ∧ nextTimerId w' = nextTimerId w
  ∧ preRoundIntervalId w' = None ∧ roundTimerIntervalId w' = None.
Proof.
  intros ->. unfold clearGameIntervals.
  destruct (preRoundIntervalId w) eqn:E1, (roundTimerIntervalId w) eqn:E2;
    simpl; rewrite ?E1, ?E2; simpl; repeat split; done.
Qed.

Lemma gameEnded_status reason w :
  registered w = true → status (gameEnded reason w) = gameOver.
Proof.
  intros Hreg. unfold gameEnded. rewrite Hreg. simpl.
  by destruct (clearGameIntervals_frame (set_status gameOver w) _ eq_refl) as (_&_&->&_).
Qed.

Lemma gameEnded_out reason w :
  registered w = true →
  out (gameEnded reason w)
  = out w ++ [EmGameOver ToRoom (Some reason) (deref (heap w) (players w))
                (Some (finalWinnerOf
                         (List.filter alive (deref (heap w) (players w)))))].
Proof.
  intros Hreg. unfold gameEnded. rewrite Hreg. simpl.
  destruct (clearGameIntervals_frame (set_status gameOver w) _ eq_refl)
    as (->&->&_&_&->&_). done.
Qed.

Lemma gameEnded_frame reason w w' :
  w' = gameEnded reason w →
  heap w' = heap w ∧ players w' = players w
  ∧ registered w' = registered w
  ∧ currentRound w' = currentRound w ∧ maxRounds w' = maxRounds w
  ∧ activePlayersInRound w' = activePlayersInRound w
  ∧ timeouts w' = timeouts w ∧ attached w' = attached w
  ∧ crashed w' = crashed w.
Proof.
  intros ->. unfold gameEnded. destruct (registered w) eqn:Hreg; simpl; [|done].
  destruct (clearGameIntervals_frame (set_status gameOver w) _ eq_refl)
    as (->&->&_&->&_&->&->&->&->&->&->&_). done.
Qed.

Lemma gameEnded_timers reason w :
  registered w = true →
  preRoundIntervalId (gameEnded reason w) = None
  ∧ roundTimerIntervalId (gameEnded reason w) = None.
Proof.
  intros Hreg. unfold gameEnded. rewrite Hreg. simpl.
  destruct (clearGameIntervals_frame (set_status gameOver w) _ eq_refl)
    as (_&_&_&_&_&_&_&_&_&_&_&_&_&->&->). done.
Qed.

Lemma deref_alivePlayers_length w :
  length (deref (heap w) (alivePlayers w)) = length (alivePlayers w).
Proof.
  unfold alivePlayers, deref.
  induction (players w) as [|r rs IH]; [done|]. simpl.
  destruct (holds alive (heap w) r) eqn:Hh; [|done].
  apply holds_Some in Hh as (p & Hp & _). simpl. rewrite Hp. simpl.
  f_equal. apply IH.
Qed.

(** ** C4: start of the next round *)

Lemma resetForNewRound_idem p :
  resetForNewRound (resetForNewRound p) = resetForNewRound p.
Proof. done. Qed.

(** C4.  [startNewRound] on a room still in the registry: with at most one
    non-eliminated player and [currentRound > 0] the game is over, the reason
    naming the sole survivor or saying that all are eliminated; otherwise
    with [currentRound >= maxRounds] the game is over with the
    rounds-exhausted reason; otherwise [currentRound] grows by exactly one,
    the phase is [waiting], the player list is kept and every player has
    [isHoldingButton], [hasOptedOut] and [roundHoldDuration] reset while time,
    tokens and elimination are untouched. *)
Theorem C4_startNewRound (w : World) :
  registered w = true →
  let w' := startNewRound w in
  let endsGame := (length (alivePlayers w) ≤ 1)%nat ∧ 0 < currentRound w in
  (endsGame →
     status w' = gameOver ∧
     ∃ reason finalPlayers finalWinner,
       out w' = out w ++ [EmGameOver ToRoom (Some reason) finalPlayers finalWinner]
       ∧ (∀ r, alivePlayers w = [r] →
            ∃ p, heap w !! r = Some p ∧ reason = SoleSurvivor (name p))
       ∧ (alivePlayers w = [] → reason = AllEliminated))
  ∧ (¬ endsGame → maxRounds w ≤ currentRound w →
     status w' = gameOver ∧
     ∃ finalPlayers finalWinner,
       out w' = out w ++ [EmGameOver ToRoom (Some RoundsExhausted)
                            finalPlayers finalWinner])
  ∧ (¬ endsGame → currentRound w < maxRounds w →
     currentRound w' = currentRound w + 1
     ∧ status w' = waiting
     ∧ players w' = players w
     ∧ ∀ r p, In r (players w) → heap w !! r = Some p →
         ∃ p', heap w' !! r = Some p'
           ∧ isHoldingButton p' = false ∧ hasOptedOut p' = false
           ∧ roundHoldDuration p' = 0
           ∧ time p' = time p ∧ tokens p' = tokens p
           ∧ isEliminated p' = isEliminated p).
Proof.
  intros Hreg w' endsGame. subst w'. unfold startNewRound. rewrite Hreg.
  cbn [negb].
  destruct ((length (alivePlayers w) <=? 1)%nat && (0 <? currentRound w))
    eqn:Hends.
  - apply andb_true_iff in Hends as [Hlen Hcur].
    apply Nat.leb_le in Hlen. apply Z.ltb_lt in Hcur.
    split; [|split; intros Hn; exfalso; apply Hn; by split].
    intros _. split; [by apply gameEnded_status|].
    eexists _, _, _. split; [by apply gameEnded_out|]. split.
    + intros r Hr. pose proof (deref_alivePlayers_length w) as Hl.
      assert (In r (alivePlayers w)) as Hin by (rewrite Hr; by left).
      apply In_alivePlayers in Hin as (_ & p & Hp & _).
      exists p. split; [done|]. rewrite Hr. simpl. by rewrite Hp.
    + intros ->. done.
  - assert (¬ endsGame) as Hnot.
    { intros [Hlen Hcur]. apply Nat.leb_le in Hlen. apply Z.ltb_lt in Hcur.
      by rewrite Hlen, Hcur in Hends. }
    split; [done|].
    destruct (maxRounds w <=? currentRound w) eqn:Hmax.
    + apply Z.leb_le in Hmax. split; [|intros; lia].
      intros _ _. split; [by apply gameEnded_status|].
      eexists _, _. by apply gameEnded_out.
    + apply Z.leb_gt in Hmax. split; [intros; lia|]. intros _ _.
      destruct (announceRound_onlyEmits (prepareRound w)) as [m ->].
      simpl. repeat split; [done..|]. intros r p Hin Hp.
      exists (resetForNewRound p). split; [|done].
      rewrite lookup_forEach_idem, Hp by (done || apply resetForNewRound_idem).
      done.
Qed.

(** ** C5: releasing while the countdown runs *)

Lemma find_player_Some s w r :
  find_player s w = Some r →
  In r (players w) ∧ ∃ p, heap w !! r = Some p ∧ id p = s.
Proof.
  intros Hf. apply find_some in Hf as [Hin Hh].
  apply holds_Some in Hh as (p & Hp & Hid). split; [done|].
  exists p. split; [done|]. by apply Nat.eqb_eq.
Qed.

(** The room one reaches when the creator alone holds: the countdown runs. *)
Definition soloCountdown : World :=
  run [PlayerHolding 1] (createRoom 1 "A" 60 3).

(** C5, as stated, fails: in [soloCountdown] the countdown timer is live and
    player A holds; after A's release the timer handle is still set and the
    timer still live. *)
Lemma C5_counterexample :
  status soloCountdown = preCountdown
  ∧ preRoundIntervalId soloCountdown = Some 0%nat
  ∧ find_player 1 soloCountdown = Some 0%nat
  ∧ holds isHoldingButton (heap soloCountdown) 0 = true
  ∧ preRoundIntervalId (playerReleased 1 soloCountdown) = Some 0%nat
  ∧ In (0%nat, CountdownTimer) (intervals (playerReleased 1 soloCountdown))
  ∧ preRoundIntervalId (step (PlayerReleased 1) soloCountdown) ≠ None.
Proof. vm_compute. repeat split; try done. by left. Qed.

(** C5, amended.  In phase [preCountdown] with a live countdown timer, the
    release of a holding player does not cancel the countdown: the timer
    handle, the live timers, the phase, the countdown value and the pending
    timeouts are unchanged; the releasing player's [isHoldingButton] becomes
    false and [hasOptedOut] true, every other player record is untouched, and
    nothing is re-evaluated. *)
Theorem C5_release_during_countdown (w : World) (s : SocketId) (r : Ref)
    (p : Player) (t : TimerId) :
  is_attached s w = true → registered w = true →
  status w = preCountdown → preRoundIntervalId w = Some t →
  find_player s w = Some r → heap w !! r = Some p →
  isHoldingButton p = true →
  let w' := playerReleased s w in
  preRoundIntervalId w' = Some t
  ∧ intervals w' = intervals w
  ∧ status w' = preCountdown
  ∧ preRoundCountdown w' = preRoundCountdown w
  ∧ timeouts w' = timeouts w
  ∧ players w' = players w
  ∧ activePlayersInRound w' = activePlayersInRound w
  ∧ heap w' !! r = Some (set_hasOptedOut true (set_isHoldingButton false p))
  ∧ (∀ r', r' ≠ r → heap w' !! r' = heap w !! r').
Proof.
  intros Hatt Hreg Hst Hpre Hfind Hp Hhold w'. subst w'.
  unfold playerReleased. rewrite Hatt, Hreg, Hfind. simpl.
  unfold holds. rewrite Hp, Hhold, Hst, Hpre. simpl.
  unfold broadcastPlayerStatusUpdate. simpl. rewrite Hreg. simpl.
  repeat split; try done.
  - by rewrite !list_lookup_alter_eq, Hp.
  - intros r' Hne. by rewrite !list_lookup_alter_ne.
Qed.

Lemma C5_release_during_countdown_witness :
  preRoundIntervalId (playerReleased 1 soloCountdown) = Some 0%nat
  ∧ status (playerReleased 1 soloCountdown) = preCountdown.
Proof.
  pose proof (C5_release_during_countdown soloCountdown 1 0
                (mkPlayer 1 "A" 60 0 true false 0 false) 0
                eq_refl eq_refl eq_refl eq_refl eq_refl eq_refl eq_refl) as H.
  split; [exact (proj1 H)|exact (proj1 (proj2 (proj2 H)))].
Defined.

(** ** C10: joining a room *)

Definition nameUsed (playerName : string) (w : World) : Prop :=
  ∃ r p, In r (players w) ∧ heap w !! r = Some p ∧ name p = playerName.

Lemma nameUsed_existsb playerName w :
  existsb (holds (λ p, String.eqb (name p) playerName) (heap w)) (players w) = true
  ↔ nameUsed playerName w.
Proof.
  unfold nameUsed. rewrite existsb_exists. split.
  - intros (r & Hin & Hh). apply holds_Some in Hh as (p & Hp & Hn).
    exists r, p. by rewrite String.eqb_eq in Hn.
  - intros (r & p & Hin & Hp & Hn). exists r. split; [done|].
    apply holds_Some. exists p. by rewrite String.eqb_eq.
Qed.

Lemma joinable_iff st :
  joinable st = true ↔ st = waiting ∨ st = roundEnded ∨ st = gameOver.
Proof.
  destruct st; simpl; split; try done; auto; intros [H|[H|H]]; done.
Qed.

(** A join request is accepted exactly in this case. *)
Definition joinAccepted (playerName : string) (w : World) : Prop :=
  registered w = true
  ∧ (status w = waiting ∨ status w = roundEnded ∨ status w = gameOver)
  ∧ (length (players w) < 4)%nat
  ∧ ¬ nameUsed playerName w.

(** Every room in the registry has a first player record (shown for all
    reachable rooms further down). *)
Definition hasFirstPlayer (w : World) : Prop :=
  registered w = true →
  ∃ r0 rest p0, players w = r0 :: rest ∧ heap w !! r0 = Some p0.

Lemma joinRoom_rejected s playerName w :
  ¬ joinAccepted playerName w →
  ∃ err, joinRoom s playerName w = emit (EmJoinCallback s (inl err)) w.
Proof.
  intros Hno. unfold joinRoom.
  destruct (registered w) eqn:Hreg; simpl; [|by eexists].
  destruct (joinable (status w)) eqn:Hj; simpl; [|by eexists].
  destruct (4 <=? length (players w))%nat eqn:Hlen; [by eexists|].
  destruct (existsb _ (players w)) eqn:Hname; [by eexists|].
  exfalso. apply Hno. split; [done|]. split; [by apply joinable_iff|].
  split; [by apply Nat.leb_gt|].
  intros Hu. apply nameUsed_existsb in Hu. congruence.
Qed.

Lemma joinRoom_accepted s playerName w :
  hasFirstPlayer w → joinAccepted playerName w →
  ∃ r0 rest p0,
    players w = r0 :: rest ∧ heap w !! r0 = Some p0 ∧
    let newPlayer := mkPlayer s playerName (time p0) 0 false false 0 false in
    let w' := joinRoom s playerName w in
    heap w' = heap w ++ [newPlayer]
    ∧ players w' = players w ++ [length (heap w)]
    ∧ heap w' !! length (heap w) = Some newPlayer
    ∧ status w' = status w
    ∧ registered w' = true
    ∧ crashed w' = crashed w
    ∧ is_attached s w' = true
    ∧ ∃ more, out w' = out w ++ EmJoinCallback s (inr newPlayer) :: more.
Proof.
  intros Hfirst (Hreg & Hst & Hlen & Hname).
  destruct (Hfirst Hreg) as (r0 & rest & p0 & Hps & Hp0).
  exists r0, rest, p0. split; [done|]. split; [done|]. simpl.
  unfold joinRoom. rewrite Hreg. simpl.
  apply joinable_iff in Hst as Hj. rewrite Hj. simpl.
  apply Nat.leb_gt in Hlen. rewrite Hlen.
  destruct (existsb _ (players w)) eqn:Hex.
  { apply nameUsed_existsb in Hex. done. }
  rewrite Hps. simpl. rewrite Hp0. simpl.
  match goal with |- context [replayPhase s (broadcastPlayerStatusUpdate ?w0)] =>
    destruct (onlyEmits_trans _ _ _
                (broadcastPlayerStatusUpdate_onlyEmits w0)
                (replayPhase_onlyEmits s (broadcastPlayerStatusUpdate w0)))
      as [more ->]
  end.
  simpl. repeat split; try done.
  - by rewrite lookup_app_r, Nat.sub_diag by done.
  - unfold is_attached. simpl. by rewrite Nat.eqb_refl.
  - rewrite <- app_assoc. by eexists.
Qed.

(** The creator wins the first round: A creates (60 s), B joins, both hold
    through the countdown, B releases after 4 ticks, A after 7. *)
Definition creatorWins : list Event :=
  [JoinRoom 2 "B"; PlayerHolding 1; PlayerHolding 2]
  ++ replicate 5 (IntervalFires 0)
  ++ replicate 4 (IntervalFires 1) ++ [PlayerReleased 2]
  ++ replicate 3 (IntervalFires 1) ++ [PlayerReleased 1].

(** C10, as stated, fails on the time a newcomer gets: the room was created
    with [initialTime = 60]; after the creator has won a round with 7 s, C
    joins and is given 53 s. *)
Lemma C10_counterexample :
  let w := run creatorWins (createRoom 1 "A" 60 3) in
  let w' := joinRoom 3 "C" w in
  joinAccepted "C" w
  ∧ deref (heap w') (players w') !! 2%nat
    = Some (mkPlayer 3 "C" 53 0 false false 0 false)
  ∧ (53 ≠ 60).
Proof.
  split; [|split; [by vm_compute|done]].
  repeat split; try (by vm_compute); [vm_compute; by right; left| |].
  - vm_compute. lia.
  - intros (r & p & Hin & Hp & Hn). vm_compute in Hin, Hp.
    destruct Hin as [<-|[<-|[]]]; simpl in Hp; injection Hp as <-; done.
Qed.

(** C10, amended.  A join request succeeds if and only if the room is in the
    registry, its phase is [waiting], [roundEnded] or [gameOver], it has
    fewer than 4 players and no player of the room bears the requested name
    (exact string match).  When it fails, the only effect is one rejection
    sent to the requester: the room state is unchanged.  When it succeeds,
    exactly one record is appended, whose time is the current time of the
    first player of the room ([game.players[0].time]) and whose tokens,
    holding, opted-out, eliminated flags and [roundHoldDuration] are zero or
    false. *)
Theorem C10_joinRoom (w : World) (s : SocketId) (playerName : string) :
  hasFirstPlayer w →
  let w' := joinRoom s playerName w in
  (joinAccepted playerName w →
     ∃ r0 rest p0,
       players w = r0 :: rest ∧ heap w !! r0 = Some p0 ∧
       let newPlayer := mkPlayer s playerName (time p0) 0 false false 0 false in
       heap w' = heap w ++ [newPlayer]
       ∧ players w' = players w ++ [length (heap w)]
       ∧ status w' = status w
       ∧ ∃ more, out w' = out w ++ EmJoinCallback s (inr newPlayer) :: more)
  ∧ (¬ joinAccepted playerName w →
     ∃ err, w' = emit (EmJoinCallback s (inl err)) w).
Proof.
  intros Hfirst w'. split.
  - intros Hok.
    destruct (joinRoom_accepted s playerName w Hfirst Hok)
      as (r0 & rest & p0 & Hps & Hp0 & H).
    exists r0, rest, p0. cbv zeta in H.
    destruct H as (H1 & H2 & _ & H3 & _ & _ & _ & H4). by repeat split.
  - apply joinRoom_rejected.
Qed.

(** ** C3: arming the countdown *)

(** The arming condition over the non-eliminated players, as the claim words
    it: exactly one and holding, or at least two and all holding. *)
Definition armed (w : World) : Prop :=
  let alivePs := alivePlayers w in
  (length alivePs = 1%nat ∨ (2 ≤ length alivePs)%nat)
  ∧ ∀ r, In r alivePs → ∃ p, heap w !! r = Some p ∧ isHoldingButton p = true.

Lemma shouldStartCountdown_armed w : shouldStartCountdown w = true ↔ armed w.
Proof.
  unfold shouldStartCountdown, armed.
  assert (forallb (holds isHoldingButton (heap w)) (alivePlayers w) = true ↔
          ∀ r, In r (alivePlayers w) →
               ∃ p, heap w !! r = Some p ∧ isHoldingButton p = true) as Hall.
  { rewrite forallb_forall. by setoid_rewrite holds_Some. }
  destruct (Nat.eqb_spec (length (alivePlayers w)) 1) as [H1|H1].
  - rewrite Hall. naive_solver.
  - rewrite andb_true_iff, Nat.leb_le, Hall. naive_solver.
Qed.

(** A hold action that takes effect: the caller has a record, is not
    eliminated, has time left and is not holding yet. *)
Definition effectiveHold (s : SocketId) (w : World) (r : Ref) : Prop :=
  is_attached s w = true ∧ registered w = true ∧ find_player s w = Some r
  ∧ ∃ p, heap w !! r = Some p ∧ 0 < time p ∧ isEliminated p = false
         ∧ isHoldingButton p = false.

Definition pressed (r : Ref) (w : World) : World :=
  set_heap (alter (set_isHoldingButton true) r (heap w)) w.

Lemma playerHolding_ineffective s w :
  (¬ ∃ r, effectiveHold s w r) → playerHolding s w = w.
Proof.
  intros Hno. unfold playerHolding.
  destruct (is_attached s w && registered w) eqn:Hatt; [|done]. simpl.
  apply andb_true_iff in Hatt as [Hatt Hreg].
  destruct (find_player s w) as [r|] eqn:Hfind; [|done].
  destruct (holds (λ player, _ || _) (heap w) r) eqn:Hbad; [done|].
  destruct (holds (λ player, negb _) (heap w) r) eqn:Hnot; [|done].
  exfalso. apply Hno. exists r. repeat split; try done.
  apply holds_Some in Hnot as (p & Hp & Hh). exists p.
  unfold holds in Hbad. rewrite Hp in Hbad.
  apply orb_false_iff in Hbad as [Ht He]. apply Z.leb_gt in Ht.
  apply negb_true_iff in Hh. done.
Qed.

Lemma alivePlayers_pressed r w : alivePlayers (pressed r w) = alivePlayers w.
Proof.
  unfold alivePlayers, pressed. simpl. apply filter_ext. intros r'.
  unfold holds. rewrite list_lookup_alter.
  case_decide; [subst|done]. by destruct (heap w !! r').
Qed.

Lemma startPreRoundCountdown_started w :
  registered w = true → canArm (status w) = true →
  shouldStartCountdown w = true →
  let w' := startPreRoundCountdown w in
  status w' = preCountdown
  ∧ preRoundCountdown w' = 5
  ∧ preRoundIntervalId w' = Some (nextTimerId w)
  ∧ intervals w' = intervals w ++ [(nextTimerId w, CountdownTimer)]
  ∧ heap w' = forEach resetForCountdown (players w) (heap w)
  ∧ players w' = players w
  ∧ roundTimerIntervalId w' = roundTimerIntervalId w
  ∧ timeouts w' = timeouts w.
Proof.
  intros Hreg Hst Harm. unfold startPreRoundCountdown.
  rewrite Hreg, Harm. simpl.
  destruct (status w); try done; simpl;
    unfold broadcastPlayerStatusUpdate; simpl; rewrite Hreg; done.
Qed.

Lemma startPreRoundCountdown_not w :
  shouldStartCountdown w = false → startPreRoundCountdown w = w.
Proof.
  intros Harm. unfold startPreRoundCountdown. rewrite Harm. simpl.
  by destruct (negb (registered w) || _ || _).
Qed.

Lemma playerHolding_effective s w r :
  effectiveHold s w r →
  canArm (status w) = true → preRoundIntervalId w = None →
  playerHolding s w
  = if shouldStartCountdown (pressed r w)
    then startPreRoundCountdown (broadcastPlayerStatusUpdate (pressed r w))
    else broadcastPlayerStatusUpdate (pressed r w).
Proof.
  intros (Hatt & Hreg & Hfind & p & Hp & Ht & He & Hh) Hst Hpre.
  unfold playerHolding. rewrite Hatt, Hreg, Hfind. simpl.
  unfold holds at 1 2. rewrite Hp, He, Hh. simpl.
  apply Z.leb_gt in Ht. rewrite Ht. simpl.
  fold (pressed r w).
  assert (∀ x, status (broadcastPlayerStatusUpdate x) = status x
             ∧ preRoundIntervalId (broadcastPlayerStatusUpdate x)
               = preRoundIntervalId x
             ∧ heap (broadcastPlayerStatusUpdate x) = heap x
             ∧ alivePlayers (broadcastPlayerStatusUpdate x) = alivePlayers x)
    as Hb.
  { intros x. by destruct (broadcastPlayerStatusUpdate_onlyEmits x) as [m ->]. }
  destruct (Hb (pressed r w)) as (-> & -> & -> & ->). simpl.
  rewrite Hst, Hpre. simpl. rewrite !andb_true_r.
  unfold shouldStartCountdown. simpl.
  by destruct (Nat.eqb (length (alivePlayers (pressed r w))) 1).
Qed.

Lemma canArm_iff st : canArm st = true ↔ st = waiting ∨ st = roundEnded.
Proof. destruct st; simpl; split; try done; auto; intros [H|H]; done. Qed.

Lemma effectiveHold_alive s w r : effectiveHold s w r → In r (alivePlayers w).
Proof.
  intros (_ & _ & Hfind & p & Hp & _ & He & _).
  apply find_player_Some in Hfind as [Hin _].
  apply In_alivePlayers. split; [done|]. by exists p.
Qed.

(** A single player is left in a room where nobody is counting down and that
    player already holds: B joined, A pressed, B left. *)
Definition holderLeftAlone : World :=
  run [JoinRoom 2 "B"; PlayerHolding 1; LeaveRoom 2] (createRoom 1 "A" 60 3).

(** C3, as stated, fails: in [holderLeftAlone] the phase is [waiting], no
    countdown timer is live, exactly one player is alive and that player is
    holding, so the arming condition holds; yet a hold action (by that player
    or by anyone else) starts no countdown. *)
Lemma C3_counterexample :
  reachable holderLeftAlone
  ∧ status holderLeftAlone = waiting
  ∧ preRoundIntervalId holderLeftAlone = None
  ∧ armed holderLeftAlone
  ∧ (∀ s, status (step (PlayerHolding s) holderLeftAlone) = waiting
          ∧ preRoundIntervalId (step (PlayerHolding s) holderLeftAlone) = None
          ∧ intervals (step (PlayerHolding s) holderLeftAlone) = []).
Proof.
  split; [apply reachable_run, reach_create|].
  split; [done|]. split; [done|].
  split; [by apply shouldStartCountdown_armed|].
  intros s. destruct s as [|[|s]]; [done..|].
  by destruct s as [|s].
Qed.

(** C3, amended.  In phase [waiting] or [roundEnded] with no live countdown
    handle, a hold action that takes effect (the caller has a record in the
    room, is not eliminated, has time left and was not holding) starts the
    countdown if and only if, once the caller's flag is set, the
    non-eliminated players are exactly one and holding, or at least two and
    all holding.  When it starts, the phase is [preCountdown],
    [preRoundCountdown] is 5, a countdown timer is live and every player's
    [hasOptedOut] and [roundHoldDuration] are reset.  Any other hold action
    changes nothing; in particular with no non-eliminated player no countdown
    starts. *)
Theorem C3_arming (w : World) (s : SocketId) :
  status w = waiting ∨ status w = roundEnded →
  preRoundIntervalId w = None →
  let w' := playerHolding s w in
  (∀ r, effectiveHold s w r →
     (armed (pressed r w) →
        status w' = preCountdown
        ∧ preRoundCountdown w' = 5
        ∧ preRoundIntervalId w' = Some (nextTimerId w)
        ∧ In (nextTimerId w, CountdownTimer) (intervals w')
        ∧ ∀ r' p', In r' (players w') → heap w' !! r' = Some p' →
            hasOptedOut p' = false ∧ roundHoldDuration p' = 0)
     ∧ (¬ armed (pressed r w) →
        status w' = status w
        ∧ preRoundIntervalId w' = None
        ∧ intervals w' = intervals w
        ∧ heap w' = heap (pressed r w)))
  ∧ ((¬ ∃ r, effectiveHold s w r) → w' = w)
  ∧ (alivePlayers w = [] → w' = w).
Proof.
  intros Hst Hpre w'. apply canArm_iff in Hst. split; [|split].
  - intros r Heff. subst w'.
    rewrite (playerHolding_effective s w r Heff Hst Hpre).
    destruct Heff as (_ & Hreg & _).
    destruct (broadcastPlayerStatusUpdate_onlyEmits (pressed r w)) as [m Hm].
    split.
    + intros Harm. apply shouldStartCountdown_armed in Harm as Hb.
      rewrite Hb.
      destruct (startPreRoundCountdown_started
                  (broadcastPlayerStatusUpdate (pressed r w)))
        as (H1 & H2 & H3 & H4 & H5 & H6 & _).
      { by rewrite Hm. } { by rewrite Hm. }
      { rewrite <- Hb. by rewrite Hm. }
      rewrite H1, H2, H3, H4, H5, H6. rewrite Hm. simpl.
      repeat split; try done.
      * apply in_app_iff. right. by left.
      * rewrite lookup_forEach_idem in H0 by done.
        destruct (_ !! r'); simpl in H0; [|done]. by injection H0 as <-.
      * rewrite lookup_forEach_idem in H0 by done.
        destruct (_ !! r'); simpl in H0; [|done]. by injection H0 as <-.
    + intros Hno.
      destruct (shouldStartCountdown (pressed r w)) eqn:Hb.
      { by apply shouldStartCountdown_armed in Hb. }
      by rewrite Hm.
  - apply playerHolding_ineffective.
  - intros Hnil. apply playerHolding_ineffective. intros [r Heff].
    apply effectiveHold_alive in Heff. by rewrite Hnil in Heff.
Qed.

Lemma C3_arming_witness :
  status (playerHolding 1 (createRoom 1 "A" 60 3)) = preCountdown
  ∧ preRoundCountdown (playerHolding 1 (createRoom 1 "A" 60 3)) = 5.
Proof.
  assert (effectiveHold 1 (createRoom 1 "A" 60 3) 0) as Heff.
  { repeat split. exists (mkPlayer 1 "A" 60 0 false false 0 false).
    repeat split. }
  assert (armed (pressed 0 (createRoom 1 "A" 60 3))) as Harm.
  { by apply shouldStartCountdown_armed. }
  destruct (C3_arming (createRoom 1 "A" 60 3) 1 (or_introl eq_refl) eq_refl)
    as (H & _).
  destruct (H 0%nat Heff) as (Hstart & _).
  destruct (Hstart Harm) as (H1 & H2 & _). by split.
Defined.

(** ** C8: a player leaves during an active phase *)

(** [game.players.filter(p => p.id !== socket.id)] *)
Definition remaining (s : SocketId) (w : World) : list Ref :=
  List.filter (λ r, negb (holds (has_id s) (heap w) r)) (players w).

Lemma disconnect_leaveRoom s w : disconnect s w = leaveRoom s w.
Proof. reflexivity. Qed.

Lemma leaveRoom_unfold s w :
  is_attached s w = true → registered w = true →
  leaveRoom s w
  = if Nat.eqb (length (remaining s w)) 0 then
      set_registered false
        (clearGameIntervals (detach s (set_players (remaining s w) w)))
    else afterRemoval (find_player s w)
           (detach s (set_players (remaining s w) w)).
Proof. intros Hatt Hreg. unfold leaveRoom. by rewrite Hatt, Hreg. Qed.

Lemma is_active_phase_iff st :
  is_active_phase st = true ↔ st = preCountdown ∨ st = inRound.
Proof. destruct st; simpl; split; try done; auto; intros [H|H]; done. Qed.

(** C8, as stated, fails when the removal empties the room: in
    [soloCountdown] the phase is [preCountdown] and the only player leaves;
    no non-eliminated player remains, yet the phase is not [gameOver] and no
    game-over event is sent: the room is dropped from the registry. *)
Lemma C8_counterexample :
  reachable soloCountdown
  ∧ status soloCountdown = preCountdown
  ∧ is_attached 1 soloCountdown = true
  ∧ alivePlayers (step (LeaveRoom 1) soloCountdown) = []
  ∧ status (step (LeaveRoom 1) soloCountdown) ≠ gameOver
  ∧ out (step (LeaveRoom 1) soloCountdown) = out soloCountdown
  ∧ registered (step (LeaveRoom 1) soloCountdown) = false.
Proof.
  split; [apply reachable_run, reach_create|].
  by vm_compute.
Qed.

(** C8, amended.  Let a leave or a disconnect remove the caller's records
    while the phase is [preCountdown] or [inRound].  If at least one player
    record remains and fewer than two of the remaining players are
    non-eliminated, the game is over at once with the insufficient-players
    reason: both timers are cancelled, and no round resolution runs (no
    player record changes, no winner announcement, no next round scheduled).
    If no record remains, the room is removed from the registry instead,
    without any game-over. *)
Theorem C8_leave_during_active_phase (w : World) (s : SocketId) :
  is_attached s w = true → registered w = true →
  status w = preCountdown ∨ status w = inRound →
  ∀ w', w' = leaveRoom s w ∨ w' = disconnect s w →
  (remaining s w ≠ [] →
   (length (alivePlayers (set_players (remaining s w) w)) < 2)%nat →
     status w' = gameOver
     ∧ players w' = remaining s w
     ∧ heap w' = heap w
     ∧ preRoundIntervalId w' = None ∧ roundTimerIntervalId w' = None
     ∧ timeouts w' = timeouts w
     ∧ activePlayersInRound w' = activePlayersInRound w
     ∧ out w' = out w ++
         [EmGameOver ToRoom (Some InsufficientPlayers)
            (deref (heap w) (remaining s w))
            (Some (finalWinnerOf
                     (List.filter alive (deref (heap w) (remaining s w)))));
          EmPlayerStatusUpdate (deref (heap w) (remaining s w))
            (currentRound w) (maxRounds w) gameOver])
  ∧ (remaining s w = [] →
     registered w' = false ∧ status w' = status w ∧ out w' = out w
     ∧ heap w' = heap w
     ∧ preRoundIntervalId w' = None ∧ roundTimerIntervalId w' = None).
Proof.
  intros Hatt Hreg Hst w' Hw'.
  assert (w' = leaveRoom s w) as -> by (by destruct Hw' as [->| ->]).
  clear Hw'. rewrite leaveRoom_unfold by done.
  set (w1 := detach s (set_players (remaining s w) w)).
  split.
  - intros Hne Hlt.
    destruct (Nat.eqb_spec (length (remaining s w)) 0) as [H0|_].
    { by destruct (remaining s w). }
    unfold afterRemoval.
    apply is_active_phase_iff in Hst.
    replace (status w1) with (status w) by done. rewrite Hst.
    replace (alivePlayers w1)
      with (alivePlayers (set_players (remaining s w) w)) by done.
    apply Nat.ltb_lt in Hlt. rewrite Hlt. simpl.
    assert (registered w1 = true) as Hreg1 by done.
    pose proof (gameEnded_status InsufficientPlayers w1 Hreg1) as Hs.
    pose proof (gameEnded_out InsufficientPlayers w1 Hreg1) as Ho.
    destruct (gameEnded_timers InsufficientPlayers w1 Hreg1) as [Ht1 Ht2].
    destruct (gameEnded_frame InsufficientPlayers w1 _ eq_refl)
      as (Hh & Hp & Hr & Hc & Hm & Ha & Hto & _).
    unfold broadcastPlayerStatusUpdate. rewrite Hr, Hreg1. simpl.
    rewrite Hs, Ho, Ht1, Ht2, Hh, Hp, Hc, Hm, Ha, Hto. simpl.
    rewrite <- app_assoc. by repeat split.
  - intros Hnil. rewrite Hnil. simpl.
    destruct (clearGameIntervals_frame w1 _ eq_refl)
      as (Hh & Hp & Hs & Hr & Ho & _ & _ & _ & _ & _ & _ & _ & _ & H1 & H2).
    by rewrite Hs, Ho, Hh, H1, H2.
Qed.

Lemma C8_leave_during_active_phase_witness :
  let w := run ([JoinRoom 2 "B"; PlayerHolding 1; PlayerHolding 2])
             (createRoom 1 "A" 60 3) in
  status w = preCountdown ∧ status (disconnect 2 w) = gameOver.
Proof.
  split; [reflexivity|].
  set (w := run _ _).
  destruct (C8_leave_during_active_phase w 2 eq_refl eq_refl
              (or_introl eq_refl) (disconnect 2 w) (or_intror eq_refl))
    as (H & _).
  refine (proj1 (H _ _)).
  - intros E. vm_compute in E. discriminate E.
  - vm_compute. lia.
Defined.

(** ** C9: the final ranking *)

Section SortFacts.
Context {A : Type} (cmp : A → A → Z).

Lemma insert_sorted_In a x l :
  In x (insert_sorted cmp a l) ↔ x = a ∨ In x l.
Proof.
  induction l as [|b l IH]; simpl; [naive_solver|].
  destruct (cmp a b <=? 0); simpl; [naive_solver|].
  rewrite IH. naive_solver.
Qed.

Lemma sort_In x l : In x (sort cmp l) ↔ In x l.
Proof.
  induction l as [|a l IH]; simpl; [done|].
  rewrite insert_sorted_In, IH. naive_solver.
Qed.

(** Stability, in the form needed here: members of a class of mutually
    equal elements keep their relative order. *)
Lemma filter_insert_sorted (P : A → bool) a l :
  (∀ b, P a = true → P b = true → cmp a b ≤ 0) →
  List.filter P (insert_sorted cmp a l) = List.filter P (a :: l).
Proof.
  intros Hcls. induction l as [|b l IH]; [done|]. simpl.
  destruct (Z.leb_spec (cmp a b) 0) as [Hle|Hgt]; [done|].
  simpl. rewrite IH. simpl.
  destruct (P a) eqn:Ha, (P b) eqn:Hb; try done.
  specialize (Hcls b eq_refl Hb). lia.
Qed.

Lemma filter_sort (P : A → bool) l :
  (∀ a b, P a = true → P b = true → cmp a b ≤ 0) →
  List.filter P (sort cmp l) = List.filter P l.
Proof.
  intros Hcls. induction l as [|a l IH]; [done|]. simpl.
  rewrite filter_insert_sorted by (intros; by apply Hcls).
  simpl. by rewrite IH.
Qed.

Hypothesis cmp_total : ∀ a b, 0 < cmp a b → cmp b a ≤ 0.
Hypothesis cmp_trans : ∀ a b c, cmp a b ≤ 0 → cmp b c ≤ 0 → cmp a c ≤ 0.
Hypothesis cmp_refl : ∀ a, cmp a a ≤ 0.

(** The first element of the sorted array ranks before every element. *)
Lemma sort_head l top rest :
  sort cmp l = top :: rest → ∀ x, In x l → cmp top x ≤ 0.
Proof.
  revert top rest. induction l as [|a l IH]; intros top rest Hs x Hx; [done|].
  simpl in Hs. destruct (sort cmp l) as [|b sl] eqn:Hsl.
  - simpl in Hs. injection Hs as <- <-.
    destruct Hx as [<-|Hx]; [done|].
    apply (sort_In x) in Hx. by rewrite Hsl in Hx.
  - simpl in Hs. destruct (Z.leb_spec (cmp a b) 0) as [Hle|Hgt].
    + injection Hs as <- <-. destruct Hx as [<-|Hx]; [done|].
      eapply cmp_trans; [exact Hle|]. by eapply IH.
    + injection Hs as <- <-. destruct Hx as [<-|Hx].
      * by apply cmp_total.
      * by eapply IH.
Qed.
End SortFacts.

(** [a] ranks no lower than [b]: more tokens, or as many and no less time. *)
Definition ranksBefore (a b : Player) : Prop :=
  tokens b < tokens a ∨ (tokens b = tokens a ∧ time b ≤ time a).

Lemma compareFinal_ranksBefore a b : compareFinal a b ≤ 0 ↔ ranksBefore a b.
Proof.
  unfold compareFinal, ranksBefore.
  destruct (Z.eqb_spec (tokens b) (tokens a)); simpl; lia.
Qed.

Lemma same_score_iff top p :
  same_score top p = true ↔ tokens p = tokens top ∧ time p = time top.
Proof. unfold same_score. rewrite andb_true_iff, !Z.eqb_eq. done. Qed.

Lemma finalWinnerOf_spec (alivePs : list Player) :
  (alivePs = [] → finalWinnerOf alivePs = FWNobody)
  ∧ (alivePs ≠ [] →
     ∃ top, In top alivePs
       ∧ (∀ p, In p alivePs → ranksBefore top p)
       ∧ finalWinnerOf alivePs
         = if (1 <? length (List.filter (same_score top) alivePs))%nat
           then FWTie (info_of <$> List.filter (same_score top) alivePs)
           else FWSingle (info_of top)).
Proof.
  split; [by intros ->|]. intros Hne. unfold finalWinnerOf.
  destruct alivePs as [|a l]; [done|].
  replace (0 <? length (a :: l))%nat with true by done.
  destruct (sort compareFinal (a :: l)) as [|top rest] eqn:Hs.
  { exfalso. assert (In a (sort compareFinal (a :: l))) as Hin.
    { apply sort_In. by left. }
    by rewrite Hs in Hin. }
  exists top. split.
  { apply (sort_In compareFinal). rewrite Hs. by left. }
  split.
  - intros p Hp. apply compareFinal_ranksBefore.
    eapply (sort_head compareFinal); [| | |exact Hs|exact Hp].
    + intros x y. rewrite compareFinal_ranksBefore.
      unfold compareFinal, ranksBefore.
      destruct (Z.eqb_spec (tokens y) (tokens x)); simpl; lia.
    + intros x y z. rewrite !compareFinal_ranksBefore.
      unfold ranksBefore. lia.
    + intros x. rewrite compareFinal_ranksBefore. unfold ranksBefore. lia.
  - rewrite <- Hs.
    rewrite (filter_sort compareFinal (same_score top)); [done|].
    intros x y Hx Hy. apply same_score_iff in Hx, Hy.
    apply compareFinal_ranksBefore. unfold ranksBefore. lia.
Qed.

(** C9.  [gameEnded], for any reason, on a room in the registry: the phase is
    [gameOver], both timers are cancelled and one game-over event is
    broadcast, carrying the reason, the records of all players (eliminated
    ones included) and the final winner.  Among the non-eliminated players
    the top one has the most tokens and, among those, the most time.  The
    tied set is the list of the non-eliminated players, in room order, that
    have the top player's tokens and time: if it has more than one member
    the whole set is reported as a tie, otherwise the top player is the
    single winner.  In particular a top player whose score no other
    non-eliminated player shares is the single winner. *)
Theorem C9_gameEnded (w : World) (reason : Reason) :
  registered w = true →
  let allPlayers := deref (heap w) (players w) in
  let alivePs := List.filter alive allPlayers in
  let w' := gameEnded reason w in
  status w' = gameOver
  ∧ preRoundIntervalId w' = None ∧ roundTimerIntervalId w' = None
  ∧ ∃ finalWinner,
      out w' = out w ++ [EmGameOver ToRoom (Some reason) allPlayers
                           (Some finalWinner)]
      ∧ (alivePs = [] → finalWinner = FWNobody)
      ∧ (alivePs ≠ [] →
         ∃ top, In top alivePs
           ∧ (∀ p, In p alivePs →
                tokens p < tokens top
                ∨ (tokens p = tokens top ∧ time p ≤ time top))
           ∧ let tied :=
               List.filter
                 (λ p, (tokens p =? tokens top) && (time p =? time top))
                 alivePs in
             (∀ p, In p tied ↔
                   In p alivePs ∧ tokens p = tokens top ∧ time p = time top)
             ∧ ((1 < length tied)%nat →
                  finalWinner = FWTie (info_of <$> tied))
             ∧ ((length tied ≤ 1)%nat →
                  finalWinner = FWSingle (info_of top))
             ∧ (tied = [top] → finalWinner = FWSingle (info_of top))).
Proof.
  intros Hreg allPlayers alivePs w'. subst w'.
  split; [by apply gameEnded_status|].
  destruct (gameEnded_timers reason w Hreg) as [-> ->].
  split; [done|]. split; [done|].
  exists (finalWinnerOf alivePs). split; [by apply gameEnded_out|].
  destruct (finalWinnerOf_spec alivePs) as [Hnil Hne].
  split; [done|]. intros Hn.
  destruct (Hne Hn) as (top & Hin & Hmax & Hfw).
  exists top. split; [done|]. split; [exact Hmax|].
  change (λ p, (tokens p =? tokens top) && (time p =? time top))
    with (same_score top).
  cbv zeta. split_and!.
  - intros p. by rewrite filter_In, same_score_iff.
  - intros Hlt. apply Nat.ltb_lt in Hlt. by rewrite Hfw, Hlt.
  - intros Hle. apply Nat.ltb_ge in Hle. by rewrite Hfw, Hle.
  - intros Hone. by rewrite Hfw, Hone.
Qed.

Lemma C9_gameEnded_witness :
  status (gameEnded RoundsExhausted (run scenarioB (createRoom 1 "A" 60 3)))
  = gameOver.
Proof.
  exact (proj1 (C9_gameEnded (run scenarioB (createRoom 1 "A" 60 3))
                  RoundsExhausted eq_refl)).
Defined.

(** ** C2: resolving a round *)

Definition eligibleb (h : list Player) (r : Ref) : bool :=
  holds (λ p, negb (isEliminated p) && negb (hasOptedOut p)) h r.

Definition heldFor (h : list Player) (d : Z) (r : Ref) : bool :=
  holds (λ p, roundHoldDuration p =? d) h r.

Definition topHolder (h : list Player) (d : Z) (r : Ref) : bool :=
  eligibleb h r && heldFor h d r.

(** The loop invariant of the scan over a prefix of [activePlayersInRound]. *)
Definition scanned (h : list Player) (seen : list Ref) (acc : Z * list Ref)
  : Prop :=
  0 ≤ acc.1
  ∧ acc.2 = List.filter (topHolder h acc.1) seen
  ∧ (∀ r p, In r seen → eligibleb h r = true → h !! r = Some p →
       roundHoldDuration p ≤ acc.1)
  ∧ (acc.1 = 0 ∨ ∃ r, In r seen ∧ topHolder h acc.1 r = true).

Lemma filter_none {A} (P : A → bool) l :
  (∀ x, In x l → P x = false) → List.filter P l = [].
Proof.
  induction l as [|a l IH]; intros H; [done|]. simpl.
  rewrite (H a) by (by left). apply IH. intros x Hx. apply H. by right.
Qed.

Lemma scanStep_scanned h seen acc r :
  scanned h seen acc → scanned h (seen ++ [r]) (scanStep h acc r).
Proof.
  intros (Hnn & Hws & Hmax & Hatt). unfold scanStep, scanned.
  assert (∀ d, List.filter (topHolder h d) (seen ++ [r])
               = List.filter (topHolder h d) seen
                 ++ (if topHolder h d r then [r] else [])) as Hfa.
  { intros d. rewrite filter_app. simpl. by destruct (topHolder h d r). }
  assert (∀ P : nat → Prop, (∀ x, In x (seen ++ [r]) → P x)
                            ↔ (∀ x, In x seen → P x) ∧ P r) as Hall.
  { intros P. setoid_rewrite in_app_iff. simpl. naive_solver. }
  destruct (h !! r) as [p|] eqn:Hp.
  2:{ assert (topHolder h acc.1 r = false) as Hno.
      { unfold topHolder, eligibleb, holds. by rewrite Hp. }
      split; [done|]. split; [by rewrite Hfa, Hno, app_nil_r|]. split.
      - intros r' p' [Hin|[<-|[]]]%in_app_iff He Hp'; [by eapply Hmax|congruence].
      - destruct Hatt as [?|(r' & Hin & Ht)]; [by left|].
        right. exists r'. split; [apply in_app_iff; by left|done]. }
  destruct (negb (isEliminated p) && negb (hasOptedOut p)) eqn:Hel.
  2:{ assert (eligibleb h r = false) as Hno.
      { unfold eligibleb, holds. by rewrite Hp. }
      split; [done|]. split.
      { rewrite Hfa. unfold topHolder at 2. rewrite Hno. simpl.
        by rewrite app_nil_r. }
      split.
      - intros r' p' [Hin|[<-|[]]]%in_app_iff He Hp'; [by eapply Hmax|congruence].
      - destruct Hatt as [?|(r' & Hin & Ht)]; [by left|].
        right. exists r'. split; [apply in_app_iff; by left|done]. }
  assert (eligibleb h r = true) as Hyes.
  { unfold eligibleb, holds. by rewrite Hp. }
  destruct (Z.ltb_spec acc.1 (roundHoldDuration p)) as [Hlt|Hge]; simpl.
  - split; [lia|]. split; [|split].
    + rewrite Hfa.
      rewrite filter_none.
      * unfold topHolder, heldFor, holds. rewrite Hyes, Hp. simpl.
        by rewrite Z.eqb_refl.
      * intros x Hx. unfold topHolder.
        destruct (eligibleb h x) eqn:Hex; [|done]. simpl.
        unfold heldFor, holds. destruct (h !! x) as [q|] eqn:Hq; [|done].
        apply Z.eqb_neq. specialize (Hmax x q Hx Hex Hq). lia.
    + intros r' p' [Hin|[<-|[]]]%in_app_iff He Hp'.
      * specialize (Hmax r' p' Hin He Hp'). lia.
      * assert (p' = p) as -> by congruence. lia.
    + right. exists r. split; [apply in_app_iff; right; by left|].
      unfold topHolder, heldFor, holds. rewrite Hyes, Hp. simpl.
      by rewrite Z.eqb_refl.
  - destruct (Z.eqb_spec (roundHoldDuration p) acc.1) as [Heq|Hne]; simpl.
    + split; [done|]. split; [|split].
      * rewrite Hfa, Hws. unfold topHolder at 3, heldFor, holds.
        rewrite Hyes, Hp. simpl. by rewrite Heq, Z.eqb_refl.
      * intros r' p' [Hin|[<-|[]]]%in_app_iff He Hp'; [by eapply Hmax|].
        assert (p' = p) as -> by congruence. lia.
      * right. exists r. split; [apply in_app_iff; right; by left|].
        unfold topHolder, heldFor, holds. rewrite Hyes, Hp. simpl.
        by rewrite Heq, Z.eqb_refl.
    + split; [done|]. split; [|split].
      * rewrite Hfa, Hws. unfold topHolder at 3, heldFor, holds.
        rewrite Hyes, Hp. simpl.
        apply Z.eqb_neq in Hne. by rewrite Hne, app_nil_r.
      * intros r' p' [Hin|[<-|[]]]%in_app_iff He Hp'; [by eapply Hmax|].
        assert (p' = p) as -> by congruence. lia.
      * destruct Hatt as [?|(r' & Hin & Ht)]; [by left|].
        right. exists r'. split; [apply in_app_iff; by left|done].
Qed.

Lemma scanWinners_scanned h active : scanned h active (scanWinners h active).
Proof.
  unfold scanWinners.
  assert (∀ l seen acc, scanned h seen acc →
            scanned h (seen ++ l) (foldl (scanStep h) acc l)) as Hgen.
  { induction l as [|r l IH]; intros seen acc Hacc; simpl.
    - by rewrite app_nil_r.
    - replace (seen ++ r :: l) with ((seen ++ [r]) ++ l)
        by (by rewrite <- app_assoc).
      apply IH. by apply scanStep_scanned. }
  apply (Hgen active [] (0, [])). repeat split; simpl; [done|done|by left].
Qed.

(** The members of [activePlayersInRound] that count at resolution time. *)
Definition eligible (w : World) (r : Ref) : Prop :=
  In r (activePlayersInRound w)
  ∧ ∃ p, heap w !! r = Some p ∧ isEliminated p = false ∧ hasOptedOut p = false.

Lemma eligibleb_iff h r :
  eligibleb h r = true
  ↔ ∃ p, h !! r = Some p ∧ isEliminated p = false ∧ hasOptedOut p = false.
Proof.
  unfold eligibleb. rewrite holds_Some.
  split; intros (p & Hp & H); exists p; (split; [done|]);
    destruct (isEliminated p), (hasOptedOut p); naive_solver.
Qed.

Lemma heldFor_iff h d r :
  heldFor h d r = true ↔ ∃ p, h !! r = Some p ∧ roundHoldDuration p = d.
Proof.
  unfold heldFor. rewrite holds_Some. by setoid_rewrite Z.eqb_eq.
Qed.

(** What resolution does to the player objects. *)
Definition resolvedHeap (w : World) : list Player :=
  let maxHoldDuration := (scanWinners (heap w) (activePlayersInRound w)).1 in
  let winningPlayers := (scanWinners (heap w) (activePlayersInRound w)).2 in
  forEach resetAfterRound (players w)
    (if (maxHoldDuration =? 0) || Nat.eqb (length winningPlayers) 0
     then heap w
     else forEach (award maxHoldDuration) winningPlayers (heap w)).

Lemma endRoundOnServer_unfold w :
  registered w = true →
  let maxHoldDuration := (scanWinners (heap w) (activePlayersInRound w)).1 in
  let winningPlayers := (scanWinners (heap w) (activePlayersInRound w)).2 in
  heap (endRoundOnServer w) = resolvedHeap w
  ∧ status (endRoundOnServer w) = roundEnded
  ∧ players (endRoundOnServer w) = players w
  ∧ activePlayersInRound (endRoundOnServer w) = activePlayersInRound w
  ∧ timeouts (endRoundOnServer w) = S (timeouts w)
  ∧ preRoundIntervalId (endRoundOnServer w) = preRoundIntervalId w
  ∧ roundTimerIntervalId (endRoundOnServer w) = roundTimerIntervalId w
  ∧ intervals (endRoundOnServer w) = intervals w
  ∧ registered (endRoundOnServer w) = true
  ∧ ∃ announced,
      out (endRoundOnServer w)
      = out w ++ [EmRoundWinnerAnnounced announced maxHoldDuration
                    (1 <? length winningPlayers)%nat;
                  EmPlayerStatusUpdate
                    (deref (resolvedHeap w) (players w))
                    (currentRound w) (maxRounds w) roundEnded].
Proof.
  intros Hreg. unfold endRoundOnServer, resolvedHeap. rewrite Hreg. simpl.
  set (m := (scanWinners (heap w) (activePlayersInRound w)).1).
  set (ws := (scanWinners (heap w) (activePlayersInRound w)).2).
  unfold broadcastPlayerStatusUpdate.
  destruct ((m =? 0) || Nat.eqb (length ws) 0) eqn:Hc; simpl;
    rewrite ?Hreg; simpl.
  - repeat split; try done. eexists. by rewrite <- app_assoc.
  - destruct ws as [|r1 [|r2 ws]]; simpl; rewrite ?Hreg; simpl;
      (repeat split; try done; eexists; by rewrite <- app_assoc).
Qed.

(** C2.  [endRoundOnServer] on a room in the registry whose active list has
    no repetition and holds no negative duration.  Let the eligible players
    be the members of [activePlayersInRound] that are neither opted out nor
    eliminated.  The winner list consists exactly of the eligible players
    whose [roundHoldDuration] equals [maxD], the maximum over the eligible
    players (0 when there is none).  If [maxD] is 0 nobody's tokens or time
    change; otherwise every member of the winner list, ties included, gets
    [tokens + 1] and [time - maxD], and every other player keeps tokens and
    time.  The phase becomes [roundEnded]. *)
Theorem C2_endRoundOnServer (w : World) :
  registered w = true →
  List.NoDup (activePlayersInRound w) →
  (∀ r p, In r (activePlayersInRound w) → heap w !! r = Some p →
     0 ≤ roundHoldDuration p) →
  let w' := endRoundOnServer w in
  ∃ (maxD : Z) (winners : list Ref),
    (∀ r, In r winners ↔
          eligible w r ∧ ∃ p, heap w !! r = Some p ∧ roundHoldDuration p = maxD)
    ∧ (∀ r p, eligible w r → heap w !! r = Some p → roundHoldDuration p ≤ maxD)
    ∧ ((∃ r, eligible w r) → ∃ r, In r winners)
    ∧ ((¬ ∃ r, eligible w r) → maxD = 0)
    ∧ status w' = roundEnded
    ∧ (∃ announced more,
         out w' = out w ++ EmRoundWinnerAnnounced announced maxD
                             (1 <? length winners)%nat :: more)
    ∧ (maxD = 0 →
       ∀ r p, heap w !! r = Some p →
         ∃ p', heap w' !! r = Some p' ∧ tokens p' = tokens p ∧ time p' = time p)
    ∧ (maxD ≠ 0 →
       ∀ r p, heap w !! r = Some p →
         ∃ p', heap w' !! r = Some p'
           ∧ (In r winners →
                tokens p' = tokens p + 1 ∧ time p' = time p - maxD)
           ∧ (¬ In r winners → tokens p' = tokens p ∧ time p' = time p)).
Proof.
  intros Hreg Hnd Hnn w'. subst w'.
  destruct (endRoundOnServer_unfold w Hreg)
    as (Hheap & Hst & _ & _ & _ & _ & _ & _ & _ & ann & Hout).
  destruct (scanWinners_scanned (heap w) (activePlayersInRound w))
    as (Hm0 & Hws & Hmax & Hatt).
  set (m := (scanWinners (heap w) (activePlayersInRound w)).1) in *.
  set (ws := (scanWinners (heap w) (activePlayersInRound w)).2) in *.
  assert (∀ r, In r ws ↔
            eligible w r ∧ ∃ p, heap w !! r = Some p ∧ roundHoldDuration p = m)
    as Hin.
  { intros r. rewrite Hws, filter_In. unfold topHolder, eligible.
    rewrite andb_true_iff, eligibleb_iff, heldFor_iff. naive_solver. }
  assert (List.NoDup ws) as Hndw by (rewrite Hws; by apply NoDup_filter).
  assert (∀ r p, heap w !! r = Some p →
            ∃ p', resolvedHeap w !! r = Some p' ∧
              ∃ q, (if (m =? 0) || Nat.eqb (length ws) 0 then heap w
                    else forEach (award m) ws (heap w)) !! r = Some q
                   ∧ tokens p' = tokens q ∧ time p' = time q) as Hres.
  { intros r p Hp. unfold resolvedHeap. fold m ws.
    set (h1 := if (m =? 0) || Nat.eqb (length ws) 0 then heap w
               else forEach (award m) ws (heap w)).
    assert (∃ q, h1 !! r = Some q) as [q Hq].
    { subst h1. destruct (_ || _); [by exists p|].
      destruct (forEach_rel (award m) (λ _ _, True) ws (heap w) r p)
        as (q & Hq & _); try done. by exists q. }
    destruct (forEach_rel resetAfterRound
                (λ a b, tokens b = tokens a ∧ time b = time a)
                (players w) h1 r q) as (p' & Hp' & Ht & Hti); try done.
    { intros a b c [? ?] [? ?]. split; congruence. }
    exists p'. split; [done|]. by exists q. }
  exists m, ws. split; [exact Hin|]. split.
  { intros r p [Hr He] Hp. eapply Hmax; [done| |done]. by apply eligibleb_iff. }
  split.
  { intros [r [Hr (p & Hp & He)]].
    destruct Hatt as [H0|(r' & Hr' & Ht)].
    - exists r. apply Hin. split; [by split; [|exists p]|].
      exists p. split; [done|].
      assert (roundHoldDuration p ≤ m).
      { eapply Hmax; [done| |done]. apply eligibleb_iff. by exists p. }
      specialize (Hnn r p Hr Hp). lia.
    - exists r'. rewrite Hws, filter_In. done. }
  split.
  { intros Hno. destruct Hatt as [H0|(r' & Hr' & Ht)]; [done|].
    exfalso. apply Hno. exists r'. split; [done|].
    apply andb_true_iff in Ht as [Ht _]. by apply eligibleb_iff. }
  split; [done|]. split; [by eexists _, _|]. split.
  - intros H0 r p Hp. destruct (Hres r p Hp) as (p' & Hp' & q & Hq & Ht & Hti).
    rewrite Hheap. exists p'. split; [done|].
    rewrite H0 in Hq. simpl in Hq. by assert (q = p) as -> by congruence.
  - intros Hne r p Hp. destruct (Hres r p Hp) as (p' & Hp' & q & Hq & Ht & Hti).
    rewrite Hheap. exists p'. split; [done|].
    apply Z.eqb_neq in Hne as Hne'. rewrite Hne' in Hq. simpl in Hq.
    destruct (Nat.eqb_spec (length ws) 0) as [Hl|Hl].
    + destruct ws; [|done]. split; [done|]. intros _.
      by assert (q = p) as -> by congruence.
    + split.
      * intros Hr. rewrite lookup_forEach_in, Hp in Hq by done.
        simpl in Hq. injection Hq as <-. by rewrite Ht, Hti.
      * intros Hr. rewrite lookup_forEach_notin, Hp in Hq by done.
        injection Hq as <-. done.
Qed.

(** Scenario B at the moment of resolution: B has just let go after 7
    ticks, A had let go after 4; [checkAllReleasedOnServer] has cancelled the
    timers and calls [endRoundOnServer] on this state. *)
Definition scenarioB_resolving : World :=
  let w := run (removelast scenarioB) (createRoom 1 "A" 60 3) in
  clearGameIntervals
    (broadcastPlayerStatusUpdate
       (set_heap (alter (set_isHoldingButton false) 1%nat (heap w)) w)).

Example scenarioB_resolution :
  run scenarioB (createRoom 1 "A" 60 3) = endRoundOnServer scenarioB_resolving
  ∧ deref (heap scenarioB_resolving) (activePlayersInRound scenarioB_resolving)
    = [mkPlayer 1 "A" 60 0 false false 4 false;
       mkPlayer 2 "B" 60 0 false false 7 false]
  ∧ heap (endRoundOnServer scenarioB_resolving)
    = [mkPlayer 1 "A" 60 0 false false 4 false;
       mkPlayer 2 "B" 53 1 false false 7 false]
  ∧ In (EmRoundWinnerAnnounced [(2%nat, "B")] 7 false)
      (out (endRoundOnServer scenarioB_resolving)).
Proof.
  split; [by vm_compute|]. split; [by vm_compute|]. split; [by vm_compute|].
  vm_compute. repeat (first [left; reflexivity | right]).
Qed.

Lemma C2_endRoundOnServer_witness :
  status (endRoundOnServer scenarioB_resolving) = roundEnded.
Proof.
  destruct (C2_endRoundOnServer scenarioB_resolving) as (m & ws & H).
  - reflexivity.
  - change (List.NoDup [0%nat; 1%nat]).
    constructor; [simpl; intros [H|[]]; discriminate|].
    constructor; [simpl; intros []|constructor].
  - intros r p Hin Hp.
    change (In r [0%nat; 1%nat]) in Hin.
    change (heap scenarioB_resolving)
      with [mkPlayer 1 "A" 60 0 false false 4 false;
            mkPlayer 2 "B" 60 0 false false 7 false] in Hp.
    destruct Hin as [<-|[<-|[]]]; simpl in Hp; injection Hp as <-; simpl; lia.
  - exact (proj1 (proj2 (proj2 (proj2 (proj2 H))))).
Defined.

Lemma C4_startNewRound_witness :
  currentRound (startNewRound (run scenarioB (createRoom 1 "A" 60 3))) = 2
  ∧ status (startNewRound (run scenarioB (createRoom 1 "A" 60 3))) = waiting.
Proof.
  destruct (C4_startNewRound (run scenarioB (createRoom 1 "A" 60 3)) eq_refl)
    as (_ & _ & H).
  destruct H as (H1 & H2 & _).
  - intros [Hlen _]. vm_compute in Hlen. lia.
  - reflexivity.
  - split; [exact H1|exact H2].
Defined.

(** ** What every event does to a player object *)

(** [heapRel R h h']: every object of [h] is still there in [h'], related to
    its former self by [R]. *)
Definition heapRel (R : Player → Player → Prop) (h h' : list Player) : Prop :=
  ∀ r p, h !! r = Some p → ∃ p', h' !! r = Some p' ∧ R p p'.

Section HeapRel.
Context (R : Player → Player → Prop).
Hypothesis R_refl : ∀ p, R p p.
Hypothesis R_trans : ∀ a b c, R a b → R b c → R a c.

Lemma heapRel_refl h : heapRel R h h.
Proof. intros r p Hp. by exists p. Qed.

Lemma heapRel_trans h1 h2 h3 :
  heapRel R h1 h2 → heapRel R h2 h3 → heapRel R h1 h3.
Proof.
  intros H12 H23 r p Hp. destruct (H12 r p Hp) as (q & Hq & Hpq).
  destruct (H23 r q Hq) as (q' & Hq' & Hqq'). exists q'. split; [done|].
  by eapply R_trans.
Qed.

Lemma heapRel_forEach f refs h :
  (∀ p, R p (f p)) → heapRel R h (forEach f refs h).
Proof. intros Hf r p Hp. by apply forEach_rel. Qed.

Lemma heapRel_alter f r h : (∀ p, R p (f p)) → heapRel R h (alter f r h).
Proof. intros Hf. apply (heapRel_forEach f [r] h Hf). Qed.

Lemma heapRel_app h l : heapRel R h (h ++ l).
Proof.
  intros r p Hp. exists p. split; [|done]. by apply lookup_app_l_Some.
Qed.

Lemma heapRel_onlyEmits w w' : onlyEmits w w' → heapRel R (heap w) (heap w').
Proof. intros [m ->]. apply heapRel_refl. Qed.

Hypothesis R_hold : ∀ b p, R p (set_isHoldingButton b p).
Hypothesis R_optOut : ∀ p, R p (set_hasOptedOut true p).
Hypothesis R_resetForNewRound : ∀ p, R p (resetForNewRound p).
Hypothesis R_resetForCountdown : ∀ p, R p (resetForCountdown p).
Hypothesis R_preRoundEndPlayer : ∀ p, R p (preRoundEndPlayer p).
Hypothesis R_tickPlayer : ∀ p, R p (tickPlayer p).1.
Hypothesis R_award : ∀ m p, R p (award m p).
Hypothesis R_resetAfterRound : ∀ p, R p (resetAfterRound p).

Lemma heapRel_gameEnded reason w : heapRel R (heap w) (heap (gameEnded reason w)).
Proof.
  destruct (gameEnded_frame reason w _ eq_refl) as (-> & _).
  apply heapRel_refl.
Qed.

Lemma heapRel_startNewRound w : heapRel R (heap w) (heap (startNewRound w)).
Proof.
  unfold startNewRound.
  destruct (registered w) eqn:Hreg; simpl; [|apply heapRel_refl].
  destruct (_ && _); [apply heapRel_gameEnded|].
  destruct (_ <=? _); [apply heapRel_gameEnded|].
  destruct (announceRound_onlyEmits (prepareRound w)) as [m ->].
  simpl. by apply heapRel_forEach.
Qed.

Lemma heapRel_startPreRoundCountdown w :
  heapRel R (heap w) (heap (startPreRoundCountdown w)).
Proof.
  unfold startPreRoundCountdown.
  destruct (_ || _ || _); [apply heapRel_refl|].
  destruct (negb _); [apply heapRel_refl|].
  unfold broadcastPlayerStatusUpdate; simpl.
  destruct (registered w); simpl; by apply heapRel_forEach.
Qed.

Lemma heapRel_resolvedHeap w : heapRel R (heap w) (resolvedHeap w).
Proof.
  unfold resolvedHeap.
  eapply heapRel_trans; [|by apply heapRel_forEach].
  destruct (_ || _); [apply heapRel_refl|by apply heapRel_forEach].
Qed.

Lemma heapRel_endRoundOnServer w :
  heapRel R (heap w) (heap (endRoundOnServer w)).
Proof.
  destruct (registered w) eqn:Hreg.
  - destruct (endRoundOnServer_unfold w Hreg) as (-> & _).
    apply heapRel_resolvedHeap.
  - unfold endRoundOnServer. rewrite Hreg. apply heapRel_refl.
Qed.

Lemma heapRel_checkAllReleasedOnServer w :
  heapRel R (heap w) (heap (checkAllReleasedOnServer w)).
Proof.
  unfold checkAllReleasedOnServer.
  destruct (_ || _); [apply heapRel_refl|].
  destruct (forallb _ _); [|apply heapRel_refl].
  eapply heapRel_trans; [|apply heapRel_endRoundOnServer].
  destruct (clearGameIntervals_frame w _ eq_refl) as (-> & _).
  apply heapRel_refl.
Qed.

Lemma heapRel_roundTick w : heapRel R (heap w) (heap (roundTick w)).
Proof.
  unfold roundTick.
  eapply heapRel_trans; [|apply heapRel_checkAllReleasedOnServer].
  simpl. rewrite forEachFlag_fst.
  destruct (forEachFlag tickPlayer (players w) (heap w)).2; simpl;
    [unfold broadcastPlayerStatusUpdate; simpl; destruct (registered w); simpl|];
    by apply heapRel_forEach.
Qed.

Lemma heapRel_handlePreRoundEndOnServer w :
  heapRel R (heap w) (heap (handlePreRoundEndOnServer w)).
Proof.
  unfold handlePreRoundEndOnServer.
  destruct (registered w); simpl; [|apply heapRel_refl].
  destruct (_ <? _)%nat; simpl; by apply heapRel_forEach.
Qed.

Lemma heapRel_countdownTick w : heapRel R (heap w) (heap (countdownTick w)).
Proof.
  unfold countdownTick. simpl.
  destruct (_ <=? _); [|apply heapRel_refl].
  eapply heapRel_trans; [|apply heapRel_handlePreRoundEndOnServer].
  simpl. destruct (preRoundIntervalId w); apply heapRel_refl.
Qed.

Lemma heapRel_afterRemoval d w : heapRel R (heap w) (heap (afterRemoval d w)).
Proof.
  unfold afterRemoval.
  eapply heapRel_trans;
    [|apply heapRel_onlyEmits, broadcastPlayerStatusUpdate_onlyEmits].
  destruct (_ && _); [apply heapRel_gameEnded|].
  destruct (_ && _ && _).
  - destruct (forallb _ _).
    + eapply heapRel_trans; [|apply heapRel_startPreRoundCountdown].
      simpl. destruct (preRoundIntervalId w); apply heapRel_refl.
    + simpl. destruct (preRoundIntervalId w); apply heapRel_refl.
  - destruct (_ && _);
      [apply heapRel_checkAllReleasedOnServer|apply heapRel_refl].
Qed.

Lemma heapRel_leaveRoom s w : heapRel R (heap w) (heap (leaveRoom s w)).
Proof.
  unfold leaveRoom. destruct (_ && _); [|apply heapRel_refl].
  destruct (Nat.eqb _ _).
  - simpl.
    match goal with |- context [clearGameIntervals ?x] =>
      destruct (clearGameIntervals_frame x _ eq_refl) as (-> & _) end.
    apply heapRel_refl.
  - eapply heapRel_trans; [|apply heapRel_afterRemoval]. apply heapRel_refl.
Qed.

Lemma heapRel_playerHolding s w : heapRel R (heap w) (heap (playerHolding s w)).
Proof.
  unfold playerHolding. destruct (negb _); [apply heapRel_refl|].
  destruct (find_player s w) as [r|]; [|apply heapRel_refl].
  destruct (holds _ _ r); [apply heapRel_refl|].
  destruct (holds _ _ r); [|apply heapRel_refl].
  match goal with |- context [broadcastPlayerStatusUpdate ?x] =>
    destruct (broadcastPlayerStatusUpdate_onlyEmits x) as [m ->] end.
  simpl.
  assert (heapRel R (heap w) (alter (set_isHoldingButton true) r (heap w)))
    as Ha by (by apply heapRel_alter).
  repeat match goal with |- context [if ?c then _ else _] => destruct c end;
    try done;
    (eapply heapRel_trans; [|apply heapRel_startPreRoundCountdown]); done.
Qed.

Lemma heapRel_playerReleased s w :
  heapRel R (heap w) (heap (playerReleased s w)).
Proof.
  unfold playerReleased. destruct (negb _); [apply heapRel_refl|].
  destruct (find_player s w) as [r|]; [|apply heapRel_refl].
  destruct (holds _ _ r); [|apply heapRel_refl]. simpl.
  assert (heapRel R (heap w) (alter (set_isHoldingButton false) r (heap w)))
    as Ha by (by apply heapRel_alter).
  destruct (_ && _).
  - eapply heapRel_trans;
      [|apply heapRel_onlyEmits, broadcastPlayerStatusUpdate_onlyEmits].
    simpl. eapply heapRel_trans; [exact Ha|]. by apply heapRel_alter.
  - match goal with |- context [broadcastPlayerStatusUpdate ?x] =>
      destruct (broadcastPlayerStatusUpdate_onlyEmits x) as [m ->] end.
    simpl. destruct (Status_eqb _ _); [|done].
    eapply heapRel_trans; [|apply heapRel_checkAllReleasedOnServer]. done.
Qed.

Lemma heapRel_joinRoom s playerName w :
  heapRel R (heap w) (heap (joinRoom s playerName w)).
Proof.
  unfold joinRoom.
  repeat match goal with
         | |- context [if ?c then _ else _] => destruct c
         end; try apply heapRel_refl.
  destruct (deref _ _); [apply heapRel_refl|].
  eapply heapRel_trans; [|apply heapRel_onlyEmits, replayPhase_onlyEmits].
  eapply heapRel_trans;
    [|apply heapRel_onlyEmits, broadcastPlayerStatusUpdate_onlyEmits].
  simpl. apply heapRel_app.
Qed.

(** Every event, on every world. *)
Lemma heapRel_step e w : heapRel R (heap w) (heap (step e w)).
Proof.
  unfold step. destruct (crashed w); [apply heapRel_refl|].
  destruct e.
  - apply heapRel_joinRoom.
  - apply heapRel_leaveRoom.
  - apply heapRel_playerHolding.
  - apply heapRel_playerReleased.
  - apply heapRel_leaveRoom.
  - destruct (timer_kind t w) as [[|]|];
      [apply heapRel_countdownTick|apply heapRel_roundTick|apply heapRel_refl].
  - destruct (timeouts w); [apply heapRel_refl|].
    apply (heapRel_startNewRound (set_timeouts n w)).
  - apply heapRel_refl.
Qed.
End HeapRel.

Ltac case_ifs :=
  repeat match goal with |- context [if ?c then _ else _] => destruct c end.

(** Once a player object is eliminated it stays eliminated, whatever event
    comes next (this part of C1 holds). *)
Lemma isEliminated_monotone (e : Event) (w : World) (r : Ref) (p : Player) :
  heap w !! r = Some p → isEliminated p = true →
  ∃ p', heap (step e w) !! r = Some p' ∧ isEliminated p' = true.
Proof.
  intros Hp He.
  set (R := λ a b : Player, isEliminated a = true → isEliminated b = true).
  assert (∀ q, R q (preRoundEndPlayer q)) as H1.
  { intros q Hq. unfold preRoundEndPlayer. by case_ifs. }
  assert (∀ q, R q (tickPlayer q).1) as H2.
  { intros q Hq. unfold tickPlayer. by case_ifs. }
  destruct (heapRel_step R) with (e := e) (w := w) (r := r) (p := p)
    as (p' & Hp' & HR); subst R; simpl; auto.
  exists p'. split; [done|]. by apply HR.
Qed.

Lemma isEliminated_monotone_run (es : list Event) (w : World) (r : Ref)
    (p : Player) :
  heap w !! r = Some p → isEliminated p = true →
  ∃ p', heap (run es w) !! r = Some p' ∧ isEliminated p' = true.
Proof.
  revert w p. induction es as [|e es IH]; intros w p Hp He; [by exists p|].
  destruct (isEliminated_monotone e w r p Hp He) as (q & Hq & Heq).
  simpl. by eapply IH.
Qed.


(** ** Invariants of reachable rooms *)

Definition validRefs (h : list Player) (refs : list Ref) : Prop :=
  ∀ r, In r refs → (r < length h)%nat.

(** Shape of the arrays of references. *)
Definition structC (h : list Player) (ps act : list Ref) (reg : bool) : Prop :=
  List.NoDup ps ∧ List.NoDup act ∧ validRefs h ps ∧ validRefs h act
  ∧ (reg = true → ps ≠ []).

(** What holds of every player of the room. *)
Definition sound (p : Player) : Prop :=
  0 < time p ∧ 0 ≤ roundHoldDuration p
  ∧ (isEliminated p = true → isHoldingButton p = false).

(** A non-eliminated player has held for less than the time left. *)
Definition withinBudget (p : Player) : Prop :=
  isEliminated p = false → roundHoldDuration p < time p.

Definition numC (h : list Player) (ps : list Ref) : Prop :=
  (∀ r p, h !! r = Some p → 0 ≤ roundHoldDuration p)
  ∧ (∀ r p, In r ps → h !! r = Some p → sound p).

Definition withinAll (h : list Player) (ps : list Ref) : Prop :=
  ∀ r p, In r ps → h !! r = Some p → withinBudget p.

(** Between a resolution and the next reset the winner's duration is stale;
    that can only be in phase [roundEnded] or [gameOver] with no countdown. *)
Definition cleanC (h : list Player) (ps : list Ref) (st : Status)
    (pre : option TimerId) : Prop :=
  withinAll h ps ∨ ((st = roundEnded ∨ st = gameOver) ∧ pre = None).

(** Every live countdown timer is the one the handle names. *)
Definition timerC (pre : option TimerId)
    (ivs : list (TimerId * IntervalKind)) : Prop :=
  ∀ t, In (t, CountdownTimer) ivs → pre = Some t.

Definition Inv (w : World) : Prop :=
  structC (heap w) (players w) (activePlayersInRound w) (registered w)
  ∧ numC (heap w) (players w)
  ∧ cleanC (heap w) (players w) (status w) (preRoundIntervalId w)
  ∧ timerC (preRoundIntervalId w) (intervals w).

Ltac inv_split := unfold Inv; simpl; split; [|split; [|split]].

Lemma Inv_core w w' :
  heap w' = heap w → players w' = players w →
  activePlayersInRound w' = activePlayersInRound w →
  registered w' = registered w → status w' = status w →
  preRoundIntervalId w' = preRoundIntervalId w → intervals w' = intervals w →
  Inv w → Inv w'.
Proof. unfold Inv. by intros -> -> -> -> -> -> ->. Qed.

Lemma Inv_onlyEmits w w' : onlyEmits w w' → Inv w → Inv w'.
Proof. intros [m ->]. by apply Inv_core. Qed.

(** *** The loop bodies and the per-player facts *)

Lemma sound_resetForNewRound p :
  sound p → sound (resetForNewRound p) ∧ withinBudget (resetForNewRound p).
Proof. unfold sound, withinBudget. simpl. intros (? & ? & ?). by repeat split. Qed.

Lemma sound_resetForCountdown p :
  sound p → sound (resetForCountdown p) ∧ withinBudget (resetForCountdown p).
Proof. unfold sound, withinBudget. simpl. intros (? & ? & ?). by repeat split. Qed.

Lemma preRoundEndPlayer_alive p :
  0 < time p →
  preRoundEndPlayer p = p ∨ preRoundEndPlayer p = set_hasOptedOut true p.
Proof.
  intros Ht. unfold preRoundEndPlayer.
  destruct (Z.leb_spec (time p) 0); [lia|]. simpl.
  destruct (_ && _ && _); auto.
Qed.

Lemma sound_preRoundEndPlayer p :
  sound p →
  sound (preRoundEndPlayer p)
  ∧ (withinBudget p → withinBudget (preRoundEndPlayer p)).
Proof.
  intros Hs. destruct (preRoundEndPlayer_alive p) as [-> | ->];
    [by destruct Hs|done|done].
Qed.

Lemma sound_tickPlayer p :
  sound p →
  sound (tickPlayer p).1 ∧ (withinBudget p → withinBudget (tickPlayer p).1).
Proof.
  unfold sound, withinBudget, tickPlayer, contesting.
  destruct p as [i n t tk h o d el]. simpl. intros (Ht & Hd & He).
  destruct h, o, el; simpl; try (split; [by repeat split|done]).
  destruct (Z.leb_spec (t - (d + 1)) 0); simpl.
  - split; [repeat split; try done; lia|done].
  - split; [repeat split; try done; lia|]. intros _ _. lia.
Qed.

Lemma sound_award m p :
  sound p → withinBudget p → isEliminated p = false →
  roundHoldDuration p = m → sound (award m p).
Proof.
  unfold sound, withinBudget, award. simpl. intros (Ht & Hd & He) Hw Hel <-.
  rewrite Hel. repeat split; try done. specialize (Hw Hel). lia.
Qed.

Lemma sound_resetAfterRound p :
  sound p →
  sound (resetAfterRound p) ∧ (withinBudget p → withinBudget (resetAfterRound p)).
Proof. unfold sound, withinBudget. simpl. intros (? & ? & ?). by repeat split. Qed.

(** *** Loops and single updates on the heap *)

Lemma lookup_forEach_Some f refs h r p' :
  forEach f refs h !! r = Some p' → ∃ p, h !! r = Some p.
Proof.
  intros Hp'. apply lookup_lt_is_Some. rewrite <- (length_forEach f refs h).
  apply lookup_lt_is_Some. by exists p'.
Qed.

Lemma forEach_members (P : Player → Prop) f refs h :
  (∀ p, P p → P (f p)) →
  ∀ r p p', h !! r = Some p → forEach f refs h !! r = Some p' → P p → P p'.
Proof.
  intros Hf r p p' Hp Hp' HP.
  destruct (forEach_rel f (λ a b, P a → P b) refs h r p) as (q & Hq & HR);
    try done; try (by auto).
  assert (q = p') as -> by congruence. auto.
Qed.

Lemma numC_forEach f ps h :
  numC h ps → (∀ p, sound p → sound (f p)) → numC (forEach f ps h) ps.
Proof.
  intros [HN HS] Hf. split.
  - intros r p' Hp'. destruct (lookup_forEach_Some _ _ _ _ _ Hp') as [p Hp].
    destruct (in_dec Nat.eq_dec r ps) as [Hin|Hnin].
    + apply (forEach_members sound f ps h Hf r p p' Hp Hp'). by eapply HS.
    + rewrite lookup_forEach_notin in Hp' by done. by eapply HN.
  - intros r p' Hin Hp'. destruct (lookup_forEach_Some _ _ _ _ _ Hp') as [p Hp].
    apply (forEach_members sound f ps h Hf r p p' Hp Hp'). by eapply HS.
Qed.

Lemma withinAll_forEach_set f ps h :
  List.NoDup ps → numC h ps → (∀ p, sound p → withinBudget (f p)) →
  withinAll (forEach f ps h) ps.
Proof.
  intros Hnd [_ HS] Hf r p' Hin Hp'.
  rewrite lookup_forEach_in in Hp' by done.
  destruct (h !! r) as [p|] eqn:Hp; [|done]. injection Hp' as <-.
  apply Hf. by eapply HS.
Qed.

Lemma withinAll_forEach_keep f ps h :
  numC h ps → withinAll h ps →
  (∀ p, sound p → sound (f p) ∧ (withinBudget p → withinBudget (f p))) →
  withinAll (forEach f ps h) ps.
Proof.
  intros [_ HS] HW Hf r p' Hin Hp'.
  destruct (lookup_forEach_Some _ _ _ _ _ Hp') as [p Hp].
  refine (proj2 (forEach_members (λ q, sound q ∧ withinBudget q) f ps h _
                   r p p' Hp Hp' _)).
  - intros q [Hq Hw]. destruct (Hf q Hq). auto.
  - split; [by eapply HS|by eapply HW].
Qed.

Lemma numC_alter f r0 ps h :
  numC h ps →
  (∀ p, h !! r0 = Some p →
     (0 ≤ roundHoldDuration p → 0 ≤ roundHoldDuration (f p))
     ∧ (In r0 ps → sound p → sound (f p))) →
  numC (alter f r0 h) ps.
Proof.
  intros [HN HS] Hf. split.
  - intros r p'. rewrite list_lookup_alter. case_decide; [subst r|by apply HN].
    destruct (h !! r0) as [p|] eqn:Hp; [|done]. intros [= <-].
    destruct (Hf p eq_refl) as [H1 _]. apply H1. by eapply HN.
  - intros r p' Hin. rewrite list_lookup_alter.
    case_decide; [subst r|by apply HS].
    destruct (h !! r0) as [p|] eqn:Hp; [|done]. intros [= <-].
    destruct (Hf p eq_refl) as [_ H2]. apply H2; [done|]. by eapply HS.
Qed.

Lemma withinAll_alter f r0 ps h :
  withinAll h ps →
  (∀ p, h !! r0 = Some p → withinBudget p → withinBudget (f p)) →
  withinAll (alter f r0 h) ps.
Proof.
  intros HW Hf r p' Hin. rewrite list_lookup_alter.
  case_decide; [subst r|by apply HW].
  destruct (h !! r0) as [p|] eqn:Hp; [|done]. intros [= <-].
  apply (Hf p eq_refl). by eapply HW.
Qed.

Lemma structC_heap h h' ps act reg :
  length h' = length h → structC h ps act reg → structC h' ps act reg.
Proof.
  intros Hl (? & ? & Hv1 & Hv2 & ?). unfold structC, validRefs in *.
  rewrite Hl. by repeat split.
Qed.

(** *** Timers *)

Lemma timerC_filter P pre ivs : timerC pre ivs → timerC pre (List.filter P ivs).
Proof. intros H t Hin. apply filter_In in Hin as [Hin _]. by apply H. Qed.

Lemma timerC_clear_handle pre ivs :
  timerC pre ivs →
  timerC None (match pre with
               | Some t => List.filter (λ e, negb (Nat.eqb e.1 t)) ivs
               | None => ivs
               end).
Proof.
  intros H t Hin. destruct pre as [t0|]; [|by apply H].
  apply filter_In in Hin as [Hin Hne]. simpl in Hne.
  specialize (H t Hin). injection H as ->.
  by rewrite Nat.eqb_refl in Hne.
Qed.

Lemma timerC_add_round pre ivs t :
  timerC pre ivs → timerC pre (ivs ++ [(t, RoundTimer)]).
Proof.
  intros H t' [Hin|[Heq|[]]]%in_app_iff; [by apply H|done].
Qed.

Lemma timerC_add_countdown ivs t :
  timerC None ivs → timerC (Some t) (ivs ++ [(t, CountdownTimer)]).
Proof.
  intros H t' [Hin|[Heq|[]]]%in_app_iff; [by specialize (H t' Hin)|].
  by injection Heq as ->.
Qed.

Lemma cleanC_pre_None h ps st pre : cleanC h ps st pre → cleanC h ps st None.
Proof. intros [H|[H _]]; [by left|by right]. Qed.

Lemma cleanC_active h ps st pre :
  cleanC h ps st pre →
  (st = waiting ∨ st = preCountdown ∨ st = inRound ∨ is_Some pre) →
  withinAll h ps.
Proof.
  intros [H|[Hst Hpre]] Hact; [done|]. exfalso.
  destruct Hact as [->|[->|[->|[t ->]]]]; naive_solver.
Qed.

Lemma clearGameIntervals_intervals w :
  timerC (preRoundIntervalId w) (intervals w) →
  timerC None (intervals (clearGameIntervals w)).
Proof.
  intros H. apply timerC_clear_handle in H. unfold clearGameIntervals.
  destruct (preRoundIntervalId w), (roundTimerIntervalId w) eqn:E; simpl;
    rewrite ?E; simpl; try done; by apply timerC_filter.
Qed.

Lemma Inv_clearGameIntervals w : Inv w → Inv (clearGameIntervals w).
Proof.
  intros (HS & HN & HC & HT). unfold Inv.
  destruct (clearGameIntervals_frame w _ eq_refl)
    as (-> & -> & -> & -> & _ & _ & _ & -> & _ & _ & _ & _ & _ & -> & _).
  split; [|split; [|split]]; try done.
  - by eapply cleanC_pre_None.
  - by apply clearGameIntervals_intervals.
Qed.

Lemma gameEnded_unfold reason w :
  registered w = true →
  onlyEmits (clearGameIntervals (set_status gameOver w)) (gameEnded reason w).
Proof. intros Hreg. unfold gameEnded. rewrite Hreg. apply emit_onlyEmits. Qed.

Lemma Inv_gameEnded reason w : Inv w → Inv (gameEnded reason w).
Proof.
  intros HI. destruct (registered w) eqn:Hreg.
  2:{ unfold gameEnded. by rewrite Hreg. }
  eapply Inv_onlyEmits; [by apply gameEnded_unfold|].
  destruct HI as (HS & HN & HC & HT). unfold Inv.
  destruct (clearGameIntervals_frame (set_status gameOver w) _ eq_refl)
    as (-> & -> & -> & -> & _ & _ & _ & -> & _ & _ & _ & _ & _ & -> & _).
  split; [|split; [|split]]; try done.
  - right. auto.
  - by apply (clearGameIntervals_intervals (set_status gameOver w)).
Qed.

Lemma Inv_startNewRound w : Inv w → Inv (startNewRound w).
Proof.
  intros HI. unfold startNewRound.
  destruct (registered w) eqn:Hreg; simpl; [|done].
  destruct (_ && _); [by apply Inv_gameEnded|].
  destruct (_ <=? _); [by apply Inv_gameEnded|].
  eapply Inv_onlyEmits; [apply announceRound_onlyEmits|].
  destruct HI as ((Hnd & HS) & HN & HC & HT). inv_split.
  - apply (structC_heap (heap w)); [apply length_forEach|done].
  - apply numC_forEach; [done|]. intros p Hp.
    by apply sound_resetForNewRound.
  - left. apply withinAll_forEach_set; try done. intros p Hp.
    by apply sound_resetForNewRound.
  - done.
Qed.

Lemma Inv_startPreRoundCountdown w :
  Inv w → preRoundIntervalId w = None → Inv (startPreRoundCountdown w).
Proof.
  intros HI Hpre. unfold startPreRoundCountdown.
  destruct (_ || _ || _); [done|]. destruct (negb _); [done|].
  set (w1 := set_heap (forEach resetForCountdown (players w) (heap w))
               (set_preRoundCountdown 5 (set_status preCountdown w))).
  match goal with |- Inv (set_preRoundIntervalId _ (setInterval _ ?x)) =>
    assert (onlyEmits w1 x) as [m ->]
  end.
  { eapply onlyEmits_trans; [|apply emit_onlyEmits].
    apply broadcastPlayerStatusUpdate_onlyEmits. }
  destruct HI as ((Hnd & HS) & HN & HC & HT). unfold Inv. simpl.
  split; [|split; [|split]].
  - apply (structC_heap (heap w)); [apply length_forEach|done].
  - apply numC_forEach; [done|]. intros p Hp. by apply sound_resetForCountdown.
  - left. apply withinAll_forEach_set; try done. intros p Hp.
    by apply sound_resetForCountdown.
  - apply timerC_add_countdown. by rewrite Hpre in HT.
Qed.

(** *** Resolution *)

Lemma length_resolvedHeap w : length (resolvedHeap w) = length (heap w).
Proof.
  unfold resolvedHeap. rewrite length_forEach.
  destruct (_ || _); [done|apply length_forEach].
Qed.

Lemma numC_resolvedHeap w :
  List.NoDup (activePlayersInRound w) →
  numC (heap w) (players w) → withinAll (heap w) (players w) →
  numC (resolvedHeap w) (players w).
Proof.
  intros Hnd HN HW. unfold resolvedHeap.
  destruct (scanWinners_scanned (heap w) (activePlayersInRound w))
    as (Hm0 & Hws & _ & _).
  set (m := (scanWinners (heap w) (activePlayersInRound w)).1) in *.
  set (ws := (scanWinners (heap w) (activePlayersInRound w)).2) in *.
  apply numC_forEach; [|intros p Hp; by apply sound_resetAfterRound].
  destruct (_ || _); [done|].
  assert (List.NoDup ws) as Hndw by (rewrite Hws; by apply NoDup_filter).
  destruct HN as [HN HS]. split.
  - intros r p' Hp'. destruct (lookup_forEach_Some _ _ _ _ _ Hp') as [p Hp].
    destruct (forEach_rel (award m)
                (λ a b, roundHoldDuration b = roundHoldDuration a)
                ws (heap w) r p) as (q & Hq & Hd); try done.
    { intros a b c. congruence. }
    assert (q = p') as -> by congruence. rewrite Hd. by eapply HN.
  - intros r p' Hin Hp'. destruct (lookup_forEach_Some _ _ _ _ _ Hp') as [p Hp].
    destruct (in_dec Nat.eq_dec r ws) as [Hw|Hw].
    + rewrite lookup_forEach_in, Hp in Hp' by done. injection Hp' as <-.
      rewrite Hws in Hw. apply filter_In in Hw as [_ Hw].
      apply andb_true_iff in Hw as [He Hd].
      apply eligibleb_iff in He as (p1 & Hp1 & He & _).
      apply heldFor_iff in Hd as (p2 & Hp2 & Hd).
      assert (p1 = p) as -> by congruence.
      assert (p2 = p) as -> by congruence.
      apply sound_award; try done; [by eapply HS|by eapply HW].
    + rewrite lookup_forEach_notin in Hp' by done.
      assert (p' = p) as -> by congruence. by eapply HS.
Qed.

Lemma Inv_endRoundOnServer w :
  Inv w → withinAll (heap w) (players w) → preRoundIntervalId w = None →
  Inv (endRoundOnServer w).
Proof.
  intros HI HW Hpre. destruct (registered w) eqn:Hreg.
  2:{ unfold endRoundOnServer. by rewrite Hreg. }
  destruct (endRoundOnServer_unfold w Hreg)
    as (Hh & Hst & Hps & Hact & _ & Hp & _ & Hiv & Hr & _).
  destruct HI as (HS & HN & HC & HT). unfold Inv.
  rewrite Hh, Hst, Hps, Hact, Hp, Hiv, Hr, Hpre.
  split; [|split; [|split]].
  - rewrite <- Hreg. apply (structC_heap (heap w)); [|done].
    apply length_resolvedHeap.
  - apply numC_resolvedHeap; try done. by destruct HS as (_ & ? & _).
  - right. auto.
  - by rewrite Hpre in HT.
Qed.

Lemma Inv_checkAllReleasedOnServer w :
  Inv w → Inv (checkAllReleasedOnServer w).
Proof.
  intros HI. unfold checkAllReleasedOnServer.
  destruct (negb (registered w) || negb (Status_eqb (status w) inRound))
    eqn:Hc; [done|].
  apply orb_false_iff in Hc as [_ Hst]. apply negb_false_iff in Hst.
  apply Status_eqb_eq in Hst.
  destruct (forallb _ _); [|done].
  pose proof (Inv_clearGameIntervals w HI) as HI'.
  destruct (clearGameIntervals_frame w _ eq_refl)
    as (Hh & Hp & _ & _ & _ & _ & _ & _ & _ & _ & _ & _ & _ & Hpre & _).
  apply Inv_endRoundOnServer; [done| |done].
  rewrite Hh, Hp. destruct HI as (_ & _ & HC & _).
  eapply cleanC_active; [done|]. rewrite Hst. auto.
Qed.

Lemma Inv_roundTick w : Inv w → Inv (roundTick w).
Proof.
  intros HI. unfold roundTick. apply Inv_checkAllReleasedOnServer.
  set (w1 := set_heap (forEach (λ p, (tickPlayer p).1) (players w) (heap w))
               (set_roundElapsedTime (roundElapsedTime w + 1) w)).
  assert (Inv w1) as H1.
  { destruct HI as (HS & HN & HC & HT). inv_split.
    - apply (structC_heap (heap w)); [apply length_forEach|done].
    - apply numC_forEach; [done|]. intros p Hp. by apply sound_tickPlayer.
    - destruct HC as [HW|HD]; [left|by right].
      apply withinAll_forEach_keep; try done. apply sound_tickPlayer.
    - done. }
  eapply Inv_onlyEmits; [|exact H1]. simpl. rewrite forEachFlag_fst.
  fold w1. eapply onlyEmits_trans; [|apply emit_onlyEmits].
  destruct (forEachFlag _ _ _).2;
    [apply broadcastPlayerStatusUpdate_onlyEmits|apply onlyEmits_refl].
Qed.

Lemma validRefs_filter P h refs :
  validRefs h refs → validRefs h (List.filter P refs).
Proof. intros H r Hin. apply filter_In in Hin as [Hin _]. by apply H. Qed.

Lemma Inv_handlePreRoundEndOnServer w :
  Inv w → withinAll (heap w) (players w) → preRoundIntervalId w = None →
  Inv (handlePreRoundEndOnServer w).
Proof.
  intros HI HW Hpre. unfold handlePreRoundEndOnServer.
  destruct (registered w) eqn:Hreg; simpl; [|done].
  destruct HI as ((Hnd & Hnda & Hv & Hva & Hne) & HN & HC & HT).
  assert (structC (forEach preRoundEndPlayer (players w) (heap w)) (players w)
            (List.filter
               (holds contesting (forEach preRoundEndPlayer (players w) (heap w)))
               (players w)) (registered w)) as HS'.
  { apply (structC_heap (heap w)); [apply length_forEach|].
    repeat split; try done; [by apply NoDup_filter|by apply validRefs_filter]. }
  assert (numC (forEach preRoundEndPlayer (players w) (heap w)) (players w))
    as HN'.
  { apply numC_forEach; [done|]. intros p Hp. by apply sound_preRoundEndPlayer. }
  assert (withinAll (forEach preRoundEndPlayer (players w) (heap w)) (players w))
    as HW'.
  { apply withinAll_forEach_keep; try done. apply sound_preRoundEndPlayer. }
  destruct (_ <? _)%nat; inv_split; try done; try (by left).
  rewrite Hpre in *. by apply timerC_add_round.
Qed.

Lemma timer_kind_In t k w : timer_kind t w = Some k → In (t, k) (intervals w).
Proof.
  unfold timer_kind. destruct (List.find _ _) as [[t' k']|] eqn:Hf; [|done].
  intros [= <-]. apply find_some in Hf as [Hin Heq]. simpl in Heq.
  apply Nat.eqb_eq in Heq as ->. done.
Qed.

Lemma Inv_countdownTick w :
  Inv w → (∃ t, In (t, CountdownTimer) (intervals w)) → Inv (countdownTick w).
Proof.
  intros HI [t Ht]. unfold countdownTick. simpl.
  destruct (_ <=? _); [|by eapply Inv_core; [..|exact HI]].
  destruct HI as (HS & HN & HC & HT).
  pose proof (HT t Ht) as Hpre. rewrite Hpre. simpl.
  apply Inv_handlePreRoundEndOnServer; [|simpl|done].
  - inv_split; try done; [by left; eapply cleanC_active; [done|]; rewrite Hpre; eauto|].
    rewrite Hpre in HT. by apply timerC_clear_handle in HT.
  - eapply cleanC_active; [done|]. rewrite Hpre. eauto.
Qed.

(** *** Socket handlers *)

Lemma Inv_afterRemoval d w : Inv w → Inv (afterRemoval d w).
Proof.
  intros HI. unfold afterRemoval.
  eapply Inv_onlyEmits; [apply broadcastPlayerStatusUpdate_onlyEmits|].
  destruct (is_active_phase (status w) && _); [by apply Inv_gameEnded|].
  destruct (Status_eqb (status w) preCountdown && wasHolding w d
            && is_Some_b (preRoundIntervalId w)) eqn:Hc.
  - apply andb_true_iff in Hc as [Hc _]. apply andb_true_iff in Hc as [Hst _].
    apply Status_eqb_eq in Hst.
    assert (Inv (set_status waiting
                   (set_preRoundIntervalId None
                      match preRoundIntervalId w with
                      | Some t => clearInterval t w
                      | None => w
                      end))) as H1.
    { destruct HI as (HS & HN & HC & HT).
      assert (withinAll (heap w) (players w)) as HW.
      { eapply cleanC_active; [done|]. rewrite Hst. auto. }
      apply timerC_clear_handle in HT.
      destruct (preRoundIntervalId w); inv_split; try done; by left. }
    destruct (forallb _ _).
    + apply Inv_startPreRoundCountdown; [done|]. simpl.
      by destruct (preRoundIntervalId w).
    + eapply Inv_core; [..|exact H1]; done.
  - destruct (Status_eqb (status w) inRound && _);
      [by apply Inv_checkAllReleasedOnServer|done].
Qed.

Lemma clearGameIntervals_set_registered b w :
  clearGameIntervals (set_registered b w)
  = set_registered b (clearGameIntervals w).
Proof.
  unfold clearGameIntervals. simpl.
  destruct (preRoundIntervalId w), (roundTimerIntervalId w) eqn:E; simpl;
    by rewrite ?E.
Qed.

Lemma Inv_leaveRoom s w : Inv w → Inv (leaveRoom s w).
Proof.
  intros HI. unfold leaveRoom. destruct (_ && _); [|done].
  fold (remaining s w).
  destruct HI as ((Hnd & Hnda & Hv & Hva & Hne) & (HN & HS) & HC & HT).
  assert (numC (heap w) (remaining s w)) as HN'.
  { split; [done|]. intros r p Hin. apply HS.
    by apply filter_In in Hin as [? _]. }
  assert (cleanC (heap w) (remaining s w) (status w) (preRoundIntervalId w))
    as HC'.
  { destruct HC as [HW|?]; [left|by right]. intros r p Hin. apply HW.
    by apply filter_In in Hin as [? _]. }
  destruct (Nat.eqb_spec (length (players (detach s
              (set_players (remaining s w) w)))) 0) as [H0|H0].
  - rewrite <- clearGameIntervals_set_registered.
    apply Inv_clearGameIntervals. inv_split; try done.
    simpl in H0. destruct (remaining s w); [|done].
    split; [constructor|]. split; [done|]. split; [by intros ? []|].
    by split.
  - apply Inv_afterRemoval. inv_split; try done.
    repeat split; try done; [by apply NoDup_filter|by apply validRefs_filter|].
    intros _ Hnil. simpl in H0. by rewrite Hnil in H0.
Qed.

Lemma Inv_playerHolding s w : Inv w → Inv (playerHolding s w).
Proof.
  intros HI. unfold playerHolding. destruct (negb _); [done|].
  destruct (find_player s w) as [r|] eqn:Hfind; [|done].
  destruct (holds (λ player, (time player <=? 0) || isEliminated player)
              (heap w) r) eqn:Hbad; [done|].
  destruct (holds (λ player, negb (isHoldingButton player)) (heap w) r)
    eqn:Hnot; [|done].
  apply find_player_Some in Hfind as (Hin & p & Hp & _).
  unfold holds in Hbad. rewrite Hp in Hbad.
  apply orb_false_iff in Hbad as [_ Hel].
  match goal with |- context [broadcastPlayerStatusUpdate ?x] =>
    destruct (broadcastPlayerStatusUpdate_onlyEmits x) as [m Hm];
    assert (Inv x) as H1
  end.
  { destruct HI as (HS & HN & HC & HT). inv_split.
    - apply (structC_heap (heap w)); [apply length_alter|done].
    - apply numC_alter; [done|]. intros q Hq.
      assert (q = p) as -> by congruence. split; [done|].
      intros _ (? & ? & ?). repeat split; try done. simpl. by rewrite Hel.
    - destruct HC as [HW|?]; [left|by right].
      apply withinAll_alter; [done|]. by intros q _.
    - done. }
  rewrite Hm. simpl.
  assert (Inv (set_out (out w ++ m)
                 (set_heap (alter (set_isHoldingButton true) r (heap w)) w)))
    as H2 by (by eapply Inv_core; [..|exact H1]).
  destruct (canArm (status w)); [|done].
  destruct (Nat.eqb _ 1).
  - destruct (forallb _ _ && negb (is_Some_b (preRoundIntervalId w))) eqn:Hc;
      [|done].
    apply andb_true_iff in Hc as [_ Hc]. apply Inv_startPreRoundCountdown;
      [done|]. simpl. by destruct (preRoundIntervalId w).
  - destruct (_ && forallb _ _ && negb (is_Some_b (preRoundIntervalId w)))
      eqn:Hc; [|done].
    apply andb_true_iff in Hc as [_ Hc]. apply Inv_startPreRoundCountdown;
      [done|]. simpl. by destruct (preRoundIntervalId w).
Qed.

Lemma Inv_playerReleased s w : Inv w → Inv (playerReleased s w).
Proof.
  intros HI. unfold playerReleased. destruct (negb _); [done|].
  destruct (find_player s w) as [r|] eqn:Hfind;
    [|by eapply Inv_core; [..|exact HI]].
  destruct (holds isHoldingButton (heap w) r); [|done]. simpl.
  assert (∀ f, (∀ q, time (f q) = time q
                     ∧ roundHoldDuration (f q) = roundHoldDuration q
                     ∧ isEliminated (f q) = isEliminated q
                     ∧ (isHoldingButton (f q) = isHoldingButton q
                        ∨ isHoldingButton (f q) = false)) →
            ∀ x, Inv x → Inv (set_heap (alter f r (heap x)) x)) as Hstep.
  { intros f Hf x (HS & HN & HC & HT). inv_split.
    - apply (structC_heap (heap x)); [apply length_alter|done].
    - apply numC_alter; [done|]. intros q Hq.
      destruct (Hf q) as (Ht & Hd & He & Hh). unfold sound.
      rewrite Ht, Hd, He. split; [done|]. intros _ (? & ? & Hx).
      repeat split; try done. intros E. destruct Hh as [->|]; auto.
    - destruct HC as [HW|?]; [left|by right].
      apply withinAll_alter; [done|]. intros q _.
      destruct (Hf q) as (Ht & Hd & He & _). unfold withinBudget.
      by rewrite Ht, Hd, He.
    - done. }
  assert (Inv (set_heap (alter (set_isHoldingButton false) r (heap w)) w))
    as H1.
  { apply Hstep; [|done]. intros q. simpl. auto. }
  destruct (_ && _).
  - eapply Inv_onlyEmits; [apply broadcastPlayerStatusUpdate_onlyEmits|].
    refine (Hstep (set_hasOptedOut true) _
              (set_heap (alter (set_isHoldingButton false) r (heap w)) w) H1).
    intros q. simpl. auto.
  - match goal with |- context [broadcastPlayerStatusUpdate ?x] =>
      destruct (broadcastPlayerStatusUpdate_onlyEmits x) as [m Hm] end.
    rewrite Hm. simpl.
    assert (Inv (set_out (out w ++ m)
                   (set_heap (alter (set_isHoldingButton false) r (heap w)) w)))
      as H2 by (by eapply Inv_core; [..|exact H1]).
    destruct (Status_eqb _ _); [|done].
    by apply Inv_checkAllReleasedOnServer.
Qed.

Lemma Inv_joinRoom s playerName w : Inv w → Inv (joinRoom s playerName w).
Proof.
  intros HI. unfold joinRoom.
  destruct (negb (registered w)); [by eapply Inv_onlyEmits; [apply emit_onlyEmits|]|].
  destruct (negb (joinable _)); [by eapply Inv_onlyEmits; [apply emit_onlyEmits|]|].
  destruct (_ <=? _)%nat; [by eapply Inv_onlyEmits; [apply emit_onlyEmits|]|].
  destruct (existsb _ _); [by eapply Inv_onlyEmits; [apply emit_onlyEmits|]|].
  destruct (deref (heap w) (take 1 (players w))) as [|first rest] eqn:Hfirst;
    [by eapply Inv_core; [..|exact HI]|].
  eapply Inv_onlyEmits; [apply replayPhase_onlyEmits|].
  eapply Inv_onlyEmits; [apply broadcastPlayerStatusUpdate_onlyEmits|].
  destruct HI as ((Hnd & Hnda & Hv & Hva & Hne) & (HN & HS) & HC & HT).
  assert (sound first) as Hsf.
  { destruct (players w) as [|r0 ps]; [done|]. simpl in Hfirst.
    destruct (heap w !! r0) as [p0|] eqn:Hp0; [|done].
    injection Hfirst as <- _. eapply HS; [by left|done]. }
  assert (∀ r, In r (players w) →
            (heap w ++ [newPlayerRecord s playerName (time first)]) !! r
            = heap w !! r) as Hold.
  { intros r Hr. apply lookup_app_l. by apply Hv. }
  inv_split.
  - split; [|split; [done|split; [|split]]].
    + apply NoDup_app; [done|repeat constructor; by intros []|].
      intros r Hr [<-|[]]. apply Hv in Hr. lia.
    + intros r [Hr|[<-|[]]]%in_app_iff; rewrite length_app; simpl;
        [apply Hv in Hr|]; lia.
    + intros r Hr. rewrite length_app. apply Hva in Hr. lia.
    + intros _. by destruct (players w).
  - split.
    + intros r p [Hp|[_ Hp]]%lookup_app_Some; [by eapply HN|].
      destruct (r - length (heap w))%nat; [|done]. by injection Hp as <-.
    + intros r p [Hr|[<-|[]]]%in_app_iff Hp.
      * rewrite Hold in Hp by done. by eapply HS.
      * rewrite lookup_app_r, Nat.sub_diag in Hp by done.
        injection Hp as <-. destruct Hsf as (? & ? & ?). by repeat split.
  - destruct HC as [HW|?]; [left|by right].
    intros r p [Hr|[<-|[]]]%in_app_iff Hp.
    + rewrite Hold in Hp by done. by eapply HW.
    + rewrite lookup_app_r, Nat.sub_diag in Hp by done.
      injection Hp as <-. intros _. by destruct Hsf.
  - done.
Qed.

Lemma Inv_createRoom s playerName initialTime maxRoundsArg :
  Inv (createRoom s playerName initialTime maxRoundsArg).
Proof.
  assert (Inv emptyWorld) as He.
  { inv_split.
    - repeat split; try done; try constructor; by intros ? [].
    - split; [by intros [] ?|by intros ? ? []].
    - left. by intros ? ? [].
    - by intros ? []. }
  unfold createRoom.
  destruct (Z.ltb_spec initialTime 10);
    [by eapply Inv_onlyEmits; [apply emit_onlyEmits|]|].
  destruct (Z.ltb_spec 600 initialTime);
    [by eapply Inv_onlyEmits; [apply emit_onlyEmits|]|].
  simpl. destruct (_ || _);
    [by eapply Inv_onlyEmits; [apply emit_onlyEmits|]|].
  apply Inv_startNewRound. eapply Inv_onlyEmits; [apply emit_onlyEmits|].
  inv_split.
  - split; [repeat constructor; by intros []|]. split; [constructor|].
    split; [intros r [<-|[]]; simpl; lia|]. split; [by intros ? []|done].
  - split.
    + intros [|r] p Hp; [|done]. by injection Hp as <-.
    + intros r p [<-|[]] Hp. injection Hp as <-. repeat split; simpl; (lia || done).
  - left. intros r p [<-|[]] Hp. injection Hp as <-. intros _. simpl. lia.
  - by intros ? [].
Qed.

Lemma Inv_step e w : Inv w → Inv (step e w).
Proof.
  intros HI. unfold step. destruct (crashed w); [done|]. destruct e.
  - by apply Inv_joinRoom.
  - by apply Inv_leaveRoom.
  - by apply Inv_playerHolding.
  - by apply Inv_playerReleased.
  - by apply Inv_leaveRoom.
  - destruct (timer_kind t w) as [[|]|] eqn:Hk; [| |done].
    + apply Inv_countdownTick; [done|]. exists t. by apply timer_kind_In.
    + by apply Inv_roundTick.
  - destruct (timeouts w); [done|]. apply Inv_startNewRound.
    by eapply Inv_core; [..|exact HI].
  - by eapply Inv_core; [..|exact HI].
Qed.

(** Every reachable room satisfies the invariants. *)
Theorem reachable_Inv w : reachable w → Inv w.
Proof.
  induction 1; [apply Inv_createRoom|by apply Inv_step].
Qed.

(** *** What the invariants give *)

Lemma reachable_player_sound w r p :
  reachable w → In r (players w) → heap w !! r = Some p →
  0 < time p ∧ 0 ≤ roundHoldDuration p
  ∧ (isEliminated p = true → isHoldingButton p = false).
Proof.
  intros Hw Hin Hp. destruct (reachable_Inv w Hw) as (_ & (_ & HS) & _).
  by eapply HS.
Qed.

Lemma reachable_hasFirstPlayer w : reachable w → hasFirstPlayer w.
Proof.
  intros Hw Hreg.
  destruct (reachable_Inv w Hw) as ((_ & _ & Hv & _ & Hne) & _).
  destruct (players w) as [|r0 rest] eqn:Hps; [by destruct (Hne Hreg)|].
  destruct (lookup_lt_is_Some_2 (heap w) r0) as [p0 Hp0].
  { apply Hv. by left. }
  by exists r0, rest, p0.
Qed.

(** The hypotheses of the resolution theorem hold in every reachable room
    (and, the handles apart, resolution runs on such a state). *)
Lemma reachable_active w :
  reachable w →
  List.NoDup (activePlayersInRound w)
  ∧ ∀ r p, heap w !! r = Some p → 0 ≤ roundHoldDuration p.
Proof.
  intros Hw. by destruct (reachable_Inv w Hw) as ((_ & ? & _) & (? & _) & _).
Qed.

(** ** C1: elimination *)

(** A room for one, 10 seconds: A holds, the countdown runs out, A keeps
    holding for ten ticks. *)
Definition exhaustBudget : list Event :=
  [PlayerHolding 1] ++ replicate 5 (IntervalFires 0)
  ++ replicate 10 (IntervalFires 1).

Definition exhausted : World := run exhaustBudget (createRoom 1 "A" 10 3).

(** C1 at the failing input.  The tenth tick finds
    [time - roundHoldDuration = 0]: A is released by force and eliminated,
    but [time] is still 10; the resolution that follows in the same tick
    passes A over (eliminated players are skipped), so nothing is debited. *)
Theorem C1_forced_release_keeps_time :
  reachable exhausted
  ∧ players exhausted = [0%nat]
  ∧ heap exhausted = [mkPlayer 1 "A" 10 0 false false 10 true]
  ∧ ¬ (∀ r p, In r (players exhausted) → heap exhausted !! r = Some p →
         isEliminated p = true → time p ≤ 0).
Proof.
  assert (players exhausted = [0%nat]) as Hps by (vm_compute; reflexivity).
  assert (heap exhausted = [mkPlayer 1 "A" 10 0 false false 10 true]) as Hh
    by (vm_compute; reflexivity).
  split; [apply reachable_run, reach_create|].
  split; [done|]. split; [done|]. rewrite Hps, Hh. intros H.
  specialize (H 0%nat (mkPlayer 1 "A" 10 0 false false 10 true)
                (or_introl eq_refl) eq_refl eq_refl).
  simpl in H. lia.
Qed.

(** What does hold of C1 in every reachable room: an eliminated player of
    the room is not holding, and -- against the claim -- has time left. *)
Lemma eliminated_player w r p :
  reachable w → In r (players w) → heap w !! r = Some p →
  isEliminated p = true → isHoldingButton p = false ∧ 0 < time p.
Proof.
  intros Hw Hin Hp He.
  destruct (reachable_player_sound w r p Hw Hin Hp) as (Ht & _ & Hh). auto.
Qed.

(** ** C7: timers and phases *)

(** Scenario B, then both players press again while the round-end timeout is
    pending: a new countdown starts in phase [roundEnded]; then the timeout
    fires [startNewRound]. *)
Definition staleNewRound : list Event :=
  scenarioB ++ [PlayerHolding 1; PlayerHolding 2; TimeoutFires].

Definition staleCountdown : World :=
  run staleNewRound (createRoom 1 "A" 60 3).

(** C7 at the failing input: the delayed [startNewRound] puts the room back
    to [waiting] without cancelling the countdown started in between, whose
    handle stays set and whose timer stays live. *)
Theorem C7_stale_startNewRound :
  reachable staleCountdown
  ∧ status staleCountdown = waiting
  ∧ preRoundIntervalId staleCountdown = Some 2%nat
  ∧ intervals staleCountdown = [(2%nat, CountdownTimer)]
  ∧ ¬ (is_Some (preRoundIntervalId staleCountdown) →
       status staleCountdown = preCountdown).
Proof.
  assert (status staleCountdown = waiting) as Hs by (vm_compute; reflexivity).
  assert (preRoundIntervalId staleCountdown = Some 2%nat) as Hp
    by (vm_compute; reflexivity).
  assert (intervals staleCountdown = [(2%nat, CountdownTimer)]) as Hi
    by (vm_compute; reflexivity).
  split; [apply reachable_run, reach_create|].
  split; [done|]. split; [done|]. split; [done|].
  rewrite Hs, Hp. intros H. by discriminate H.
Qed.

(** The timer invariant of C7. *)
Definition timersMatchPhase (w : World) : Prop :=
  (is_Some (preRoundIntervalId w) → status w = preCountdown)
  ∧ (is_Some (roundTimerIntervalId w) → status w = inRound).

(** ** C6: when [hasOptedOut] is set *)










Lemma handlePreRoundEndOnServer_heap w :
  heap (handlePreRoundEndOnServer w)
  = if registered w then forEach preRoundEndPlayer (players w) (heap w)
    else heap w.
Proof.
  unfold handlePreRoundEndOnServer. destruct (registered w); [|done]. simpl.
  by destruct (_ <? _)%nat.
Qed.




Lemma C10_joinRoom_witness :
  ∃ err, joinRoom 3 "A" (createRoom 1 "A" 60 3)
         = emit (EmJoinCallback 3 (inl err)) (createRoom 1 "A" 60 3).
Proof.
  refine (proj2 (C10_joinRoom (createRoom 1 "A" 60 3) 3 "A" _) _).
  - intros _. by exists 0%nat, [], (mkPlayer 1 "A" 60 0 false false 0 false).
  - intros (_ & _ & _ & Hname). apply Hname.
    exists 0%nat, (mkPlayer 1 "A" 60 0 false false 0 false).
    repeat split. by left.
Defined.

(** Scenario E: three players enter the bidding phase, then two of them
    disconnect. *)
Definition scenarioE : list Event :=
  [JoinRoom 2 "B"; JoinRoom 3 "C"; PlayerHolding 1; PlayerHolding 2;
   PlayerHolding 3]
  ++ replicate 5 (IntervalFires 0)
  ++ [IntervalFires 1; Disconnect 2; Disconnect 3].

Example scenarioE_gameOver :
  let w := run scenarioE (createRoom 1 "A" 60 3) in
  status (run (removelast scenarioE) (createRoom 1 "A" 60 3)) = inRound
  ∧ status w = gameOver
  ∧ heap w = [mkPlayer 1 "A" 60 0 true false 1 false;
              mkPlayer 2 "B" 60 0 true false 1 false;
              mkPlayer 3 "C" 60 0 true false 1 false]
  ∧ players w = [0%nat]
  ∧ preRoundIntervalId w = None ∧ roundTimerIntervalId w = None
  ∧ intervals w = [] ∧ timeouts w = 0%nat
  ∧ ∃ finalPlayers finalWinner,
      In (EmGameOver ToRoom (Some InsufficientPlayers) finalPlayers finalWinner)
        (out w).
Proof.
  repeat (split; [by vm_compute|]).
  eexists _, _. vm_compute. repeat (first [left; reflexivity | right]).
Qed.

(** *** Which operations keep the timers in step with the phase *)

Definition tmC (st : Status) (pre round : option TimerId) : Prop :=
  (is_Some pre → st = preCountdown) ∧ (is_Some round → st = inRound).

Lemma timersMatchPhase_tmC w :
  timersMatchPhase w
  ↔ tmC (status w) (preRoundIntervalId w) (roundTimerIntervalId w).
Proof. done. Qed.

Lemma tmC_None st : tmC st None None.
Proof. split; by intros [? ?]. Qed.

Lemma tmC_idle st pre round :
  tmC st pre round → st ≠ preCountdown → st ≠ inRound →
  pre = None ∧ round = None.
Proof.
  intros [H1 H2] Hp Hr. split.
  - destruct pre; [|done]. destruct Hp. by apply H1.
  - destruct round; [|done]. destruct Hr. by apply H2.
Qed.

Lemma TM_onlyEmits w w' :
  onlyEmits w w' → timersMatchPhase w → timersMatchPhase w'.
Proof. by intros [m ->]. Qed.

Lemma TM_clearGameIntervals st w :
  timersMatchPhase (set_status st (clearGameIntervals w)).
Proof.
  apply timersMatchPhase_tmC. simpl.
  destruct (clearGameIntervals_frame w _ eq_refl)
    as (_ & _ & _ & _ & _ & _ & _ & _ & _ & _ & _ & _ & _ & -> & ->).
  apply tmC_None.
Qed.

Lemma TM_gameEnded reason w :
  timersMatchPhase w → timersMatchPhase (gameEnded reason w).
Proof.
  intros H. destruct (registered w) eqn:Hreg.
  - apply timersMatchPhase_tmC.
    destruct (gameEnded_timers reason w Hreg) as [-> ->]. apply tmC_None.
  - unfold gameEnded. by rewrite Hreg.
Qed.

Lemma TM_checkAllReleasedOnServer w :
  timersMatchPhase w → timersMatchPhase (checkAllReleasedOnServer w).
Proof.
  intros H. unfold checkAllReleasedOnServer.
  destruct (negb (registered w) || _) eqn:Hc; [done|].
  destruct (forallb _ _); [|done].
  apply orb_false_iff in Hc as [Hreg _]. apply negb_false_iff in Hreg.
  assert (registered (clearGameIntervals w) = true) as Hreg'.
  { by destruct (clearGameIntervals_frame w _ eq_refl) as (_&_&_& -> &_). }
  destruct (endRoundOnServer_unfold _ Hreg')
    as (_ & Hs & _ & _ & _ & Hp & Hr & _).
  apply timersMatchPhase_tmC. rewrite Hs, Hp, Hr.
  destruct (clearGameIntervals_frame w _ eq_refl)
    as (_ & _ & _ & _ & _ & _ & _ & _ & _ & _ & _ & _ & _ & -> & ->).
  apply tmC_None.
Qed.

Lemma TM_roundTick w : timersMatchPhase w → timersMatchPhase (roundTick w).
Proof.
  intros H. unfold roundTick. apply TM_checkAllReleasedOnServer.
  eapply TM_onlyEmits; [apply emit_onlyEmits|].
  destruct (forEachFlag _ _ _).2;
    [eapply TM_onlyEmits; [apply broadcastPlayerStatusUpdate_onlyEmits|]|];
    exact H.
Qed.

Lemma TM_countdownTick w :
  timersMatchPhase w → timersMatchPhase (countdownTick w).
Proof.
  intros [H1 H2]. unfold countdownTick. simpl.
  destruct (_ <=? _); [|done].
  unfold handlePreRoundEndOnServer. simpl.
  assert (∀ x, registered match preRoundIntervalId w with
                          | Some t => clearInterval t x | None => x end
               = registered x
               ∧ status match preRoundIntervalId w with
                        | Some t => clearInterval t x | None => x end
                 = status x
               ∧ roundTimerIntervalId match preRoundIntervalId w with
                                      | Some t => clearInterval t x
                                      | None => x end
                 = roundTimerIntervalId x) as Hx.
  { intros x. by destruct (preRoundIntervalId w). }
  match goal with |- context [registered (match _ with Some t => clearInterval t ?x | None => _ end)] =>
    destruct (Hx x) as (Hr & Hs & Ht) end.
  rewrite Hr. simpl. destruct (registered w); simpl.
  - destruct (_ <? _)%nat; apply timersMatchPhase_tmC; simpl;
      rewrite ?Hs, ?Ht; simpl; split; try done; by intros [? ?].
  - apply timersMatchPhase_tmC. simpl. rewrite Hs, Ht. simpl.
    split; [by intros [? ?]|done].
Qed.

Lemma TM_startPreRoundCountdown w :
  timersMatchPhase w → timersMatchPhase (startPreRoundCountdown w).
Proof.
  intros H. unfold startPreRoundCountdown.
  destruct (negb (registered w) || Status_eqb (status w) preCountdown
            || Status_eqb (status w) inRound) eqn:Hc; [done|].
  destruct (negb (shouldStartCountdown w)); [done|].
  apply orb_false_iff in Hc as [Hc Hin].
  apply orb_false_iff in Hc as [_ Hpc].
  destruct (tmC_idle _ _ _ H) as [_ Hround].
  { intros E. apply Status_eqb_eq in E. congruence. }
  { intros E. apply Status_eqb_eq in E. congruence. }
  apply timersMatchPhase_tmC.
  match goal with |- context [setInterval _ ?x] =>
    assert (onlyEmits (set_heap (forEach resetForCountdown (players w) (heap w))
                         (set_preRoundCountdown 5 (set_status preCountdown w))) x)
      as [m ->]
  end.
  { eapply onlyEmits_trans; [|apply emit_onlyEmits].
    apply broadcastPlayerStatusUpdate_onlyEmits. }
  simpl. rewrite Hround. split; [done|by intros [? ?]].
Qed.

Lemma TM_afterRemoval d w :
  timersMatchPhase w → timersMatchPhase (afterRemoval d w).
Proof.
  intros H. unfold afterRemoval.
  eapply TM_onlyEmits; [apply broadcastPlayerStatusUpdate_onlyEmits|].
  destruct (is_active_phase (status w) && _); [by apply TM_gameEnded|].
  destruct (Status_eqb (status w) preCountdown && wasHolding w d
            && is_Some_b (preRoundIntervalId w)) eqn:Hc.
  - apply andb_true_iff in Hc as [Hc _]. apply andb_true_iff in Hc as [Hst _].
    apply Status_eqb_eq in Hst.
    assert (timersMatchPhase
              (set_status waiting
                 (set_preRoundIntervalId None
                    match preRoundIntervalId w with
                    | Some t => clearInterval t w
                    | None => w
                    end))) as H1.
    { apply timersMatchPhase_tmC. destruct H as [_ H2].
      destruct (preRoundIntervalId w); simpl;
        (split; [by intros [? ?]|]); intros Hr; specialize (H2 Hr);
        congruence. }
    destruct (forallb _ _); [by apply TM_startPreRoundCountdown|exact H1].
  - destruct (Status_eqb (status w) inRound && _);
      [by apply TM_checkAllReleasedOnServer|done].
Qed.

Lemma TM_leaveRoom s w : timersMatchPhase w → timersMatchPhase (leaveRoom s w).
Proof.
  intros H. unfold leaveRoom. destruct (_ && _); [|done].
  destruct (Nat.eqb _ _).
  - apply timersMatchPhase_tmC. simpl.
    match goal with |- context [clearGameIntervals ?x] =>
      destruct (clearGameIntervals_frame x _ eq_refl)
        as (_ & _ & _ & _ & _ & _ & _ & _ & _ & _ & _ & _ & _ & -> & ->) end.
    apply tmC_None.
  - by apply TM_afterRemoval.
Qed.

Lemma TM_playerHolding s w :
  timersMatchPhase w → timersMatchPhase (playerHolding s w).
Proof.
  intros H. unfold playerHolding. destruct (negb _); [done|].
  destruct (find_player s w) as [r|]; [|done].
  destruct (holds _ _ r); [done|]. destruct (holds _ _ r); [|done].
  match goal with |- context [broadcastPlayerStatusUpdate ?x] =>
    destruct (broadcastPlayerStatusUpdate_onlyEmits x) as [m ->] end.
  simpl.
  assert (timersMatchPhase
            (set_out (out w ++ m)
               (set_heap (alter (set_isHoldingButton true) r (heap w)) w)))
    as H1 by done.
  case_ifs; try done; by apply TM_startPreRoundCountdown.
Qed.

Lemma TM_playerReleased s w :
  timersMatchPhase w → timersMatchPhase (playerReleased s w).
Proof.
  intros H. unfold playerReleased. destruct (negb _); [done|].
  destruct (find_player s w) as [r|]; [|done].
  destruct (holds _ _ r); [|done]. simpl.
  destruct (_ && _).
  - eapply TM_onlyEmits; [apply broadcastPlayerStatusUpdate_onlyEmits|]. done.
  - match goal with |- context [broadcastPlayerStatusUpdate ?x] =>
      destruct (broadcastPlayerStatusUpdate_onlyEmits x) as [m ->] end.
    simpl. destruct (Status_eqb _ _); [|done].
    by apply TM_checkAllReleasedOnServer.
Qed.

Lemma TM_joinRoom s playerName w :
  timersMatchPhase w → timersMatchPhase (joinRoom s playerName w).
Proof.
  intros H. unfold joinRoom.
  destruct (negb (registered w)); [done|].
  destruct (negb (joinable _)); [done|].
  destruct (_ <=? _)%nat; [done|]. destruct (existsb _ _); [done|].
  destruct (deref _ _); [done|].
  eapply TM_onlyEmits; [apply replayPhase_onlyEmits|].
  eapply TM_onlyEmits; [apply broadcastPlayerStatusUpdate_onlyEmits|]. done.
Qed.

(** X8.  Hold, release, leave, disconnect, join, the two timer ticks, and
    the round resolution and game over that run inside them, all keep the
    timer handles in step with the phase, from any state: if a non-null
    countdown handle implies [preCountdown] and a non-null bidding handle
    implies [inRound] before the event, the same holds after it.  (The
    delayed [startNewRound] is the one operation left out.) *)
Theorem timersMatchPhase_step (e : Event) (w : World) :
  e ≠ TimeoutFires → timersMatchPhase w → timersMatchPhase (step e w).
Proof.
  intros He H. unfold step. destruct (crashed w); [done|].
  destruct e; try done.
  - by apply TM_joinRoom.
  - by apply TM_leaveRoom.
  - by apply TM_playerHolding.
  - by apply TM_playerReleased.
  - by apply TM_leaveRoom.
  - destruct (timer_kind t w) as [[|]|];
      [by apply TM_countdownTick|by apply TM_roundTick|done].
Qed.

(** ** The room around the round: membership, registry, round counter *)

(** [sameRoom w w']: the step from [w] to [w'] touched neither the player
    list, nor the sockets attached, nor the registry, nor the round counters,
    and created no player object. *)
Definition sameRoom (w w' : World) : Prop :=
  players w' = players w ∧ attached w' = attached w
  ∧ registered w' = registered w ∧ maxRounds w' = maxRounds w
  ∧ currentRound w' = currentRound w ∧ crashed w' = crashed w
  ∧ length (heap w') = length (heap w).

Lemma sameRoom_refl w : sameRoom w w.
Proof. by repeat split. Qed.

Lemma sameRoom_trans w1 w2 w3 : sameRoom w1 w2 → sameRoom w2 w3 → sameRoom w1 w3.
Proof.
  intros (?&?&?&?&?&?&?) (?&?&?&?&?&?&?). repeat split; congruence.
Qed.

Lemma sameRoom_onlyEmits w w' : onlyEmits w w' → sameRoom w w'.
Proof. intros [m ->]. by repeat split. Qed.

Lemma sameRoom_clearGameIntervals w : sameRoom w (clearGameIntervals w).
Proof.
  destruct (clearGameIntervals_frame w _ eq_refl)
    as (Hh & Hp & _ & Hr & _ & Hc & Hm & _ & _ & Ha & Hx & _).
  unfold sameRoom. rewrite Hh, Hp, Hr, Hc, Hm, Ha, Hx. by repeat split.
Qed.

Lemma sameRoom_gameEnded reason w : sameRoom w (gameEnded reason w).
Proof.
  destruct (gameEnded_frame reason w _ eq_refl)
    as (Hh & Hp & Hr & Hc & Hm & _ & _ & Ha & Hx).
  unfold sameRoom. rewrite Hh, Hp, Hr, Hc, Hm, Ha, Hx. by repeat split.
Qed.

Lemma sameRoom_startPreRoundCountdown w : sameRoom w (startPreRoundCountdown w).
Proof.
  unfold startPreRoundCountdown.
  destruct (_ || _ || _); [apply sameRoom_refl|].
  destruct (negb (shouldStartCountdown w)); [apply sameRoom_refl|].
  match goal with |- context [setInterval _ ?x] =>
    assert (onlyEmits (set_heap (forEach resetForCountdown (players w) (heap w))
                         (set_preRoundCountdown 5 (set_status preCountdown w))) x)
      as [m ->]
  end.
  { eapply onlyEmits_trans; [|apply emit_onlyEmits].
    apply broadcastPlayerStatusUpdate_onlyEmits. }
  unfold sameRoom. simpl. rewrite length_forEach. by repeat split.
Qed.

Lemma sameRoom_endRoundOnServer w : sameRoom w (endRoundOnServer w).
Proof.
  unfold endRoundOnServer.
  destruct (registered w) eqn:Hreg; simpl; [|apply sameRoom_refl].
  set (m := (scanWinners (heap w) (activePlayersInRound w)).1).
  set (ws := (scanWinners (heap w) (activePlayersInRound w)).2).
  unfold broadcastPlayerStatusUpdate, sameRoom.
  destruct ((m =? 0) || Nat.eqb (length ws) 0); simpl; rewrite ?Hreg; simpl.
  - rewrite length_forEach. by repeat split.
  - destruct ws as [|r1 [|r2 ws]]; simpl; rewrite ?Hreg; simpl;
      rewrite !length_forEach, ?length_alter; by repeat split.
Qed.

Lemma sameRoom_checkAllReleasedOnServer w :
  sameRoom w (checkAllReleasedOnServer w).
Proof.
  unfold checkAllReleasedOnServer.
  destruct (_ || _); [apply sameRoom_refl|].
  destruct (forallb _ _); [|apply sameRoom_refl].
  eapply sameRoom_trans;
    [apply sameRoom_clearGameIntervals|apply sameRoom_endRoundOnServer].
Qed.

Lemma sameRoom_roundTick w : sameRoom w (roundTick w).
Proof.
  unfold roundTick.
  eapply sameRoom_trans; [|apply sameRoom_checkAllReleasedOnServer].
  eapply sameRoom_trans; [|apply sameRoom_onlyEmits, emit_onlyEmits].
  eapply sameRoom_trans;
    [|destruct (forEachFlag _ _ _).2;
      [apply sameRoom_onlyEmits, broadcastPlayerStatusUpdate_onlyEmits
      |apply sameRoom_refl]].
  unfold sameRoom. simpl. rewrite forEachFlag_fst, length_forEach.
  by repeat split.
Qed.

Lemma sameRoom_handlePreRoundEndOnServer w :
  sameRoom w (handlePreRoundEndOnServer w).
Proof.
  unfold handlePreRoundEndOnServer.
  destruct (registered w); simpl; [|apply sameRoom_refl].
  destruct (_ <? _)%nat; unfold sameRoom; simpl; rewrite length_forEach;
    by repeat split.
Qed.

Lemma sameRoom_countdownTick w : sameRoom w (countdownTick w).
Proof.
  unfold countdownTick. simpl.
  destruct (_ <=? _); [|by repeat split].
  eapply sameRoom_trans; [|apply sameRoom_handlePreRoundEndOnServer].
  destruct (preRoundIntervalId w); by repeat split.
Qed.

Lemma sameRoom_afterRemoval d w : sameRoom w (afterRemoval d w).
Proof.
  unfold afterRemoval.
  eapply sameRoom_trans;
    [|apply sameRoom_onlyEmits, broadcastPlayerStatusUpdate_onlyEmits].
  destruct (is_active_phase (status w) && _); [apply sameRoom_gameEnded|].
  destruct (Status_eqb (status w) preCountdown && _ && _).
  - destruct (forallb _ _).
    + eapply sameRoom_trans; [|apply sameRoom_startPreRoundCountdown].
      destruct (preRoundIntervalId w); by repeat split.
    + destruct (preRoundIntervalId w); by repeat split.
  - destruct (_ && _);
      [apply sameRoom_checkAllReleasedOnServer|apply sameRoom_refl].
Qed.

Lemma sameRoom_playerHolding s w : sameRoom w (playerHolding s w).
Proof.
  unfold playerHolding. destruct (negb _); [apply sameRoom_refl|].
  destruct (find_player s w) as [r|]; [|apply sameRoom_refl].
  destruct (holds _ _ r); [apply sameRoom_refl|].
  destruct (holds _ _ r); [|apply sameRoom_refl].
  match goal with |- context [broadcastPlayerStatusUpdate ?x] =>
    destruct (broadcastPlayerStatusUpdate_onlyEmits x) as [m ->] end.
  simpl.
  assert (sameRoom w (set_out (out w ++ m)
            (set_heap (alter (set_isHoldingButton true) r (heap w)) w))) as H1.
  { unfold sameRoom. simpl. rewrite length_alter. by repeat split. }
  case_ifs; try done;
    (eapply sameRoom_trans; [exact H1|apply sameRoom_startPreRoundCountdown]).
Qed.

(** [playerReleased] apart from the one path that throws. *)
Lemma sameRoom_playerReleased s w :
  sameRoom w (playerReleased s w)
  ∨ (is_attached s w = true ∧ registered w = true ∧ find_player s w = None
     ∧ playerReleased s w = set_crashed true w).
Proof.
  unfold playerReleased.
  destruct (is_attached s w && registered w) eqn:Hc; simpl;
    [|left; apply sameRoom_refl].
  apply andb_true_iff in Hc as [Ha Hr].
  destruct (find_player s w) as [r|]; [left|by right].
  destruct (holds _ _ r); [|apply sameRoom_refl]. simpl.
  assert (∀ f x, sameRoom x (set_heap (alter f r (heap x)) x)) as H1.
  { intros f x. unfold sameRoom. simpl. rewrite length_alter. by repeat split. }
  destruct (_ && _).
  - eapply sameRoom_trans;
      [|apply sameRoom_onlyEmits, broadcastPlayerStatusUpdate_onlyEmits].
    eapply sameRoom_trans; [apply (H1 (set_isHoldingButton false))|].
    apply (H1 (set_hasOptedOut true)).
  - match goal with |- context [broadcastPlayerStatusUpdate ?x] =>
      destruct (broadcastPlayerStatusUpdate_onlyEmits x) as [m ->] end.
    simpl.
    assert (sameRoom w (set_out (out w ++ m)
              (set_heap (alter (set_isHoldingButton false) r (heap w)) w)))
      as H2.
    { unfold sameRoom. simpl. rewrite length_alter. by repeat split. }
    destruct (Status_eqb _ _); [|done].
    eapply sameRoom_trans; [exact H2|apply sameRoom_checkAllReleasedOnServer].
Qed.

(** [startNewRound] never touches the membership; the round counter is kept
    or grows by one, and only while it is below [maxRounds]. *)
Lemma startNewRound_room w :
  players (startNewRound w) = players w
  ∧ attached (startNewRound w) = attached w
  ∧ registered (startNewRound w) = registered w
  ∧ maxRounds (startNewRound w) = maxRounds w
  ∧ crashed (startNewRound w) = crashed w
  ∧ length (heap (startNewRound w)) = length (heap w)
  ∧ (currentRound (startNewRound w) = currentRound w
     ∨ (currentRound (startNewRound w) = currentRound w + 1
        ∧ currentRound w < maxRounds w)).
Proof.
  assert (∀ w', sameRoom w w' →
            players w' = players w ∧ attached w' = attached w
            ∧ registered w' = registered w ∧ maxRounds w' = maxRounds w
            ∧ crashed w' = crashed w ∧ length (heap w') = length (heap w)
            ∧ (currentRound w' = currentRound w
               ∨ (currentRound w' = currentRound w + 1
                  ∧ currentRound w < maxRounds w))) as Hs.
  { intros w' (?&?&?&?&?&?&?). repeat split; auto. }
  unfold startNewRound.
  destruct (registered w) eqn:Hreg; simpl; [|apply Hs, sameRoom_refl].
  destruct (_ && _); [apply Hs, sameRoom_gameEnded|].
  destruct (Z.leb_spec (maxRounds w) (currentRound w));
    [apply Hs, sameRoom_gameEnded|].
  destruct (announceRound_onlyEmits (prepareRound w)) as [m ->].
  simpl. rewrite length_forEach. repeat split; auto.
Qed.

(** What a join does, in full. *)
Lemma joinRoom_cases s playerName w :
  (∃ err, joinRoom s playerName w = emit (EmJoinCallback s (inl err)) w)
  ∨ (registered w = true ∧ deref (heap w) (take 1 (players w)) = []
     ∧ joinRoom s playerName w = set_crashed true w)
  ∨ (∃ r0 rest p0 more,
       registered w = true ∧ joinable (status w) = true
       ∧ (length (players w) < 4)%nat
       ∧ ¬ nameUsed playerName w
       ∧ players w = r0 :: rest ∧ heap w !! r0 = Some p0
       ∧ joinRoom s playerName w
         = set_out (out w ++ more)
             (set_attached (s :: attached w)
                (set_players (players w ++ [length (heap w)])
                   (set_heap (heap w ++ [newPlayerRecord s playerName (time p0)])
                      w)))).
Proof.
  unfold joinRoom.
  destruct (registered w) eqn:Hreg; simpl; [|left; by eexists].
  destruct (joinable (status w)) eqn:Hj; simpl; [|left; by eexists].
  destruct (Nat.leb_spec 4 (length (players w))); [left; by eexists|].
  destruct (existsb _ _) eqn:Hn; [left; by eexists|].
  right.
  destruct (deref (heap w) (take 1 (players w))) as [|first tl] eqn:Hd;
    [left; by repeat split|].
  right. destruct (players w) as [|r0 rest] eqn:Hps; [done|].
  simpl in Hd. destruct (heap w !! r0) as [p0|] eqn:Hp0; [|done].
  injection Hd as <- _. rewrite <- Hps.
  match goal with |- context [replayPhase s ?x] =>
    destruct (replayPhase_onlyEmits s x) as [m2 ->] end.
  match goal with |- context [broadcastPlayerStatusUpdate ?x] =>
    destruct (broadcastPlayerStatusUpdate_onlyEmits x) as [m1 ->] end.
  exists r0, rest, p0. eexists. repeat split; try done.
  - by rewrite Hps.
  - intros Hu. apply nameUsed_existsb in Hu. rewrite Hps in Hu. congruence.
  - simpl. unfold set_out. simpl. rewrite <- !app_assoc. reflexivity.
Qed.

(** [roomStep w w']: as [sameRoom], except that the round counter may have
    moved on by one, and then only below [maxRounds]. *)
Definition roomStep (w w' : World) : Prop :=
  players w' = players w ∧ attached w' = attached w
  ∧ registered w' = registered w ∧ maxRounds w' = maxRounds w
  ∧ crashed w' = crashed w ∧ length (heap w') = length (heap w)
  ∧ (currentRound w' = currentRound w
     ∨ (currentRound w' = currentRound w + 1 ∧ currentRound w < maxRounds w)).

Lemma sameRoom_roomStep w w' : sameRoom w w' → roomStep w w'.
Proof. intros (?&?&?&?&?&?&?). repeat split; auto. Qed.

Definition sameIdentity (a b : Player) : Prop := id b = id a ∧ name b = name a.

Lemma sameIdentity_step e w : heapRel sameIdentity (heap w) (heap (step e w)).
Proof.
  assert (∀ q, sameIdentity q (preRoundEndPlayer q)) as H1.
  { intros q. unfold preRoundEndPlayer. by case_ifs. }
  assert (∀ q, sameIdentity q (tickPlayer q).1) as H2.
  { intros q. unfold tickPlayer. by case_ifs. }
  apply heapRel_step; try done.
  intros a b c [? ?] [? ?]. split; congruence.
Qed.

Lemma heapRel_back (R : Player → Player → Prop) h h' r p' :
  heapRel R h h' → length h' = length h → h' !! r = Some p' →
  ∃ p, h !! r = Some p ∧ R p p'.
Proof.
  intros HR Hlen Hp'.
  destruct (lookup_lt_is_Some_2 h r) as [p Hp].
  { rewrite <- Hlen. apply lookup_lt_is_Some. by exists p'. }
  destruct (HR r p Hp) as (q & Hq & Hpq). exists p. split; [done|].
  by assert (q = p') as <- by congruence.
Qed.

(** *** Membership invariants *)

Definition memberOf (s : SocketId) (h : list Player) (ps : list Ref) : Prop :=
  ∃ r p, In r ps ∧ h !! r = Some p ∧ id p = s.

Definition distinctNames (h : list Player) (ps : list Ref) : Prop :=
  ∀ r1 r2 p1 p2, In r1 ps → In r2 ps →
    h !! r1 = Some p1 → h !! r2 = Some p2 → name p1 = name p2 → r1 = r2.

Definition roomInv (w : World) : Prop :=
  (length (players w) ≤ 4)%nat
  ∧ distinctNames (heap w) (players w)
  ∧ (registered w = true →
     ∀ s, In s (attached w) → memberOf s (heap w) (players w))
  ∧ (registered w = true →
     1 ≤ currentRound w ∧ currentRound w ≤ maxRounds w ∧ maxRounds w ≤ 50)
  ∧ crashed w = false.

Lemma memberOf_find s w :
  memberOf s (heap w) (players w) → ∃ r, find_player s w = Some r.
Proof.
  intros (r & p & Hin & Hp & Hid). unfold find_player.
  destruct (List.find _ _) as [r'|] eqn:Hf; [by exists r'|].
  pose proof (find_none _ _ Hf r Hin) as Hr. unfold holds, has_id in Hr.
  rewrite Hp, Hid, Nat.eqb_refl in Hr. done.
Qed.

Lemma is_attached_In s w : is_attached s w = true ↔ In s (attached w).
Proof.
  unfold is_attached. rewrite existsb_exists. split.
  - intros (x & Hx & ->%Nat.eqb_eq). done.
  - intros Hs. exists s. split; [done|apply Nat.eqb_refl].
Qed.

Lemma roomInv_roomStep w w' :
  roomStep w w' → heapRel sameIdentity (heap w) (heap w') →
  roomInv w → roomInv w'.
Proof.
  intros (Hp & Ha & Hr & Hm & Hx & Hl & Hc) HR (H4 & Hn & Hat & Hrd & Hcr).
  unfold roomInv. rewrite Hp, Ha, Hr, Hm, Hx.
  split; [done|]. split; [|split; [|split; [|done]]].
  - intros r1 r2 p1' p2' Hin1 Hin2 Hp1' Hp2' Hnm.
    destruct (heapRel_back _ _ _ _ _ HR Hl Hp1') as (p1 & Hp1 & _ & Hn1).
    destruct (heapRel_back _ _ _ _ _ HR Hl Hp2') as (p2 & Hp2 & _ & Hn2).
    apply (Hn r1 r2 p1 p2); try done. congruence.
  - intros Hreg s Hs. destruct (Hat Hreg s Hs) as (r & p & Hin & Hp0 & Hid).
    destruct (HR r p Hp0) as (p' & Hp' & Hid' & _).
    exists r, p'. repeat split; try done. congruence.
  - intros Hreg. specialize (Hrd Hreg). destruct Hc as [->|[-> ?]]; lia.
Qed.

Lemma roomInv_sameRoom w w' :
  sameRoom w w' → heapRel sameIdentity (heap w) (heap w') →
  roomInv w → roomInv w'.
Proof. intros H. apply roomInv_roomStep. by apply sameRoom_roomStep. Qed.

Lemma sameIdentity_refl p : sameIdentity p p.
Proof. done. Qed.

Lemma sameIdentity_trans a b c :
  sameIdentity a b → sameIdentity b c → sameIdentity a c.
Proof. intros [? ?] [? ?]. split; congruence. Qed.

Lemma roomInv_joinRoom s playerName w :
  Inv w → roomInv w → roomInv (joinRoom s playerName w).
Proof.
  intros ((_ & _ & Hv & _ & Hne) & _) HI.
  destruct (joinRoom_cases s playerName w)
    as [[err ->]|[(Hreg & Hd & _)|(r0 & rest & p0 & more & Hreg & _ & Hlen & Hnu
                                   & Hps & Hp0 & ->)]].
  - eapply roomInv_sameRoom; [apply sameRoom_onlyEmits, emit_onlyEmits| |done].
    apply heapRel_refl, sameIdentity_refl.
  - (* the room has a first player *)
    exfalso. destruct (players w) as [|r0 rest] eqn:Hps; [by apply Hne|].
    destruct (lookup_lt_is_Some_2 (heap w) r0) as [p0 Hp0].
    { apply Hv. by left. }
    simpl in Hd. by rewrite Hp0 in Hd.
  - destruct HI as (H4 & Hn & Hat & Hrd & Hcr). unfold roomInv. simpl.
    assert (∀ r, In r (players w) →
              (heap w ++ [newPlayerRecord s playerName (time p0)]) !! r
              = heap w !! r) as Hold.
    { intros r Hr. apply lookup_app_l. by apply Hv. }
    assert ((heap w ++ [newPlayerRecord s playerName (time p0)])
              !! length (heap w)
            = Some (newPlayerRecord s playerName (time p0))) as Hnew.
    { by rewrite lookup_app_r, Nat.sub_diag. }
    split; [rewrite length_app; simpl; lia|].
    split; [|split; [|split; [|done]]].
    + intros r1 r2 p1 p2 [H1|[<-|[]]]%in_app_iff [H2|[<-|[]]]%in_app_iff.
      * rewrite !Hold by done. by apply Hn.
      * rewrite (Hold r1), Hnew by done. intros Hp1 [= <-] Hnm.
        destruct Hnu. exists r1, p1. by repeat split.
      * rewrite Hnew, (Hold r2) by done. intros [= <-] Hp2 Hnm.
        destruct Hnu. exists r2, p2. by repeat split.
      * done.
    + intros _ s' [<-|Hs'].
      * exists (length (heap w)), (newPlayerRecord s playerName (time p0)).
        split; [apply in_app_iff; right; by left|by split].
      * destruct (Hat Hreg s' Hs') as (r & p & Hin & Hp & Hid).
        exists r, p. split; [apply in_app_iff; by left|].
        split; [by rewrite Hold|done].
    + intros _. by apply Hrd.
Qed.

Lemma roomInv_leaveRoom s w : roomInv w → roomInv (leaveRoom s w).
Proof.
  intros HI.
  destruct (is_attached s w && registered w) eqn:Hc;
    [|unfold leaveRoom; by rewrite Hc].
  apply andb_true_iff in Hc as [Ha Hreg]. rewrite leaveRoom_unfold by done.
  destruct HI as (H4 & Hn & Hat & Hrd & Hcr).
  assert (roomInv (detach s (set_players (remaining s w) w))) as H1.
  { unfold roomInv, remaining. simpl.
    split. { etrans; [apply filter_length_le|done]. }
    split; [|split; [|split; [|done]]].
    - intros r1 r2 p1 p2 [H1 _]%filter_In [H2 _]%filter_In. by apply Hn.
    - intros _ s' [Hs' Hne]%filter_In.
      destruct (Hat Hreg s' Hs') as (r & p & Hin & Hp & Hid).
      exists r, p. split; [|done]. apply filter_In. split; [done|].
      unfold holds, has_id. rewrite Hp, Hid.
      apply negb_true_iff in Hne. by rewrite Nat.eqb_sym, Hne.
    - done. }
  destruct (Nat.eqb _ 0).
  - destruct H1 as (H4' & Hn' & _ & _ & Hcr'). unfold roomInv. simpl.
    match goal with |- context [clearGameIntervals ?x] =>
      destruct (clearGameIntervals_frame x _ eq_refl)
        as (-> & -> & _ & _ & _ & _ & _ & _ & _ & _ & -> & _) end.
    by repeat split.
  - eapply roomInv_sameRoom;
      [apply sameRoom_afterRemoval| |exact H1].
    apply heapRel_afterRemoval;
      solve [done | apply sameIdentity_trans | intros; by split].
Qed.

Lemma roomInv_playerReleased s w : roomInv w → roomInv (playerReleased s w).
Proof.
  intros HI.
  destruct (sameRoom_playerReleased s w) as [Hs|(Ha & Hreg & Hf & _)].
  - eapply roomInv_sameRoom; [exact Hs| |done].
    apply heapRel_playerReleased;
      solve [done | apply sameIdentity_trans | intros; by split].
  - destruct HI as (_ & _ & Hat & _).
    apply is_attached_In in Ha.
    destruct (memberOf_find s w (Hat Hreg s Ha)) as [r Hr]. congruence.
Qed.

Lemma roomInv_step e w : Inv w → roomInv w → roomInv (step e w).
Proof.
  intros HInv HI.
  assert (crashed w = false) as Hcr by (by destruct HI as (_&_&_&_&?)).
  assert (∀ e', sameRoom w (step e' w) → roomInv (step e' w)) as Hsame.
  { intros e' Hs. eapply roomInv_sameRoom; [exact Hs|apply sameIdentity_step|done]. }
  destruct e; [| | apply Hsame | | | apply Hsame | |]; unfold step; rewrite Hcr.
  - by apply roomInv_joinRoom.
  - by apply roomInv_leaveRoom.
  - apply sameRoom_playerHolding.
  - by apply roomInv_playerReleased.
  - by apply roomInv_leaveRoom.
  - destruct (timer_kind t w) as [[|]|];
      [apply sameRoom_countdownTick|apply sameRoom_roundTick|apply sameRoom_refl].
  - destruct (timeouts w) as [|n]; [done|].
    eapply roomInv_roomStep;
      [|apply (heapRel_startNewRound sameIdentity);
        solve [done | apply sameIdentity_trans | intros; by split]
       |exact HI].
    destruct (startNewRound_room (set_timeouts n w))
      as (?&?&?&?&?&?&?). by repeat split.
  - destruct HI as (H4 & Hn & Hat & Hrd & _). unfold roomInv. simpl.
    repeat split; try done; try (by apply Hrd).
    intros Hreg s' [Hs' _]%filter_In. by apply Hat.
Qed.

Lemma roomInv_createRoom s playerName initialTime maxRoundsArg :
  roomInv (createRoom s playerName initialTime maxRoundsArg).
Proof.
  assert (roomInv emptyWorld) as He.
  { unfold roomInv. simpl. split; [lia|]. split; [by intros ? ? ? ? []|done]. }
  unfold createRoom.
  destruct (Z.ltb_spec initialTime 10); simpl.
  { eapply roomInv_sameRoom; [apply sameRoom_onlyEmits, emit_onlyEmits| |done].
    apply heapRel_refl, sameIdentity_refl. }
  destruct (Z.ltb_spec 600 initialTime); simpl.
  { eapply roomInv_sameRoom; [apply sameRoom_onlyEmits, emit_onlyEmits| |done].
    apply heapRel_refl, sameIdentity_refl. }
  destruct (Z.ltb_spec maxRoundsArg 1); simpl.
  { eapply roomInv_sameRoom; [apply sameRoom_onlyEmits, emit_onlyEmits| |done].
    apply heapRel_refl, sameIdentity_refl. }
  destruct (Z.ltb_spec 50 maxRoundsArg); simpl.
  { eapply roomInv_sameRoom; [apply sameRoom_onlyEmits, emit_onlyEmits| |done].
    apply heapRel_refl, sameIdentity_refl. }
  unfold startNewRound. simpl.
  destruct (Z.leb_spec maxRoundsArg 0); [lia|].
  match goal with |- roomInv (announceRound ?x) =>
    destruct (announceRound_onlyEmits x) as [m ->] end.
  unfold roomInv. simpl. split; [lia|]. split; [|split; [|split; [|done]]].
  - by intros r1 r2 p1 p2 [<-|[]] [<-|[]].
  - intros _ s' [<-|[]]. exists 0%nat. eexists. split; [by left|]. by split.
  - intros _. lia.
Qed.

Lemma reachable_roomInv w : reachable w → roomInv w.
Proof.
  induction 1 as [|e w Hw IH]; [apply roomInv_createRoom|].
  apply roomInv_step; [by apply reachable_Inv|done].
Qed.

Lemma deref_cons_valid h r ps p :
  h !! r = Some p → deref h (r :: ps) = p :: deref h ps.
Proof. intros Hp. unfold deref. simpl. by rewrite Hp. Qed.

Lemma In_deref h ps q :
  In q (deref h ps) ↔ ∃ r, In r ps ∧ h !! r = Some q.
Proof.
  unfold deref. rewrite <- list_elem_of_In, list_elem_of_omap.
  split; intros (r & Hr & Hq); exists r; split; try done;
    by apply list_elem_of_In.
Qed.

Lemma distinctNames_NoDup h ps :
  List.NoDup ps → validRefs h ps → distinctNames h ps →
  List.NoDup (name <$> deref h ps).
Proof.
  induction ps as [|r ps IH]; intros Hnd Hv Hn; [constructor|].
  inversion_clear Hnd as [|? ? Hr Hnd'].
  destruct (lookup_lt_is_Some_2 h r) as [p Hp]; [apply Hv; by left|].
  rewrite (deref_cons_valid _ _ _ _ Hp). simpl. constructor.
  - rewrite <- list_elem_of_In, list_elem_of_fmap.
    intros (q & Hnm & Hq%list_elem_of_In%In_deref).
    destruct Hq as (r' & Hr' & Hq).
    assert (r = r') as <-; [|done].
    apply (Hn r r' p q); try done; [by left|by right].
  - apply IH; [done|intros r' Hr'; apply Hv; by right|].
    intros r1 r2 p1 p2 H1 H2. apply Hn; by right.
Qed.

(** X1.  A room never holds more than four players: in every reachable
    state of the room [game.players] has at most four entries. *)
Theorem room_capacity (w : World) :
  reachable w → (length (players w) ≤ 4)%nat.
Proof. intros Hw. by destruct (reachable_roomInv w Hw) as (? & _). Qed.

(** X2.  No two players of a room share a name: in every reachable state the
    names of the records of [game.players], read in order, are pairwise
    different, and so are the references themselves. *)
Theorem player_names_distinct (w : World) :
  reachable w →
  List.NoDup (name <$> deref (heap w) (players w)) ∧ List.NoDup (players w).
Proof.
  intros Hw. destruct (reachable_roomInv w Hw) as (_ & Hn & _).
  destruct (reachable_Inv w Hw) as ((Hnd & _ & Hv & _) & _).
  split; [by apply distinctNames_NoDup|done].
Qed.

(** X3.  On a reachable room the two reads of a field of a possibly missing
    player never fail: [game.players[0].time] in [joinRoom] and
    [player.name] in the last branch of [playerReleased] are never reached
    with an undefined object, because a room in the registry is never empty
    and every socket whose [roomId] names it has a player record there. *)
Theorem player_lookups_never_fail (w : World) :
  reachable w →
  crashed w = false
  ∧ (registered w = true →
     players w ≠ []
     ∧ ∀ s, is_attached s w = true →
         ∃ r p, find_player s w = Some r ∧ heap w !! r = Some p ∧ id p = s).
Proof.
  intros Hw. destruct (reachable_roomInv w Hw) as (_ & _ & Hat & _ & Hcr).
  destruct (reachable_Inv w Hw) as ((_ & _ & _ & _ & Hne) & _).
  split; [done|]. intros Hreg. split; [by apply Hne|].
  intros s Hs%is_attached_In.
  destruct (memberOf_find s w (Hat Hreg s Hs)) as [r Hr].
  destruct (find_player_Some s w r Hr) as (_ & p & Hp & Hid).
  by exists r, p.
Qed.

Lemma maxRounds_step e w : maxRounds (step e w) = maxRounds w.
Proof.
  assert (∀ w', sameRoom w w' → maxRounds w' = maxRounds w) as Hsr.
  { by intros w' (_&_&_&?&_). }
  unfold step. destruct (crashed w); [done|]. destruct e.
  - destruct (joinRoom_cases s playerName w)
      as [[err ->]|[(_ & _ & ->)|(r0 & rest & p0 & more & _ & _ & _ & _ & _
                                  & _ & ->)]]; done.
  - destruct (is_attached s w && registered w) eqn:Hc;
      [|unfold leaveRoom; by rewrite Hc].
    apply andb_true_iff in Hc as [Ha Hreg].
    rewrite leaveRoom_unfold by done. destruct (Nat.eqb _ 0).
    + simpl.
      by destruct (clearGameIntervals_frame
                     (detach s (set_players (remaining s w) w)) _ eq_refl)
        as (_ & _ & _ & _ & _ & _ & -> & _).
    + by destruct (sameRoom_afterRemoval (find_player s w)
                     (detach s (set_players (remaining s w) w)))
        as (_&_&_& -> &_).
  - apply Hsr, sameRoom_playerHolding.
  - destruct (sameRoom_playerReleased s w) as [?|(_ & _ & _ & ->)];
      [by apply Hsr|done].
  - rewrite disconnect_leaveRoom.
    destruct (is_attached s w && registered w) eqn:Hc;
      [|unfold leaveRoom; by rewrite Hc].
    apply andb_true_iff in Hc as [Ha Hreg].
    rewrite leaveRoom_unfold by done. destruct (Nat.eqb _ 0).
    + simpl.
      by destruct (clearGameIntervals_frame
                     (detach s (set_players (remaining s w) w)) _ eq_refl)
        as (_ & _ & _ & _ & _ & _ & -> & _).
    + by destruct (sameRoom_afterRemoval (find_player s w)
                     (detach s (set_players (remaining s w) w)))
        as (_&_&_& -> &_).
  - destruct (timer_kind t w) as [[|]|];
      [apply Hsr, sameRoom_countdownTick|apply Hsr, sameRoom_roundTick|done].
  - destruct (timeouts w); [done|].
    by destruct (startNewRound_room (set_timeouts n w)) as (_&_&_& -> &_).
  - done.
Qed.

Lemma maxRounds_run es w : maxRounds (run es w) = maxRounds w.
Proof.
  revert w. induction es as [|e es IH]; intros w; [done|].
  simpl. change (maxRounds (run es (step e w)) = maxRounds w).
  by rewrite IH, maxRounds_step.
Qed.

(** X4.  The round counter stays within bounds.  A room is created with an
    integer [maxRounds] (the handler tests the type and the range of the
    number, not that it is whole; whole numbers are what this development
    covers).  Whatever happens afterwards, while the room is in the
    registry [maxRounds] is still the creator's number, it lies in 1..50,
    and [1 <= currentRound <= maxRounds]. *)
Theorem round_counter_bounds (s : SocketId) (playerName : string)
    (initialTime maxRoundsArg : Z) (es : list Event) :
  let w := run es (createRoom s playerName initialTime maxRoundsArg) in
  registered w = true →
  maxRounds w = maxRoundsArg ∧ 1 ≤ maxRoundsArg ∧ maxRoundsArg ≤ 50
  ∧ 1 ≤ currentRound w ∧ currentRound w ≤ maxRoundsArg.
Proof.
  intros w Hreg.
  assert (reachable w) as Hw by apply reachable_run, reach_create.
  destruct (reachable_roomInv w Hw) as (_ & _ & _ & Hrd & _).
  destruct (Hrd Hreg) as (H1 & H2 & H3).
  assert (maxRounds (createRoom s playerName initialTime maxRoundsArg)
          = maxRoundsArg
          ∨ maxRounds (createRoom s playerName initialTime maxRoundsArg) = 0)
    as Hc.
  { unfold createRoom.
    destruct (_ || _); simpl; [by right|].
    destruct (_ || _); simpl; [by right|]. left.
    match goal with |- context [startNewRound ?x] =>
      by destruct (startNewRound_room x) as (_&_&_& -> &_) end. }
  assert (maxRounds w
          = maxRounds (createRoom s playerName initialTime maxRoundsArg))
    as Hm by apply maxRounds_run.
  rewrite Hm in *. destruct Hc as [Hc|Hc]; rewrite Hc in *; lia.
Qed.

Lemma room_capacity_witness :
  (length (players (run [JoinRoom 2 "B"; JoinRoom 3 "C"]
                      (createRoom 1 "A" 60 3))) ≤ 4)%nat.
Proof. apply room_capacity. apply reachable_run, reach_create. Defined.

Lemma player_names_distinct_witness :
  List.NoDup (name <$> deref (heap (createRoom 1 "A" 60 3))
                         (players (createRoom 1 "A" 60 3)))
  ∧ List.NoDup (players (createRoom 1 "A" 60 3)).
Proof. apply player_names_distinct. apply reach_create. Defined.

Lemma player_lookups_never_fail_witness :
  crashed (run scenarioB (createRoom 1 "A" 60 3)) = false.
Proof.
  apply (player_lookups_never_fail (run scenarioB (createRoom 1 "A" 60 3))).
  apply reachable_run, reach_create.
Defined.

Lemma round_counter_bounds_witness :
  let w := run (scenarioB ++ [TimeoutFires]) (createRoom 1 "A" 60 3) in
  maxRounds w = 3 ∧ 1 ≤ 3 ∧ 3 ≤ 50 ∧ 1 ≤ currentRound w ∧ currentRound w ≤ 3.
Proof.
  refine (round_counter_bounds 1 "A" 60 3 (scenarioB ++ [TimeoutFires]) _).
  vm_compute; reflexivity.
Defined.

(** ** Tokens are paid for with time *)

(** [paidFor a b]: from [a] to [b] no token is lost, and every token gained
    has cost at least one unit of time. *)
Definition paidFor (a b : Player) : Prop :=
  tokens a ≤ tokens b ∧ time b + tokens b ≤ time a + tokens a.

Lemma paidFor_refl p : paidFor p p.
Proof. unfold paidFor. lia. Qed.

Lemma paidFor_trans a b c : paidFor a b → paidFor b c → paidFor a c.
Proof. unfold paidFor. lia. Qed.

Lemma paidFor_award m p : 0 < m → paidFor p (award m p).
Proof. unfold paidFor, award. simpl. lia. Qed.

Lemma paidFor_preRoundEndPlayer p : paidFor p (preRoundEndPlayer p).
Proof. unfold preRoundEndPlayer, paidFor. case_ifs; simpl; lia. Qed.

Lemma paidFor_tickPlayer p : paidFor p (tickPlayer p).1.
Proof. unfold tickPlayer, paidFor. case_ifs; simpl; lia. Qed.

Ltac paid :=
  solve [ apply paidFor_refl | apply paidFor_trans
        | apply paidFor_preRoundEndPlayer | apply paidFor_tickPlayer
        | intros; unfold paidFor; simpl; lia ].

Lemma paidFor_resolvedHeap w : heapRel paidFor (heap w) (resolvedHeap w).
Proof.
  unfold resolvedHeap.
  destruct (scanWinners_scanned (heap w) (activePlayersInRound w)) as (Hm0 & _).
  set (m := (scanWinners (heap w) (activePlayersInRound w)).1) in *.
  eapply heapRel_trans; [paid| |apply heapRel_forEach; paid].
  destruct ((m =? 0) || _) eqn:Hc; [apply heapRel_refl; paid|].
  apply orb_false_iff in Hc as [Hm%Z.eqb_neq _].
  apply heapRel_forEach; first [paid | intros p; apply paidFor_award; lia].
Qed.

Lemma paidFor_checkAllReleasedOnServer w :
  heapRel paidFor (heap w) (heap (checkAllReleasedOnServer w)).
Proof.
  unfold checkAllReleasedOnServer.
  destruct (negb (registered w) || _) eqn:Hc; [apply heapRel_refl; paid|].
  destruct (forallb _ _); [|apply heapRel_refl; paid].
  apply orb_false_iff in Hc as [Hreg%negb_false_iff _].
  assert (registered (clearGameIntervals w) = true) as Hreg'.
  { by destruct (clearGameIntervals_frame w _ eq_refl) as (_&_&_& -> &_). }
  destruct (endRoundOnServer_unfold _ Hreg') as (-> & _).
  pose proof (paidFor_resolvedHeap (clearGameIntervals w)) as H.
  by destruct (clearGameIntervals_frame w _ eq_refl) as (<- & _).
Qed.

Lemma paidFor_roundTick w : heapRel paidFor (heap w) (heap (roundTick w)).
Proof.
  unfold roundTick.
  eapply heapRel_trans; [paid| |apply paidFor_checkAllReleasedOnServer].
  simpl. rewrite forEachFlag_fst.
  destruct (forEachFlag tickPlayer (players w) (heap w)).2; simpl;
    [unfold broadcastPlayerStatusUpdate; simpl; destruct (registered w); simpl|];
    apply heapRel_forEach; paid.
Qed.

Lemma paidFor_afterRemoval d w :
  heapRel paidFor (heap w) (heap (afterRemoval d w)).
Proof.
  unfold afterRemoval.
  eapply heapRel_trans;
    [paid| |apply heapRel_onlyEmits;
             [paid|apply broadcastPlayerStatusUpdate_onlyEmits]].
  destruct (is_active_phase (status w) && _); [apply heapRel_gameEnded; paid|].
  destruct (Status_eqb (status w) preCountdown && _ && _).
  - destruct (forallb _ _).
    + eapply heapRel_trans; [paid| |apply heapRel_startPreRoundCountdown; paid].
      simpl. destruct (preRoundIntervalId w); apply heapRel_refl; paid.
    + simpl. destruct (preRoundIntervalId w); apply heapRel_refl; paid.
  - destruct (_ && _);
      [apply paidFor_checkAllReleasedOnServer|apply heapRel_refl; paid].
Qed.

Lemma paidFor_leaveRoom s w : heapRel paidFor (heap w) (heap (leaveRoom s w)).
Proof.
  unfold leaveRoom. destruct (_ && _); [|apply heapRel_refl; paid].
  destruct (Nat.eqb _ _).
  - simpl.
    match goal with |- context [clearGameIntervals ?x] =>
      destruct (clearGameIntervals_frame x _ eq_refl) as (-> & _) end.
    apply heapRel_refl; paid.
  - apply (paidFor_afterRemoval (find_player s w)
             (detach s (set_players (remaining s w) w))).
Qed.

Lemma paidFor_playerReleased s w :
  heapRel paidFor (heap w) (heap (playerReleased s w)).
Proof.
  unfold playerReleased. destruct (negb _); [apply heapRel_refl; paid|].
  destruct (find_player s w) as [r|]; [|apply heapRel_refl; paid].
  destruct (holds _ _ r); [|apply heapRel_refl; paid]. simpl.
  assert (heapRel paidFor (heap w)
            (alter (set_isHoldingButton false) r (heap w))) as Ha.
  { apply heapRel_alter; paid. }
  destruct (_ && _).
  - eapply heapRel_trans;
      [paid| |apply heapRel_onlyEmits;
               [paid|apply broadcastPlayerStatusUpdate_onlyEmits]].
    simpl. eapply heapRel_trans; [paid|exact Ha|]. apply heapRel_alter; paid.
  - match goal with |- context [broadcastPlayerStatusUpdate ?x] =>
      destruct (broadcastPlayerStatusUpdate_onlyEmits x) as [m ->] end.
    simpl. destruct (Status_eqb _ _); [|done].
    eapply heapRel_trans; [paid|exact Ha|].
    exact (paidFor_checkAllReleasedOnServer
             (set_out (out w ++ m)
                (set_heap (alter (set_isHoldingButton false) r (heap w)) w))).
Qed.

Lemma paidFor_step e w : heapRel paidFor (heap w) (heap (step e w)).
Proof.
  unfold step. destruct (crashed w); [apply heapRel_refl; paid|].
  destruct e.
  - apply heapRel_joinRoom; paid.
  - apply paidFor_leaveRoom.
  - apply heapRel_playerHolding; paid.
  - apply paidFor_playerReleased.
  - apply paidFor_leaveRoom.
  - destruct (timer_kind t w) as [[|]|];
      [apply heapRel_countdownTick; paid|apply paidFor_roundTick
      |apply heapRel_refl; paid].
  - destruct (timeouts w); [apply heapRel_refl; paid|].
    apply (heapRel_startNewRound paidFor paidFor_refl paidFor_trans
             (λ p, paidFor_refl p) (set_timeouts n w)).
  - apply heapRel_refl; paid.
Qed.

(** X5.  Along any sequence of events, from any state, a player object never
    loses a token and never regains time, and every token gained has cost at
    least one unit of time: [tokens' - tokens <= time - time']. *)
Theorem tokens_paid_with_time (es : list Event) (w : World) (r : Ref)
    (p : Player) :
  heap w !! r = Some p →
  ∃ p', heap (run es w) !! r = Some p'
        ∧ tokens p ≤ tokens p' ∧ time p' ≤ time p
        ∧ tokens p' - tokens p ≤ time p - time p'.
Proof.
  revert w p. induction es as [|e es IH]; intros w p Hp.
  - exists p. split; [done|]. lia.
  - destruct (paidFor_step e w r p Hp) as (q & Hq & H1 & H2).
    destruct (IH (step e w) q Hq) as (p' & Hp' & H3 & H4 & H5).
    exists p'. split; [done|]. lia.
Qed.

Lemma tokens_paid_with_time_witness :
  ∃ p', heap (run scenarioB (createRoom 1 "A" 60 3)) !! 0%nat = Some p'
        ∧ 0 ≤ tokens p' ∧ time p' ≤ 60 ∧ tokens p' - 0 ≤ 60 - time p'.
Proof.
  refine (tokens_paid_with_time scenarioB (createRoom 1 "A" 60 3) 0%nat
            (mkPlayer 1 "A" 60 0 false false 0 false) _).
  vm_compute. reflexivity.
Defined.

(** ** Time never runs out, and who gets eliminated *)

(** X6.  In every reachable room every player has a strictly positive time
    bank and a non-negative hold duration, an eliminated player is not
    holding, and in the phases [waiting], [preCountdown] and [inRound] a
    non-eliminated player has held for strictly less than the time left (so
    a winner always keeps some time after paying). *)
Theorem time_bank_stays_positive (w : World) (r : Ref) (p : Player) :
  reachable w → In r (players w) → heap w !! r = Some p →
  0 < time p ∧ 0 ≤ roundHoldDuration p
  ∧ (isEliminated p = true → isHoldingButton p = false)
  ∧ (status w = waiting ∨ status w = preCountdown ∨ status w = inRound →
     isEliminated p = false → roundHoldDuration p < time p).
Proof.
  intros Hw Hin Hp. destruct (reachable_Inv w Hw) as (_ & (_ & HS) & HC & _).
  destruct (HS r p Hin Hp) as (Ht & Hd & He). repeat split; try done.
  intros Hst Hel.
  assert (withinAll (heap w) (players w)) as HW.
  { eapply cleanC_active; [done|]. destruct Hst as [?|[?|?]]; auto. }
  by apply (HW r p).
Qed.

Lemma time_bank_stays_positive_witness :
  0 < time (mkPlayer 2 "B" 53 1 false false 7 false).
Proof.
  refine (proj1 (time_bank_stays_positive
                   (run scenarioB (createRoom 1 "A" 60 3)) 1%nat
                   (mkPlayer 2 "B" 53 1 false false 7 false) _ _ _)).
  - apply reachable_run, reach_create.
  - vm_compute. right. by left.
  - vm_compute. reflexivity.
Defined.

Definition keepsAlive (a b : Player) : Prop :=
  isEliminated b = true → isEliminated a = true.

Lemma keepsAlive_refl p : keepsAlive p p.
Proof. by intros ?. Qed.

Lemma keepsAlive_trans a b c : keepsAlive a b → keepsAlive b c → keepsAlive a c.
Proof. unfold keepsAlive. auto. Qed.

Ltac alive_rel :=
  solve [ apply keepsAlive_refl | apply keepsAlive_trans
        | intros; unfold keepsAlive; simpl; done ].

Lemma keepsAlive_countdownTick w :
  Inv w → heapRel keepsAlive (heap w) (heap (countdownTick w)).
Proof.
  intros ((Hnd & _) & (_ & HS) & _) r p Hp.
  destruct (heapRel_countdownTick (λ _ _, True)) with (w := w) (r := r) (p := p)
    as (p' & Hp' & _); try done.
  exists p'. split; [done|]. intros Hel'.
  unfold countdownTick in Hp'. simpl in Hp'.
  destruct (_ <=? _); [|simpl in Hp'; congruence].
  rewrite handlePreRoundEndOnServer_heap in Hp'.
  assert (forEach preRoundEndPlayer (players w) (heap w) !! r = Some p'
          ∨ p' = p) as Hcase.
  { destruct (preRoundIntervalId w); simpl in Hp';
      (destruct (registered w); [by left|right; congruence]). }
  destruct Hcase as [Hf | ->]; [|done].
  destruct (in_dec Nat.eq_dec r (players w)) as [Hin|Hnin].
  - rewrite lookup_forEach_in, Hp in Hf by done. injection Hf as <-.
    destruct (preRoundEndPlayer_alive p) as [E|E];
      [by destruct (HS r p Hin Hp)|by rewrite E in Hel'..].
  - rewrite lookup_forEach_notin in Hf by done. congruence.
Qed.

Lemma tickPlayer_eliminates p :
  isEliminated p = false → isEliminated (tickPlayer p).1 = true →
  contesting p = true ∧ time p ≤ roundHoldDuration p + 1.
Proof.
  unfold tickPlayer. destruct (contesting p); simpl; [|congruence].
  destruct (Z.leb_spec (time p - (roundHoldDuration p + 1)) 0); simpl;
    [|congruence].
  intros _ _. split; [done|lia].
Qed.

Lemma roundTick_eliminates w r p p' :
  List.NoDup (players w) →
  heap w !! r = Some p → heap (roundTick w) !! r = Some p' →
  isEliminated p = false → isEliminated p' = true →
  In r (players w) ∧ contesting p = true ∧ time p ≤ roundHoldDuration p + 1.
Proof.
  intros Hnd Hp Hp' He He'. unfold roundTick in Hp'.
  match type of Hp' with heap (checkAllReleasedOnServer ?x) !! _ = _ =>
    assert (heapRel keepsAlive (heap x) (heap (checkAllReleasedOnServer x)))
      as HR by (apply heapRel_checkAllReleasedOnServer; alive_rel);
    assert (heap x = forEach (λ q, (tickPlayer q).1) (players w) (heap w))
      as Hh
  end.
  { simpl. rewrite forEachFlag_fst.
    destruct (forEachFlag _ _ _).2; [|done].
    by destruct (broadcastPlayerStatusUpdate_onlyEmits
                   (set_heap (forEach (λ q, (tickPlayer q).1) (players w) (heap w))
                      (set_roundElapsedTime (roundElapsedTime w + 1) w)))
      as [m ->]. }
  rewrite Hh in HR.
  destruct (in_dec Nat.eq_dec r (players w)) as [Hin|Hnin].
  - destruct (HR r (tickPlayer p).1) as (q & Hq & Hel).
    { by rewrite lookup_forEach_in, Hp. }
    assert (q = p') as -> by congruence.
    split; [done|]. apply tickPlayer_eliminates; auto.
  - destruct (HR r p) as (q & Hq & Hel).
    { by rewrite lookup_forEach_notin. }
    assert (q = p') as -> by congruence. specialize (Hel He'). congruence.
Qed.

(** X7.  On a reachable room a player is eliminated by one thing only: the
    bidding tick on which a player who is still contesting reaches the end of
    their time.  The end of the countdown, whose code also has an elimination
    branch (for [time <= 0]), never eliminates anybody, and neither does any
    socket event or the start of a round. *)
Theorem eliminated_only_by_bidding_tick (w : World) (e : Event) (r : Ref)
    (p p' : Player) :
  reachable w →
  heap w !! r = Some p → heap (step e w) !! r = Some p' →
  isEliminated p = false → isEliminated p' = true →
  ∃ t, e = IntervalFires t ∧ timer_kind t w = Some RoundTimer
       ∧ In r (players w) ∧ contesting p = true
       ∧ time p ≤ roundHoldDuration p + 1.
Proof.
  intros Hw Hp Hp' He He'. pose proof (reachable_Inv w Hw) as HI.
  assert (heapRel keepsAlive (heap w) (heap (step e w)) → False) as Hno.
  { intros HR. destruct (HR r p Hp) as (q & Hq & Hel).
    assert (q = p') as -> by congruence. specialize (Hel He'). congruence. }
  unfold step in *. destruct (crashed w); [congruence|].
  destruct e;
    [exfalso; apply Hno..| |exfalso; apply Hno|exfalso; apply Hno].
  - apply heapRel_joinRoom; alive_rel.
  - apply heapRel_leaveRoom; alive_rel.
  - apply heapRel_playerHolding; alive_rel.
  - apply heapRel_playerReleased; alive_rel.
  - apply heapRel_leaveRoom; alive_rel.
  - destruct (timer_kind t w) as [[|]|] eqn:Hk.
    + exfalso. apply Hno. by apply keepsAlive_countdownTick.
    + exists t. repeat split; try done;
        destruct HI as ((Hnd & _) & _);
        by destruct (roundTick_eliminates w r p p' Hnd Hp Hp' He He')
          as (? & ? & ?).
    + congruence.
  - destruct (timeouts w); [apply heapRel_refl; alive_rel|].
    apply (heapRel_startNewRound keepsAlive keepsAlive_refl keepsAlive_trans
             (λ p, keepsAlive_refl p) (set_timeouts n w)).
  - apply heapRel_refl; alive_rel.
Qed.

Lemma eliminated_only_by_bidding_tick_witness :
  ∃ t, IntervalFires 1 = IntervalFires t
       ∧ timer_kind t (run (removelast exhaustBudget) (createRoom 1 "A" 10 3))
         = Some RoundTimer
       ∧ In 0%nat (players (run (removelast exhaustBudget)
                              (createRoom 1 "A" 10 3)))
       ∧ contesting (mkPlayer 1 "A" 10 0 true false 9 false) = true
       ∧ time (mkPlayer 1 "A" 10 0 true false 9 false)
         ≤ roundHoldDuration (mkPlayer 1 "A" 10 0 true false 9 false) + 1.
Proof.
  refine (eliminated_only_by_bidding_tick
            (run (removelast exhaustBudget) (createRoom 1 "A" 10 3))
            (IntervalFires 1) 0%nat
            (mkPlayer 1 "A" 10 0 true false 9 false)
            (mkPlayer 1 "A" 10 0 false false 10 true) _ _ _ _ _).
  - apply reachable_run, reach_create.
  - vm_compute. reflexivity.
  - vm_compute. reflexivity.
  - reflexivity.
  - reflexivity.
Defined.

Lemma timersMatchPhase_step_witness :
  timersMatchPhase (step (PlayerHolding 1) (createRoom 1 "A" 60 3)).
Proof.
  apply timersMatchPhase_step; [discriminate|].
  vm_compute. split; intros [? ?]; discriminate.
Defined.

(** ** Creating the room *)

(** X9.  [createRoom] validates [initialTime] first (10 to 600) and
    [maxRounds] second (1 to 50); a request that fails either check gets a
    failure callback and nothing else happens.  An accepted request yields a
    room in the registry with the creator as its only player (the given
    time, no tokens, all flags off), already in round 1, phase [waiting],
    no timer and no timeout pending; it answers the creator and then
    broadcasts the player list and the [roundEnded] event of round 1. *)
Theorem createRoom_spec (s : SocketId) (playerName : string)
    (initialTime maxRoundsArg : Z) :
  let w := createRoom s playerName initialTime maxRoundsArg in
  let creator := mkPlayer s playerName initialTime 0 false false 0 false in
  (initialTime < 10 ∨ 600 < initialTime →
     w = emit (EmCreateCallback s (inl InvalidInitialTime)) emptyWorld)
  ∧ (10 ≤ initialTime ≤ 600 → maxRoundsArg < 1 ∨ 50 < maxRoundsArg →
     w = emit (EmCreateCallback s (inl InvalidMaxRounds)) emptyWorld)
  ∧ (10 ≤ initialTime ≤ 600 → 1 ≤ maxRoundsArg ≤ 50 →
     w = mkWorld [creator] true [0%nat] waiting 1 maxRoundsArg 0 None 0 None
           [] [] 0%nat 0%nat [s]
           [EmCreateCallback s (inr creator);
            EmPlayerStatusUpdate [creator] 1 maxRoundsArg waiting;
            EmRoundEnded [creator] 1 maxRoundsArg] false).
Proof.
  intros w creator. subst w. unfold createRoom.
  destruct (Z.ltb_spec initialTime 10); simpl.
  { split; [done|]. split; intros; lia. }
  destruct (Z.ltb_spec 600 initialTime); simpl.
  { split; [done|]. split; intros; lia. }
  split; [intros; lia|].
  destruct (Z.ltb_spec maxRoundsArg 1); simpl.
  { split; [done|]. intros; lia. }
  destruct (Z.ltb_spec 50 maxRoundsArg); simpl.
  { split; [done|]. intros; lia. }
  split; [intros; lia|]. intros _ _.
  unfold startNewRound. simpl.
  destruct (Z.leb_spec maxRoundsArg 0); [lia|].
  unfold announceRound, prepareRound, broadcastPlayerStatusUpdate. simpl.
  change (0 + 1) with 1.
  destruct (Z.eqb_spec 1 maxRoundsArg); reflexivity.
Qed.

Lemma createRoom_spec_witness :
  createRoom 1 "A" 5 3 = emit (EmCreateCallback 1 (inl InvalidInitialTime)) emptyWorld.
Proof.
  apply (proj1 (createRoom_spec 1 "A" 5 3)). left. lia.
Defined.

(** ** Leaving, and rooms that are gone *)

Lemma holds_has_id_stable s h h' r :
  heapRel sameIdentity h h' → length h' = length h →
  holds (has_id s) h' r = holds (has_id s) h r.
Proof.
  intros HR Hl. unfold holds.
  destruct (h !! r) as [p|] eqn:Hp.
  - destruct (HR r p Hp) as (p' & -> & Hid & _). unfold has_id. by rewrite Hid.
  - destruct (h' !! r) as [p'|] eqn:Hp'; [|done].
    destruct (heapRel_back _ _ _ _ _ HR Hl Hp') as (p & Hp0 & _). congruence.
Qed.

Lemma find_player_remaining s w w' :
  players w' = remaining s w →
  heapRel sameIdentity (heap w) (heap w') → length (heap w') = length (heap w) →
  find_player s w' = None.
Proof.
  intros Hps HR Hl. unfold find_player.
  destruct (List.find _ _) as [r|] eqn:Hf; [|done].
  apply find_some in Hf as [Hin Hh]. rewrite Hps in Hin.
  apply filter_In in Hin as [_ Hne].
  rewrite (holds_has_id_stable s _ _ r HR Hl) in Hh. by rewrite Hh in Hne.
Qed.

Lemma is_attached_detach s s' w :
  is_attached s' (detach s w) = negb (Nat.eqb s s') && is_attached s' w.
Proof.
  unfold is_attached, detach. simpl.
  induction (attached w) as [|a l IH]; simpl; [by rewrite andb_false_r|].
  destruct (Nat.eqb_spec s a) as [->|Hne]; simpl; rewrite IH.
  - destruct (Nat.eqb_spec s' a) as [->|Hne'].
    + by rewrite Nat.eqb_refl.
    + done.
  - destruct (Nat.eqb_spec s' a) as [->|Hne']; simpl; [|done].
    by destruct (Nat.eqb_spec s a).
Qed.

Lemma leaveRoom_membership s w :
  is_attached s w = true → registered w = true →
  players (leaveRoom s w) = remaining s w
  ∧ attached (leaveRoom s w)
    = attached (detach s (set_players (remaining s w) w))
  ∧ heapRel sameIdentity (heap w) (heap (leaveRoom s w))
  ∧ length (heap (leaveRoom s w)) = length (heap w)
  ∧ (registered (leaveRoom s w) = true ↔ remaining s w ≠ []).
Proof.
  intros Ha Hreg. rewrite leaveRoom_unfold by done.
  set (w1 := detach s (set_players (remaining s w) w)).
  destruct (Nat.eqb_spec (length (remaining s w)) 0) as [H0|H0].
  - simpl.
    destruct (clearGameIntervals_frame w1 _ eq_refl)
      as (-> & -> & _ & _ & _ & _ & _ & _ & _ & -> & _).
    repeat split; try done; [apply heapRel_refl, sameIdentity_refl|].
    intros Hne. by destruct (remaining s w).
  - destruct (sameRoom_afterRemoval (find_player s w) w1)
      as (-> & -> & -> & _ & _ & _ & ->).
    repeat split; try done.
    + apply (heapRel_afterRemoval sameIdentity sameIdentity_refl
               sameIdentity_trans) with (w := w1); intros; by split.
    + intros _ Hnil. by rewrite Hnil in H0.
Qed.

(** X10.  [leaveRoom] and [disconnect] of a socket attached to a room in the
    registry remove exactly the records carrying that socket's id and detach
    the socket; the room leaves the registry exactly when nobody is left.
    Afterwards the socket has no record in the room, the other sockets are
    attached as before, and further hold, release and leave events of the
    socket are ignored. *)
Theorem leaveRoom_removes (s : SocketId) (w : World) :
  is_attached s w = true → registered w = true →
  ∀ w', w' = leaveRoom s w ∨ w' = disconnect s w →
  players w' = remaining s w
  ∧ find_player s w' = None
  ∧ is_attached s w' = false
  ∧ (∀ s', s' ≠ s → is_attached s' w' = is_attached s' w)
  ∧ (registered w' = true ↔ remaining s w ≠ [])
  ∧ playerHolding s w' = w' ∧ playerReleased s w' = w' ∧ leaveRoom s w' = w'.
Proof.
  intros Ha Hreg w' Hw'.
  assert (w' = leaveRoom s w) as ->.
  { destruct Hw' as [->| ->]; [done|apply disconnect_leaveRoom]. }
  destruct (leaveRoom_membership s w Ha Hreg) as (Hps & Hat & HR & Hl & Hr).
  set (w1 := detach s (set_players (remaining s w) w)) in *.
  assert (is_attached s (leaveRoom s w) = false) as Hs.
  { unfold is_attached. rewrite Hat. fold (is_attached s w1). subst w1.
    by rewrite is_attached_detach, Nat.eqb_refl. }
  split; [done|]. split; [by eapply find_player_remaining|].
  split; [done|]. split; [|split; [done|]].
  - intros s' Hne. unfold is_attached at 1. rewrite Hat.
    fold (is_attached s' w1). subst w1. rewrite is_attached_detach.
    destruct (Nat.eqb_spec s s'); [congruence|done].
  - assert (∀ x, is_attached s x = false →
              playerHolding s x = x ∧ playerReleased s x = x
              ∧ leaveRoom s x = x) as Hign.
    { intros x Hx. unfold playerHolding, playerReleased, leaveRoom.
      by rewrite Hx. }
    by apply Hign.
Qed.

Lemma leaveRoom_removes_witness :
  find_player 2 (leaveRoom 2 (run [JoinRoom 2 "B"] (createRoom 1 "A" 60 3)))
  = None.
Proof.
  refine (proj1 (proj2 (leaveRoom_removes 2
            (run [JoinRoom 2 "B"] (createRoom 1 "A" 60 3)) _ _ _ (or_introl eq_refl)))).
  - vm_compute. reflexivity.
  - vm_compute. reflexivity.
Defined.

(** What stays as it is while the room is out of the registry. *)
Definition frozen (w w' : World) : Prop :=
  registered w' = registered w ∧ players w' = players w
  ∧ status w' = status w ∧ currentRound w' = currentRound w
  ∧ maxRounds w' = maxRounds w ∧ heap w' = heap w.

Lemma frozen_step e w :
  registered w = false → players w = [] → frozen w (step e w).
Proof.
  intros Hreg Hps. unfold step. destruct (crashed w); [done|].
  destruct e.
  - unfold joinRoom. rewrite Hreg. done.
  - unfold leaveRoom. by rewrite Hreg, andb_false_r.
  - unfold playerHolding. by rewrite Hreg, andb_false_r.
  - unfold playerReleased. by rewrite Hreg, andb_false_r.
  - unfold disconnect. by rewrite Hreg, andb_false_r.
  - destruct (timer_kind t w) as [[|]|]; [| |done].
    + unfold countdownTick. simpl. destruct (_ <=? _); [|done].
      unfold handlePreRoundEndOnServer.
      destruct (preRoundIntervalId w); simpl; by rewrite Hreg.
    + unfold roundTick, checkAllReleasedOnServer, broadcastPlayerStatusUpdate,
        forEachFlag. simpl. rewrite Hps. simpl. by rewrite Hreg.
  - destruct (timeouts w); [done|]. unfold startNewRound. simpl.
    by rewrite Hreg.
  - done.
Qed.

Lemma unregistered_empty w :
  reachable w → registered w = false → players w = [].
Proof.
  induction 1 as [s n t m|e w Hw IH].
  - unfold createRoom. case_ifs; try done.
    intros Hreg. exfalso. revert Hreg.
    match goal with |- registered (startNewRound ?x) = _ → _ =>
      destruct (startNewRound_room x) as (_ & _ & -> & _) end.
    done.
  - intros Hreg'. destruct (registered w) eqn:Hreg.
    2:{ destruct (frozen_step e w Hreg (IH eq_refl)) as (_ & -> & _).
        by apply IH. }
    assert (∀ w', sameRoom w w' → registered w' = false → players w' = [])
      as Hs.
    { intros w' (_ & _ & -> & _). congruence. }
    assert (∀ s, registered (leaveRoom s w) = false →
              players (leaveRoom s w) = []) as Hl.
    { intros s. destruct (is_attached s w) eqn:Ha.
      - destruct (leaveRoom_membership s w Ha Hreg) as (-> & _ & _ & _ & Hr).
        destruct (remaining s w); [done|]. intros Hf.
        assert (registered (leaveRoom s w) = true) by (by apply Hr).
        congruence.
      - unfold leaveRoom. rewrite Ha. simpl. congruence. }
    revert Hreg'. unfold step. destruct (crashed w); [congruence|].
    destruct e.
    + destruct (joinRoom_cases s playerName w)
        as [[err ->]|[(_ & _ & ->)|(? & ? & ? & ? & _ & _ & _ & _ & _ & _ & ->)]];
        simpl; congruence.
    + apply Hl.
    + apply Hs, sameRoom_playerHolding.
    + destruct (sameRoom_playerReleased s w) as [?|(_ & _ & _ & ->)];
        [by apply Hs|simpl; congruence].
    + rewrite disconnect_leaveRoom. apply Hl.
    + destruct (timer_kind t w) as [[|]|];
        [apply Hs, sameRoom_countdownTick|apply Hs, sameRoom_roundTick
        |congruence].
    + destruct (timeouts w); [congruence|].
      destruct (startNewRound_room (set_timeouts n w)) as (_ & _ & -> & _).
      simpl. congruence.
    + simpl. congruence.
Qed.

(** X11.  A room that has left the registry never comes back: from a
    reachable state in which the room is out of the registry, whatever
    events follow, it stays out, its player list stays empty, its player
    objects, phase and round counter never change again, and every join
    request is answered with [RoomNotFound]. *)
Theorem deleted_room_stays_deleted (es : list Event) (w : World) :
  reachable w → registered w = false →
  registered (run es w) = false ∧ players (run es w) = []
  ∧ heap (run es w) = heap w ∧ status (run es w) = status w
  ∧ currentRound (run es w) = currentRound w
  ∧ ∀ s playerName,
      joinRoom s playerName (run es w)
      = emit (EmJoinCallback s (inl RoomNotFound)) (run es w).
Proof.
  intros Hw Hreg. pose proof (unregistered_empty w Hw Hreg) as Hps.
  clear Hw. revert w Hreg Hps.
  induction es as [|e es IH]; intros w Hreg Hps.
  - change (run [] w) with w. split_and!; try done.
    intros s n. unfold joinRoom. by rewrite Hreg.
  - destruct (frozen_step e w Hreg Hps) as (Hr & Hp & Hs & Hc & _ & Hh).
    simpl. destruct (IH (step e w)) as (? & ? & ? & ? & ? & ?);
      [congruence..|].
    split_and!; try done; congruence.
Qed.

Lemma deleted_room_stays_deleted_witness :
  registered (run [JoinRoom 2 "B"; TimeoutFires]
                (run [LeaveRoom 1] (createRoom 1 "A" 60 3))) = false.
Proof.
  refine (proj1 (deleted_room_stays_deleted [JoinRoom 2 "B"; TimeoutFires]
                   (run [LeaveRoom 1] (createRoom 1 "A" 60 3)) _ _)).
  - apply reachable_run, reach_create.
  - vm_compute. reflexivity.
Defined.

(** ** A finished game *)

(** Score and elimination of a player object are kept. *)
Definition scoreKept (a b : Player) : Prop :=
  time b = time a ∧ tokens b = tokens a ∧ isEliminated b = isEliminated a.

Lemma scoreKept_refl p : scoreKept p p.
Proof. done. Qed.

Lemma scoreKept_trans a b c : scoreKept a b → scoreKept b c → scoreKept a c.
Proof. intros (?&?&?) (?&?&?). repeat split; congruence. Qed.

(** The game is over and nothing is pending. *)
Definition quiet (w : World) : Prop :=
  status w = gameOver ∧ timeouts w = 0%nat ∧ intervals w = [].

Lemma quiet_core w w' :
  status w' = status w → timeouts w' = timeouts w → intervals w' = intervals w →
  quiet w → quiet w'.
Proof. unfold quiet. by intros -> -> ->. Qed.

Lemma quiet_onlyEmits w w' : onlyEmits w w' → quiet w → quiet w'.
Proof. intros [m ->]. by apply quiet_core. Qed.

Lemma quiet_clearGameIntervals w : quiet w → quiet (clearGameIntervals w).
Proof.
  intros (Hs & Ht & Hi). unfold clearGameIntervals, clearInterval.
  destruct (preRoundIntervalId w), (roundTimerIntervalId w) eqn:E; simpl;
    rewrite ?E; simpl; unfold quiet; simpl; by rewrite ?Hi.
Qed.

Lemma quiet_step e w :
  quiet w →
  quiet (step e w) ∧ currentRound (step e w) = currentRound w
  ∧ heapRel scoreKept (heap w) (heap (step e w)).
Proof.
  intros HQ. pose proof HQ as (Hs & Ht & Hi).
  assert (∀ w', onlyEmits w w' →
            quiet w' ∧ currentRound w' = currentRound w
            ∧ heapRel scoreKept (heap w) (heap w')) as Hem.
  { intros w' [m ->]. split; [by apply (quiet_core w)|]. split; [done|].
    apply heapRel_refl, scoreKept_refl. }
  assert (∀ f r, (∀ p, scoreKept p (f p)) →
            ∀ w', onlyEmits (set_heap (alter f r (heap w)) w) w' →
            quiet w' ∧ currentRound w' = currentRound w
            ∧ heapRel scoreKept (heap w) (heap w')) as Halt.
  { intros f r Hf w' [m ->]. split; [by apply (quiet_core w)|]. split; [done|].
    simpl. apply heapRel_alter; [apply scoreKept_refl|apply scoreKept_trans|done]. }
  unfold step. destruct (crashed w); [apply Hem, onlyEmits_refl|].
  destruct e.
  - destruct (joinRoom_cases s playerName w)
      as [[err ->]|[(_ & _ & ->)|(r0 & rest & p0 & more & _ & _ & _ & _ & _ & _
                                  & ->)]].
    + apply Hem, emit_onlyEmits.
    + split; [by apply (quiet_core w)|]. split; [done|].
      apply heapRel_refl, scoreKept_refl.
    + split; [by apply (quiet_core w)|]. split; [done|]. simpl.
      apply heapRel_app, scoreKept_refl.
  - unfold leaveRoom. destruct (_ && _); [|apply Hem, onlyEmits_refl].
    fold (remaining s w).
    set (w1 := detach s (set_players (remaining s w) w)).
    assert (quiet w1) as H1 by (by apply (quiet_core w)).
    destruct (Nat.eqb _ 0).
    + split; [|split].
      * apply (quiet_core (clearGameIntervals w1)); try done.
        by apply quiet_clearGameIntervals.
      * simpl. by destruct (clearGameIntervals_frame w1 _ eq_refl)
          as (_&_&_&_&_& -> &_).
      * simpl. destruct (clearGameIntervals_frame w1 _ eq_refl) as (-> & _).
        apply heapRel_refl, scoreKept_refl.
    + unfold afterRemoval.
      replace (status w1) with gameOver by (by destruct H1).
      simpl.
      destruct (broadcastPlayerStatusUpdate_onlyEmits w1) as [m ->].
      split; [by apply (quiet_core w1)|]. split; [done|].
      apply heapRel_refl, scoreKept_refl.
  - unfold playerHolding. destruct (negb _); [apply Hem, onlyEmits_refl|].
    destruct (find_player s w) as [r|]; [|apply Hem, onlyEmits_refl].
    destruct (holds _ _ r); [apply Hem, onlyEmits_refl|].
    destruct (holds _ _ r); [|apply Hem, onlyEmits_refl].
    match goal with |- context [broadcastPlayerStatusUpdate ?x] =>
      destruct (broadcastPlayerStatusUpdate_onlyEmits x) as [m ->] end.
    simpl. rewrite Hs. simpl. apply (Halt (set_isHoldingButton true) r); [done|].
    by exists m.
  - unfold playerReleased. destruct (negb _); [apply Hem, onlyEmits_refl|].
    destruct (find_player s w) as [r|].
    2:{ split; [by apply (quiet_core w)|]. split; [done|].
        apply heapRel_refl, scoreKept_refl. }
    destruct (holds _ _ r); [|apply Hem, onlyEmits_refl]. simpl.
    rewrite Hs. simpl.
    match goal with |- context [broadcastPlayerStatusUpdate ?x] =>
      destruct (broadcastPlayerStatusUpdate_onlyEmits x) as [m ->] end.
    simpl. rewrite Hs. simpl. apply (Halt (set_isHoldingButton false) r); [done|].
    by exists m.
  - unfold disconnect. destruct (_ && _); [|apply Hem, onlyEmits_refl].
    fold (remaining s w).
    set (w1 := detach s (set_players (remaining s w) w)).
    assert (quiet w1) as H1 by (by apply (quiet_core w)).
    destruct (Nat.eqb _ 0).
    + split; [|split].
      * apply (quiet_core (clearGameIntervals w1)); try done.
        by apply quiet_clearGameIntervals.
      * simpl. by destruct (clearGameIntervals_frame w1 _ eq_refl)
          as (_&_&_&_&_& -> &_).
      * simpl. destruct (clearGameIntervals_frame w1 _ eq_refl) as (-> & _).
        apply heapRel_refl, scoreKept_refl.
    + unfold afterRemoval.
      replace (status w1) with gameOver by (by destruct H1).
      simpl.
      destruct (broadcastPlayerStatusUpdate_onlyEmits w1) as [m ->].
      split; [by apply (quiet_core w1)|]. split; [done|].
      apply heapRel_refl, scoreKept_refl.
  - unfold timer_kind. rewrite Hi. simpl. apply Hem, onlyEmits_refl.
  - rewrite Ht. apply Hem, onlyEmits_refl.
  - split; [by apply (quiet_core w)|]. split; [done|].
    apply heapRel_refl, scoreKept_refl.
Qed.

(** X12.  A finished game with nothing pending stays finished: if the phase
    is [gameOver], no timeout is pending and no interval timer is live, then
    after any sequence of events the phase is still [gameOver], still nothing
    is pending, the round counter is unchanged and every player object has
    the time, tokens and elimination flag it had (players may still join,
    leave, hold and release). *)
Theorem finished_game_stays_finished (es : list Event) (w : World) :
  status w = gameOver → timeouts w = 0%nat → intervals w = [] →
  status (run es w) = gameOver
  ∧ timeouts (run es w) = 0%nat ∧ intervals (run es w) = []
  ∧ currentRound (run es w) = currentRound w
  ∧ ∀ r p, heap w !! r = Some p →
      ∃ p', heap (run es w) !! r = Some p'
            ∧ time p' = time p ∧ tokens p' = tokens p
            ∧ isEliminated p' = isEliminated p.
Proof.
  intros Hs Ht Hi. assert (quiet w) as HQ by done. clear Hs Ht Hi.
  revert w HQ. induction es as [|e es IH]; intros w HQ.
  - destruct HQ as (? & ? & ?). split_and!; try done.
    intros r p Hp. by exists p.
  - destruct (quiet_step e w HQ) as (HQ' & Hc & HR).
    destruct (IH (step e w) HQ') as (? & ? & ? & ? & Hh).
    simpl. split_and!; try done; [congruence|].
    intros r p Hp. destruct (HR r p Hp) as (q & Hq & ? & ? & ?).
    destruct (Hh r q Hq) as (p' & Hp' & ? & ? & ?).
    exists p'. split_and!; try done; congruence.
Qed.

Lemma finished_game_stays_finished_witness :
  status (run [JoinRoom 4 "D"; PlayerHolding 1] (run scenarioE (createRoom 1 "A" 60 3)))
  = gameOver.
Proof.
  refine (proj1 (finished_game_stays_finished [JoinRoom 4 "D"; PlayerHolding 1]
                   (run scenarioE (createRoom 1 "A" 60 3)) _ _ _));
    vm_compute; reflexivity.
Defined.

(** ** The countdown, tick by tick *)

(** The values broadcast by [k] ticks of a countdown standing at [n]. *)
Definition countdownUpdates (n : Z) (k : nat) : list Emit :=
  (λ i, EmPreRoundCountdownUpdate ToRoom (n - Z.of_nat i)) <$> seq 1 k.

Lemma countdownTick_early w :
  1 < preRoundCountdown w →
  countdownTick w
  = set_out (out w ++ [EmPreRoundCountdownUpdate ToRoom (preRoundCountdown w - 1)])
      (set_preRoundCountdown (preRoundCountdown w - 1) w).
Proof.
  intros Hn. unfold countdownTick. simpl.
  destruct (Z.leb_spec (preRoundCountdown w - 1) 0); [lia|done].
Qed.

Lemma countdownTick_last w :
  preRoundCountdown w ≤ 1 →
  countdownTick w
  = handlePreRoundEndOnServer
      (set_preRoundIntervalId None
         (match preRoundIntervalId w with
          | Some t =>
              clearInterval t
                (emit (EmPreRoundCountdownUpdate ToRoom (preRoundCountdown w - 1))
                   (set_preRoundCountdown (preRoundCountdown w - 1) w))
          | None =>
              emit (EmPreRoundCountdownUpdate ToRoom (preRoundCountdown w - 1))
                (set_preRoundCountdown (preRoundCountdown w - 1) w)
          end)).
Proof.
  intros Hn. unfold countdownTick. simpl.
  destruct (Z.leb_spec (preRoundCountdown w - 1) 0); [done|lia].
Qed.

(** X13.  A countdown standing at [n] takes exactly [n] ticks.  Each of the
    first [n - 1] ticks only lowers [preRoundCountdown] by one and broadcasts
    the new value; nothing else in the room changes.  The tick that reaches
    zero broadcasts 0, clears the countdown interval and its handle, and runs
    [handlePreRoundEndOnServer]. *)
Theorem countdown_takes_n_ticks (w : World) (t : TimerId) (k : nat) :
  crashed w = false → timer_kind t w = Some CountdownTimer →
  Z.of_nat k < preRoundCountdown w →
  let wk := run (replicate k (IntervalFires t)) w in
  wk = set_out (out w ++ countdownUpdates (preRoundCountdown w) k)
         (set_preRoundCountdown (preRoundCountdown w - Z.of_nat k) w)
  ∧ (preRoundCountdown w = Z.of_nat k + 1 →
     step (IntervalFires t) wk
     = handlePreRoundEndOnServer
         (set_preRoundIntervalId None
            (match preRoundIntervalId w with
             | Some t' =>
                 clearInterval t'
                   (emit (EmPreRoundCountdownUpdate ToRoom 0)
                      (set_preRoundCountdown 0 wk))
             | None =>
                 emit (EmPreRoundCountdownUpdate ToRoom 0)
                   (set_preRoundCountdown 0 wk)
             end))).
Proof.
  intros Hcr Hk Hlt wk.
  assert (wk = set_out (out w ++ countdownUpdates (preRoundCountdown w) k)
                 (set_preRoundCountdown (preRoundCountdown w - Z.of_nat k) w))
    as Hwk.
  { subst wk. revert Hlt. induction k as [|k IH].
    - intros _. simpl. unfold countdownUpdates. simpl.
      rewrite app_nil_r, Z.sub_0_r. by destruct w.
    - intros Hlt. replace (S k) with (k + 1)%nat by lia.
      rewrite replicate_add. unfold run in *. rewrite foldl_app.
      rewrite IH by lia. simpl. unfold step. simpl. rewrite Hcr.
      unfold timer_kind in *. simpl. rewrite Hk.
      rewrite countdownTick_early by (simpl; lia). simpl.
      unfold countdownUpdates. rewrite seq_app, fmap_app. simpl.
      rewrite <- app_assoc. unfold set_out, set_preRoundCountdown. simpl.
      replace (preRoundCountdown w - Z.of_nat k - 1)
        with (preRoundCountdown w - Z.of_nat (S k)) by lia.
      replace (Z.of_nat (k + 1)) with (Z.of_nat (S k)) by lia.
      reflexivity. }
  split; [done|]. intros Hn. clearbody wk.
  assert (crashed wk = false) as Hcr' by (by rewrite Hwk).
  assert (timer_kind t wk = Some CountdownTimer) as Hk' by (by rewrite Hwk).
  assert (preRoundCountdown wk = 1) as Hn' by (rewrite Hwk; simpl; lia).
  assert (preRoundIntervalId wk = preRoundIntervalId w) as Hp
    by (by rewrite Hwk).
  unfold step. rewrite Hcr', Hk'.
  rewrite countdownTick_last by lia. rewrite Hn', Hp. done.
Qed.

Lemma countdown_takes_n_ticks_witness :
  run (replicate 4 (IntervalFires 0)) soloCountdown
  = set_out (out soloCountdown ++ countdownUpdates (preRoundCountdown soloCountdown) 4)
      (set_preRoundCountdown (preRoundCountdown soloCountdown - Z.of_nat 4)
         soloCountdown).
Proof.
  refine (proj1 (countdown_takes_n_ticks soloCountdown 0 4 _ _ _));
    vm_compute; reflexivity.
Defined.

(** ** What a newcomer is sent *)

Lemma deref_app h l1 l2 : deref h (l1 ++ l2) = deref h l1 ++ deref h l2.
Proof. unfold deref. apply omap_app. Qed.

Lemma deref_grow h extra refs :
  validRefs h refs → deref (h ++ extra) refs = deref h refs.
Proof.
  intros Hv. induction refs as [|r refs IH]; [done|].
  change (r :: refs) with ([r] ++ refs). rewrite !deref_app. f_equal.
  - unfold deref. simpl. by rewrite lookup_app_l by (apply Hv; by left).
  - apply IH. intros r' Hr'. apply Hv. by right.
Qed.

(** X14.  What a successful join sends, on a reachable room.  The free-text
    [message] notification that [joinRoom] also sends to the newcomer is,
    like every [message], not recorded in [out]; of the other socket.io
    events the join sends exactly these: the success callback to the
    newcomer, one [playerStatusUpdate] to the room carrying the player list
    with the newcomer at its end, and, only if the game is over, a
    [gameOver] event to the newcomer alone whose [reason] and [finalWinner]
    are undefined (the room never stores them).  The branches that would
    replay a running countdown or bidding round are never taken. *)
Theorem joinRoom_sends (w : World) (s : SocketId) (playerName : string) :
  reachable w → joinAccepted playerName w →
  ∃ r0 rest p0,
    players w = r0 :: rest ∧ heap w !! r0 = Some p0 ∧
    let newPlayer := mkPlayer s playerName (time p0) 0 false false 0 false in
    let everyone := deref (heap w) (players w) ++ [newPlayer] in
    out (joinRoom s playerName w)
    = out w
      ++ [EmJoinCallback s (inr newPlayer);
          EmPlayerStatusUpdate everyone (currentRound w) (maxRounds w)
            (status w)]
      ++ (if Status_eqb (status w) gameOver
          then [EmGameOver (ToSocket s) None everyone None] else [])
    ∧ attached (joinRoom s playerName w) = s :: attached w.
Proof.
  intros Hw (Hreg & Hst & Hlen & Hnu).
  destruct (reachable_Inv w Hw) as ((_ & _ & Hv & _) & _).
  destruct (reachable_hasFirstPlayer w Hw Hreg) as (r0 & rest & p0 & Hps & Hp0).
  exists r0, rest, p0. split; [done|]. split; [done|]. intros newPlayer everyone.
  assert (deref (heap w ++ [newPlayer]) (players w ++ [length (heap w)])
          = everyone) as Hd.
  { rewrite deref_app, deref_grow by done. subst everyone. f_equal.
    unfold deref. simpl. by rewrite lookup_app_r, Nat.sub_diag. }
  unfold joinRoom. rewrite Hreg. simpl.
  assert (joinable (status w) = true) as -> by (by apply joinable_iff).
  simpl. destruct (Nat.leb_spec 4 (length (players w))); [lia|].
  destruct (existsb _ _) eqn:Hn; [by apply nameUsed_existsb in Hn|].
  assert (deref (heap w) (take 1 (players w)) = [p0]) as ->.
  { rewrite Hps. unfold deref. simpl. by rewrite Hp0. }
  change (newPlayerRecord s playerName (time p0)) with newPlayer.
  unfold replayPhase, broadcastPlayerStatusUpdate. simpl.
  rewrite Hreg. simpl. rewrite Hd.
  destruct Hst as [Hst | [Hst | Hst]]; rewrite Hst; simpl; rewrite ?Hd;
    (split; [by rewrite <- !app_assoc|done]).
Qed.

Lemma joinRoom_sends_witness :
  ∃ r0 rest p0,
    players (createRoom 1 "A" 60 3) = r0 :: rest
    ∧ heap (createRoom 1 "A" 60 3) !! r0 = Some p0.
Proof.
  destruct (joinRoom_sends (createRoom 1 "A" 60 3) 2 "B") as (r0 & rest & p0 & H1 & H2 & _).
  - apply reach_create.
  - split; [reflexivity|]. split; [by left|]. split; [vm_compute; lia|].
    intros (r & p & Hin & Hp & Hn). vm_compute in Hin.
    destruct Hin as [<-|[]]. vm_compute in Hp. injection Hp as <-.
    discriminate Hn.
  - by exists r0, rest, p0.
Defined.

(** ** The end of the countdown *)

(** X15.  The end of the countdown on a reachable room in the registry.
    The players that enter the bidding ([activePlayersInRound]) are exactly
    the players of the room who at that moment are holding, have not opted
    out and are not eliminated; a player who is not holding (and neither
    opted out nor eliminated) is marked as opted out, every other record is
    left as it is.  If nobody enters, the phase is left unchanged, no timer
    is started and [startNewRound] is scheduled; otherwise the phase becomes
    [inRound], [roundElapsedTime] is reset, [roundStarting] is broadcast and
    the bidding timer is started under a fresh handle. *)
Theorem countdown_end_selects_holders (w : World) :
  reachable w → registered w = true →
  let w' := handlePreRoundEndOnServer w in
  (∀ r, In r (activePlayersInRound w')
        ↔ In r (players w) ∧ ∃ p, heap w !! r = Some p ∧ contesting p = true)
  ∧ (∀ r p, In r (players w) → heap w !! r = Some p →
       heap w' !! r
       = Some (if negb (isHoldingButton p) && negb (hasOptedOut p)
                  && negb (isEliminated p)
               then set_hasOptedOut true p else p))
  ∧ (∀ r, ¬ In r (players w) → heap w' !! r = heap w !! r)
  ∧ players w' = players w
  ∧ (activePlayersInRound w' = [] →
     status w' = status w ∧ timeouts w' = S (timeouts w)
     ∧ intervals w' = intervals w
     ∧ roundTimerIntervalId w' = roundTimerIntervalId w ∧ out w' = out w)
  ∧ (activePlayersInRound w' ≠ [] →
     status w' = inRound ∧ roundElapsedTime w' = 0
     ∧ roundTimerIntervalId w' = Some (nextTimerId w)
     ∧ intervals w' = intervals w ++ [(nextTimerId w, RoundTimer)]
     ∧ timeouts w' = timeouts w
     ∧ out w' = out w ++ [EmRoundStarting ToRoom]).
Proof.
  intros Hw Hreg w'.
  destruct (reachable_Inv w Hw) as ((Hnd & _) & (_ & HS) & _).
  set (h' := forEach preRoundEndPlayer (players w) (heap w)).
  assert (∀ r p, In r (players w) → heap w !! r = Some p →
            h' !! r = Some (if negb (isHoldingButton p) && negb (hasOptedOut p)
                               && negb (isEliminated p)
                            then set_hasOptedOut true p else p)) as Hmem.
  { intros r p Hin Hp. subst h'. rewrite lookup_forEach_in, Hp by done.
    simpl. f_equal. unfold preRoundEndPlayer.
    destruct (HS r p Hin Hp) as (Ht & _).
    destruct (Z.leb_spec (time p) 0); [lia|done]. }
  assert (∀ r, In r (List.filter (holds contesting h') (players w))
               ↔ In r (players w)
                 ∧ ∃ p, heap w !! r = Some p ∧ contesting p = true) as Hact.
  { intros r. rewrite filter_In. split.
    - intros [Hin Hc]. split; [done|].
      destruct (lookup_lt_is_Some_2 (heap w) r) as [p Hp].
      { apply lookup_lt_is_Some. apply holds_Some in Hc as (q & Hq & _).
        subst h'. by eapply lookup_forEach_Some. }
      exists p. split; [done|]. unfold holds in Hc.
      rewrite (Hmem r p Hin Hp) in Hc. revert Hc. unfold contesting.
      destruct (isHoldingButton p) eqn:E1, (hasOptedOut p) eqn:E2,
        (isEliminated p) eqn:E3; simpl; rewrite ?E1, ?E2, ?E3; done.
    - intros (Hin & p & Hp & Hc). split; [done|]. unfold holds.
      rewrite (Hmem r p Hin Hp). revert Hc. unfold contesting.
      destruct (isHoldingButton p) eqn:E1, (hasOptedOut p) eqn:E2,
        (isEliminated p) eqn:E3; simpl; rewrite ?E1, ?E2, ?E3; done. }
  subst w'. unfold handlePreRoundEndOnServer. rewrite Hreg. simpl.
  fold h'.
  destruct (List.filter (holds contesting h') (players w)) as [|a l] eqn:Hf;
    simpl.
  - split_and!; try done.
    + intros r Hnin. subst h'. by apply lookup_forEach_notin.
  - split_and!; try done.
    + intros r Hnin. subst h'. by apply lookup_forEach_notin.
Qed.

Lemma countdown_end_selects_holders_witness :
  players (handlePreRoundEndOnServer soloCountdown) = players soloCountdown.
Proof.
  refine (proj1 (proj2 (proj2 (proj2
            (countdown_end_selects_holders soloCountdown _ _))))).
  - apply reachable_run, reach_create.
  - vm_compute. reflexivity.
Defined.

(** ** Repeated hold and release events *)

Lemma find_player_stable s w w' :
  players w' = players w → heapRel sameIdentity (heap w) (heap w') →
  length (heap w') = length (heap w) → find_player s w' = find_player s w.
Proof.
  intros Hps HR Hl. unfold find_player. rewrite Hps. clear Hps.
  induction (players w) as [|r rs IH]; [done|]. simpl.
  rewrite (holds_has_id_stable s _ _ r HR Hl).
  destruct (holds _ _ r); [done|apply IH].
Qed.

(** The button state and what the hold guard reads are kept. *)
Definition holdKept (a b : Player) : Prop :=
  id b = id a ∧ name b = name a ∧ time b = time a
  ∧ isEliminated b = isEliminated a ∧ isHoldingButton b = isHoldingButton a.

Lemma holdKept_refl p : holdKept p p.
Proof. done. Qed.

Lemma holdKept_trans a b c : holdKept a b → holdKept b c → holdKept a c.
Proof. intros (?&?&?&?&?) (?&?&?&?&?). repeat split; congruence. Qed.

(** Once released, not holding again. *)
Definition staysReleased (a b : Player) : Prop :=
  id b = id a ∧ name b = name a
  ∧ (isHoldingButton a = false → isHoldingButton b = false).

Lemma staysReleased_refl p : staysReleased p p.
Proof. done. Qed.

Lemma staysReleased_trans a b c :
  staysReleased a b → staysReleased b c → staysReleased a c.
Proof. intros (?&?&?) (?&?&?). repeat split; try congruence. auto. Qed.

Lemma playerHolding_again s w :
  playerHolding s (playerHolding s w) = playerHolding s w.
Proof.
  assert (playerHolding s w = w →
          playerHolding s (playerHolding s w) = playerHolding s w) as Hnoop.
  { intros H. by rewrite !H. }
  destruct (is_attached s w && registered w) eqn:Hc.
  2:{ apply Hnoop. unfold playerHolding. by rewrite Hc. }
  destruct (find_player s w) as [r|] eqn:Hf.
  2:{ apply Hnoop. unfold playerHolding. by rewrite Hc, Hf. }
  destruct (holds (λ player, (time player <=? 0) || isEliminated player)
              (heap w) r) eqn:Hbad.
  { apply Hnoop. unfold playerHolding. by rewrite Hc, Hf, Hbad. }
  destruct (holds (λ player, negb (isHoldingButton player)) (heap w) r)
    eqn:Hnot.
  2:{ apply Hnoop. unfold playerHolding. by rewrite Hc, Hf, Hbad, Hnot. }
  apply holds_Some in Hnot as (p & Hp & Hh). apply negb_true_iff in Hh.
  set (w1 := set_heap (alter (set_isHoldingButton true) r (heap w)) w).
  assert (∃ w2, onlyEmits w1 w2
                ∧ (playerHolding s w = w2
                   ∨ playerHolding s w = startPreRoundCountdown w2))
    as (w2 & Hem & Hw').
  { unfold playerHolding. rewrite Hc, Hf, Hbad. simpl.
    unfold holds. rewrite Hp, Hh. simpl. fold w1.
    exists (broadcastPlayerStatusUpdate w1).
    split; [apply broadcastPlayerStatusUpdate_onlyEmits|].
    case_ifs; auto. }
  assert (sameRoom w (playerHolding s w)) as Hsr
    by apply sameRoom_playerHolding.
  assert (heapRel holdKept (heap w1) (heap (playerHolding s w))) as HR.
  { destruct Hem as [m ->]. destruct Hw' as [-> | ->].
    - apply heapRel_refl, holdKept_refl.
    - change (heap w1) with (heap (set_out (out w1 ++ m) w1)).
      apply heapRel_startPreRoundCountdown;
        solve [apply holdKept_trans | intros; by repeat split]. }
  destruct (HR r (set_isHoldingButton true p)) as (q & Hq & _ & _ & Ht & He & Hq').
  { subst w1. simpl. by rewrite list_lookup_alter_eq, Hp. }
  destruct Hsr as (Hps & Hat & Hrg & _ & _ & _ & Hl).
  assert (find_player s (playerHolding s w) = Some r) as Hf'.
  { rewrite <- Hf. apply find_player_stable; [done| |done].
    intros r' p' Hp'.
    destruct (heapRel_playerHolding sameIdentity sameIdentity_refl
                sameIdentity_trans) with (s := s) (w := w) (r := r') (p := p')
      as (q' & ? & ?); try done. by exists q'. }
  unfold playerHolding at 1.
  unfold is_attached. rewrite Hat, Hrg. fold (is_attached s w). rewrite Hc.
  simpl. rewrite Hf'. unfold holds. rewrite Hq. simpl in Hq'.
  rewrite Hq'. simpl. by destruct (_ || _).
Qed.

Lemma playerReleased_again s w :
  playerReleased s (playerReleased s w) = playerReleased s w.
Proof.
  assert (playerReleased s w = w →
          playerReleased s (playerReleased s w) = playerReleased s w) as Hnoop.
  { intros H. by rewrite !H. }
  destruct (is_attached s w && registered w) eqn:Hc.
  2:{ apply Hnoop. unfold playerReleased. by rewrite Hc. }
  destruct (find_player s w) as [r|] eqn:Hf.
  2:{ assert (playerReleased s w = set_crashed true w) as ->.
      { unfold playerReleased. by rewrite Hc, Hf. }
      unfold playerReleased.
      change (is_attached s (set_crashed true w)) with (is_attached s w).
      change (registered (set_crashed true w)) with (registered w).
      change (find_player s (set_crashed true w)) with (find_player s w).
      by rewrite Hc, Hf. }
  destruct (holds isHoldingButton (heap w) r) eqn:Hh.
  2:{ apply Hnoop. unfold playerReleased. by rewrite Hc, Hf, Hh. }
  apply holds_Some in Hh as (p & Hp & Hh).
  set (w1 := set_heap (alter (set_isHoldingButton false) r (heap w)) w).
  assert (heapRel staysReleased (heap w1) (heap (playerReleased s w))) as HR.
  { unfold playerReleased. rewrite Hc, Hf. simpl. unfold holds.
    rewrite Hp, Hh. fold w1.
    destruct (Status_eqb _ _ && _).
    - match goal with |- context [broadcastPlayerStatusUpdate ?x] =>
        destruct (broadcastPlayerStatusUpdate_onlyEmits x) as [m ->] end.
      simpl.
      apply (heapRel_alter staysReleased staysReleased_refl
               staysReleased_trans (set_hasOptedOut true) r (heap w1)).
      done.
    - match goal with |- context [broadcastPlayerStatusUpdate ?x] =>
        destruct (broadcastPlayerStatusUpdate_onlyEmits x) as [m ->] end.
      simpl. destruct (Status_eqb _ _); [|apply heapRel_refl, staysReleased_refl].
      match goal with |- heapRel _ _ (heap (checkAllReleasedOnServer ?x)) =>
        assert (heapRel staysReleased (heap x)
                  (heap (checkAllReleasedOnServer x))) as Hx
          by (apply heapRel_checkAllReleasedOnServer;
              solve [apply staysReleased_trans | intros; by repeat split]);
        exact Hx
      end. }
  destruct (HR r (set_isHoldingButton false p)) as (q & Hq & _ & _ & Hq').
  { subst w1. simpl. by rewrite list_lookup_alter_eq, Hp. }
  destruct (sameRoom_playerReleased s w) as [Hsr|(_ & _ & Hnone & _)];
    [|congruence].
  destruct Hsr as (Hps & Hat & Hrg & _ & _ & _ & Hl).
  assert (find_player s (playerReleased s w) = Some r) as Hf'.
  { rewrite <- Hf. apply find_player_stable; [done| |done].
    intros r' p' Hp'.
    destruct (heapRel_playerReleased sameIdentity sameIdentity_refl
                sameIdentity_trans) with (s := s) (w := w) (r := r') (p := p')
      as (q' & ? & ?); try done; try (intros; by split). by exists q'. }
  unfold playerReleased at 1.
  unfold is_attached. rewrite Hat, Hrg. fold (is_attached s w). rewrite Hc.
  simpl. rewrite Hf'. unfold holds. rewrite Hq.
  by rewrite (Hq' eq_refl).
Qed.

(** X16.  A repeated event is ignored: a second [playerHolding] right after
    a [playerHolding] of the same socket changes nothing, and neither does a
    second [playerReleased] after a [playerReleased], in any state. *)
Theorem repeated_event_ignored (s : SocketId) (w : World) :
  step (PlayerHolding s) (step (PlayerHolding s) w) = step (PlayerHolding s) w
  ∧ step (PlayerReleased s) (step (PlayerReleased s) w)
    = step (PlayerReleased s) w.
Proof.
  unfold step. destruct (crashed w) eqn:Hcr; [by rewrite Hcr|].
  split.
  - destruct (sameRoom_playerHolding s w) as (_ & _ & _ & _ & _ & -> & _).
    rewrite Hcr. apply playerHolding_again.
  - destruct (crashed (playerReleased s w)) eqn:Hcr'; [done|].
    apply playerReleased_again.
Qed.

(** ** What the skeleton guarantees *)

Definition fresh (p : Skeleton.Player) : Prop :=
  Skeleton.time p = 600 ∧ Skeleton.tokens p = 0
  ∧ Skeleton.lastHoldDuration p = 0 ∧ Skeleton.hasOptedOut p = false.

Definition skeletonInv (w : Skeleton.World) : Prop :=
  Skeleton.status w = Skeleton.waiting
  ∧ Skeleton.currentRound w = 0 ∧ Skeleton.maxRounds w = 19
  ∧ Skeleton.preRoundIntervalId w = None
  ∧ Skeleton.roundTimerIntervalId w = None
  ∧ Skeleton.activePlayersInRound w = []
  ∧ (length (Skeleton.players w) ≤ 4)%nat
  ∧ ∀ p, In p (Skeleton.players w) → fresh p.

Lemma skeleton_press v s ps ps' :
  Skeleton.press v s ps = Some ps' →
  length ps' = length ps ∧ ((∀ p, In p ps → fresh p) → ∀ p, In p ps' → fresh p).
Proof.
  revert ps'. induction ps as [|p ps IH]; intros ps' H; [done|].
  simpl in H. destruct (Skeleton.has_id s p).
  - destruct (Bool.eqb _ _); [done|]. injection H as <-. split; [done|].
    intros Hall q [<-|Hq]; [|apply Hall; by right].
    destruct (Hall p) as (? & ? & ? & ?); [by left|]. by repeat split.
  - destruct (Skeleton.press v s ps) as [l|]; [|done]. injection H as <-.
    destruct (IH l eq_refl) as [Hl Hf]. split; [simpl; by rewrite Hl|].
    intros Hall q [<-|Hq]; [apply Hall; by left|].
    apply Hf; [|done]. intros q' Hq'. apply Hall. by right.
Qed.

Lemma skeletonInv_step e w : skeletonInv w → skeletonInv (Skeleton.step e w).
Proof.
  intros HI. pose proof HI as (Hs & Hc & Hm & Hp & Hr & Ha & H4 & Hf).
  assert (∀ v s, skeletonInv
            (if Skeleton.is_attached s w && Skeleton.registered w
             then match Skeleton.press v s (Skeleton.players w) with
                  | Some ps =>
                      Skeleton.emit (Skeleton.EmPlayerStatusUpdate ps)
                        (Skeleton.set_players ps w)
                  | None => w
                  end
             else w)) as Hpress.
  { intros v s. destruct (_ && _); [|done].
    destruct (Skeleton.press v s (Skeleton.players w)) as [ps|] eqn:E; [|done].
    destruct (skeleton_press v s _ ps E) as [Hl Hfr].
    unfold skeletonInv. simpl. rewrite Hl. split_and!; try done.
    by apply Hfr. }
  assert (∀ s, skeletonInv (Skeleton.removePlayer s w)) as Hrem.
  { intros s. unfold Skeleton.removePlayer. simpl.
    assert (length (List.filter (λ p, negb (Skeleton.has_id s p))
                      (Skeleton.players w)) ≤ 4)%nat as Hl.
    { etrans; [apply filter_length_le|done]. }
    destruct (Nat.eqb _ 0); unfold skeletonInv; simpl;
      (split_and!; try done; intros q [Hq _]%filter_In; by apply Hf). }
  destruct e; simpl.
  - unfold Skeleton.joinRoom. rewrite Hs. simpl.
    destruct (negb _); [done|].
    destruct (Nat.leb_spec 4 (length (Skeleton.players w))); [done|].
    unfold skeletonInv. simpl. rewrite length_app. simpl.
    split_and!; try done; [lia|].
    intros q [Hq|[<-|[]]]%in_app_iff; [by apply Hf|done].
  - unfold Skeleton.leaveRoom. destruct (_ && _); [|done].
    destruct (Hrem s) as (?&?&?&?&?&?&?&?). unfold skeletonInv.
    by split_and!.
  - apply Hpress.
  - apply Hpress.
  - unfold Skeleton.disconnect. destruct (_ && _); [|done]. apply Hrem.
Qed.

(** X17.  The skeleton never plays: after any sequence of events on a room
    created by [createRoom], the phase is still ['waiting'], the round is 0
    of 19, no timer handle is set, nobody is in [activePlayersInRound], the
    room holds at most four players and every player still has 600 units of
    time, no token and no opt-out; only the button state ever changes. *)
Theorem skeleton_never_plays (es : list Skeleton.Event) (s : SocketId)
    (playerName : string) :
  let w := Skeleton.run es (Skeleton.createRoom s playerName) in
  Skeleton.status w = Skeleton.waiting
  ∧ Skeleton.currentRound w = 0 ∧ Skeleton.maxRounds w = 19
  ∧ Skeleton.preRoundIntervalId w = None
  ∧ Skeleton.roundTimerIntervalId w = None
  ∧ Skeleton.activePlayersInRound w = []
  ∧ (length (Skeleton.players w) ≤ 4)%nat
  ∧ ∀ p, In p (Skeleton.players w) →
      Skeleton.time p = 600 ∧ Skeleton.tokens p = 0
      ∧ Skeleton.lastHoldDuration p = 0 ∧ Skeleton.hasOptedOut p = false.
Proof.
  intros w. subst w.
  assert (skeletonInv (Skeleton.createRoom s playerName)) as H0.
  { unfold skeletonInv. simpl. split_and!; try done; [lia|].
    by intros q [<-|[]]. }
  revert H0. generalize (Skeleton.createRoom s playerName).
  induction es as [|e es IH]; intros w Hw; [done|].
  simpl. apply IH. by apply skeletonInv_step.
Qed.

Lemma skeleton_press_back s ps ps' :
  Skeleton.press true s ps = Some ps' → Skeleton.press false s ps' = Some ps.
Proof.
  revert ps'. induction ps as [|p ps IH]; intros ps' H; [done|].
  simpl in H. destruct (Skeleton.has_id s p) eqn:Hid.
  - destruct (Skeleton.isHoldingButton p) eqn:Hh; [done|]. simpl in H.
    injection H as <-. simpl. unfold Skeleton.has_id in *. simpl.
    rewrite Hid. simpl. f_equal. f_equal. destruct p. simpl in *. by subst.
  - destruct (Skeleton.press true s ps) as [l|]; [|done]. injection H as <-.
    simpl. rewrite Hid. by rewrite (IH l eq_refl).
Qed.

(** X18.  In the skeleton a hold that takes effect is undone by the release
    that follows it: the player list is again what it was before the hold
    (the two broadcasts apart).  A hold that changes nothing leaves the state
    as it is. *)
Theorem skeleton_hold_release_round_trip (s : SocketId) (w : Skeleton.World) :
  (Skeleton.playerHolding s w ≠ w →
   Skeleton.players (Skeleton.playerReleased s (Skeleton.playerHolding s w))
   = Skeleton.players w
   ∧ Skeleton.registered (Skeleton.playerReleased s (Skeleton.playerHolding s w))
     = Skeleton.registered w
   ∧ Skeleton.attached (Skeleton.playerReleased s (Skeleton.playerHolding s w))
     = Skeleton.attached w)
  ∧ (Skeleton.players (Skeleton.playerHolding s w) = Skeleton.players w →
     Skeleton.playerHolding s w = w).
Proof.
  unfold Skeleton.playerHolding.
  destruct (Skeleton.is_attached s w && Skeleton.registered w) eqn:Hc;
    [|done].
  destruct (Skeleton.press true s (Skeleton.players w)) as [ps|] eqn:E;
    [|done].
  split.
  - intros _. unfold Skeleton.playerReleased, Skeleton.is_attached. simpl.
    fold (Skeleton.is_attached s w). rewrite Hc.
    by rewrite (skeleton_press_back s _ ps E).
  - simpl. intros ->. exfalso. clear Hc. revert E.
    induction (Skeleton.players w) as [|p l IH]; [done|]. simpl.
    destruct (Skeleton.has_id s p).
    + destruct (Skeleton.isHoldingButton p) eqn:Hh; [done|]. simpl.
      intros [= H]. apply (f_equal Skeleton.isHoldingButton) in H.
      simpl in H. congruence.
    + destruct (Skeleton.press true s l) as [l'|]; [|done]. simpl.
      intros [= ->]. by apply IH.
Qed.

Lemma skeleton_hold_release_round_trip_witness :
  Skeleton.players
    (Skeleton.playerReleased 1
       (Skeleton.playerHolding 1 (Skeleton.createRoom 1 "A")))
  = Skeleton.players (Skeleton.createRoom 1 "A").
Proof.
  refine (proj1 (proj1 (skeleton_hold_release_round_trip 1
                          (Skeleton.createRoom 1 "A")) _)).
  vm_compute. discriminate.
Defined.

(** ** The earlier revision: a release cancels the countdown *)

(** X19.  In the earlier revision a holding player who releases while the
    countdown runs cancels it at once: the countdown interval is cleared,
    its handle is null and the phase is back to [waiting].  If somebody else
    is still holding, the releasing player is marked as opted out and the
    room is looked at again later (the 1.5 s callback); if nobody is holding
    any more, every opt-out mark is cleared and [startNewRound] is
    scheduled.  (This is the cancellation that the later revision drops.) *)
Theorem earlier_release_cancels_countdown (w : Earlier.World) (s : SocketId)
    (r : Ref) (p : Earlier.Player) (t : TimerId) :
  Earlier.is_attached s w = true → Earlier.registered w = true →
  Earlier.find_player s w = Some r → Earlier.heap w !! r = Some p →
  Earlier.isHoldingButton p = true →
  Earlier.status w = preCountdown → Earlier.preRoundIntervalId w = Some t →
  let w' := Earlier.playerReleased s w in
  let h1 := alter (Earlier.set_isHoldingButton false) r (Earlier.heap w) in
  let anyPlayerStillHolding :=
    existsb (Earlier.holds Earlier.isHoldingButton h1) (Earlier.players w) in
  Earlier.preRoundIntervalId w' = None
  ∧ Earlier.intervals w'
    = List.filter (λ e, negb (Nat.eqb e.1 t)) (Earlier.intervals w)
  ∧ Earlier.status w' = waiting
  ∧ Earlier.players w' = Earlier.players w
  ∧ Earlier.roundTimerIntervalId w' = Earlier.roundTimerIntervalId w
  ∧ (anyPlayerStillHolding = true →
     Earlier.heap w' = alter (Earlier.set_hasOptedOut true) r h1
     ∧ Earlier.heap w' !! r
       = Some (Earlier.set_hasOptedOut true
                 (Earlier.set_isHoldingButton false p))
     ∧ Earlier.timeouts w'
       = Earlier.timeouts w ++ [Earlier.RecheckAfterRelease])
  ∧ (anyPlayerStillHolding = false →
     Earlier.heap w'
     = Earlier.forEach (Earlier.set_hasOptedOut false) (Earlier.players w) h1
     ∧ Earlier.timeouts w' = Earlier.timeouts w ++ [Earlier.StartNewRound]).
Proof.
  intros Ha Hreg Hf Hp Hh Hst Hpre w' h1 anyHolding.
  assert (w' = Earlier.cancelCountdown r (Earlier.set_heap h1 w)) as ->.
  { subst w'. unfold Earlier.playerReleased. rewrite Ha, Hreg, Hf. simpl.
    assert (Earlier.holds Earlier.isHoldingButton (Earlier.heap w) r = true)
      as -> by (unfold Earlier.holds; by rewrite Hp).
    by rewrite Hst, Hpre. }
  unfold Earlier.cancelCountdown. simpl. rewrite Hpre. simpl.
  fold anyHolding.
  unfold Earlier.broadcastPlayerStatusUpdate. simpl. rewrite Hreg.
  destruct anyHolding; simpl.
  - split_and!; try done. intros _. split_and!; try done.
    rewrite list_lookup_alter_eq. subst h1.
    by rewrite list_lookup_alter_eq, Hp.
  - by split_and!.
Qed.

(** Two players hold and the countdown runs. *)
Definition earlierCountdown : Earlier.World :=
  Earlier.run [Earlier.JoinRoom 2 "B"; Earlier.PlayerHolding 1;
               Earlier.PlayerHolding 2]
    (Earlier.createRoom 1 "A" 60 3).

Lemma earlier_release_cancels_countdown_witness :
  Earlier.preRoundIntervalId (Earlier.playerReleased 1 earlierCountdown) = None
  ∧ Earlier.intervals (Earlier.playerReleased 1 earlierCountdown)
    = List.filter (λ e, negb (Nat.eqb e.1 0)) (Earlier.intervals earlierCountdown)
  ∧ Earlier.status (Earlier.playerReleased 1 earlierCountdown) = waiting.
Proof.
  destruct (earlier_release_cancels_countdown earlierCountdown 1 0
              (Earlier.mkPlayer 1 "A" 60 0 true false 0) 0)
    as (H1 & H2 & H3 & _); try (vm_compute; reflexivity).
  by split_and!.
Defined.

(** X20.  The single-player shortcut of the re-check awards nothing.  When
    the callback scheduled by a release finds one player in the room, not
    opted out and holding, it resolves the round at once with that player as
    the only active one; since the hold duration has just been reset to 0,
    [endRoundOnServer] finds a maximum of 0: the phase becomes [roundEnded],
    the player is announced in [winners] with duration 0, but gets no token
    and loses no time, and the 3 s decision is scheduled. *)
Theorem earlier_shortcut_awards_nothing (w : Earlier.World) (r : Ref)
    (p : Earlier.Player) :
  Earlier.registered w = true → Earlier.players w = [r] →
  Earlier.heap w !! r = Some p →
  Earlier.hasOptedOut p = false → Earlier.isHoldingButton p = true →
  let w' := Earlier.recheckAfterRelease w in
  let p' := Earlier.set_roundHoldDuration 0
              (Earlier.set_hasOptedOut false
                 (Earlier.set_isHoldingButton false p)) in
  Earlier.status w' = roundEnded
  ∧ Earlier.activePlayersInRound w' = [r]
  ∧ Earlier.heap w' = <[r := p']> (Earlier.heap w)
  ∧ Earlier.tokens p' = Earlier.tokens p ∧ Earlier.time p' = Earlier.time p
  ∧ Earlier.out w'
    = Earlier.out w
      ++ [Earlier.EmRoundWinnerAnnounced [(Earlier.id p, Earlier.name p)] 0 false;
          Earlier.EmPlayerStatusUpdate [p'] (Earlier.currentRound w)
            (Earlier.maxRounds w) roundEnded]
  ∧ Earlier.timeouts w'
    = Earlier.timeouts w ++ [Earlier.DecideAfterRound (Earlier.time p <=? 0)].
Proof.
  intros Hreg Hps Hp Ho Hh w' p'.
  assert (w' = Earlier.endRoundOnServer
                 (Earlier.set_activePlayersInRound [r]
                    (Earlier.set_heap
                       (alter (Earlier.set_roundHoldDuration 0) r
                          (Earlier.heap w)) w))) as ->.
  { subst w'. unfold Earlier.recheckAfterRelease. rewrite Hps. simpl.
    assert (∀ P, Earlier.holds P (Earlier.heap w) r = P p) as Hholds.
    { intros P. unfold Earlier.holds. by rewrite Hp. }
    rewrite !Hholds, Ho. simpl. by rewrite Hholds, Hh. }
  unfold Earlier.endRoundOnServer. simpl. rewrite Hreg. simpl.
  unfold Earlier.scanWinners, Earlier.scanStep. simpl.
  rewrite list_lookup_alter_eq, Hp. simpl.
  unfold Earlier.broadcastPlayerStatusUpdate. simpl. rewrite Hreg, Hps. simpl.
  unfold Earlier.winner_entry, Earlier.holds, Earlier.deref. simpl.
  rewrite !list_lookup_alter_eq, Hp. simpl.
  assert (alter Earlier.resetAfterRound r
            (alter (Earlier.set_roundHoldDuration 0) r (Earlier.heap w))
          = <[r := p']> (Earlier.heap w)) as ->.
  { apply list_eq. intros i. destruct (decide (i = r)) as [->|Hne].
    - rewrite !list_lookup_alter_eq, Hp, list_lookup_insert_eq; [done|].
      apply lookup_lt_is_Some. by exists p.
    - by rewrite !list_lookup_alter_ne, list_lookup_insert_ne. }
  rewrite Hps. simpl.
  rewrite list_lookup_insert_eq by (apply lookup_lt_is_Some; by exists p).
  simpl. rewrite orb_false_r. split_and!; try done. by rewrite <- app_assoc.
Qed.

(** The shortcut is reached when the player who released leaves before the
    re-check: A and B hold, A releases and leaves, the re-check finds B. *)
Definition earlierLeftAlone : Earlier.World :=
  Earlier.run [Earlier.JoinRoom 2 "B"; Earlier.PlayerHolding 1;
               Earlier.PlayerHolding 2; Earlier.PlayerReleased 1;
               Earlier.LeaveRoom 1]
    (Earlier.createRoom 1 "A" 60 3).

Lemma earlier_shortcut_awards_nothing_witness :
  Earlier.timeouts earlierLeftAlone = [Earlier.RecheckAfterRelease]
  ∧ Earlier.step (Earlier.TimeoutFires 0) earlierLeftAlone
    = Earlier.recheckAfterRelease
        (Earlier.set_timeouts [] earlierLeftAlone)
  ∧ Earlier.status
      (Earlier.recheckAfterRelease (Earlier.set_timeouts [] earlierLeftAlone))
    = roundEnded
  ∧ Earlier.heap
      (Earlier.recheckAfterRelease (Earlier.set_timeouts [] earlierLeftAlone))
    = <[1%nat := Earlier.mkPlayer 2 "B" 60 0 false false 0]>
        (Earlier.heap (Earlier.set_timeouts [] earlierLeftAlone)).
Proof.
  split; [vm_compute; reflexivity|]. split; [vm_compute; reflexivity|].
  destruct (earlier_shortcut_awards_nothing
              (Earlier.set_timeouts [] earlierLeftAlone) 1
              (Earlier.mkPlayer 2 "B" 60 0 true false 0))
    as (H1 & _ & H3 & _); try (vm_compute; reflexivity).
  split; [exact H1|exact H3].
Defined.

(** ** The earlier revision: the game ends when somebody's time is used up *)

Lemma earlier_endRoundOnServer_unfold w :
  Earlier.registered w = true →
  Earlier.status (Earlier.endRoundOnServer w) = roundEnded
  ∧ Earlier.players (Earlier.endRoundOnServer w) = Earlier.players w
  ∧ Earlier.registered (Earlier.endRoundOnServer w) = true
  ∧ Earlier.timeouts (Earlier.endRoundOnServer w)
    = Earlier.timeouts w
      ++ [Earlier.DecideAfterRound
            (existsb (Earlier.holds (λ p, Earlier.time p <=? 0)
                        (Earlier.heap (Earlier.endRoundOnServer w)))
               (Earlier.players w))].
Proof.
  intros Hreg. unfold Earlier.endRoundOnServer. rewrite Hreg. simpl.
  set (m := (Earlier.scanWinners (Earlier.heap w)
               (Earlier.activePlayersInRound w)).1).
  set (ws := (Earlier.scanWinners (Earlier.heap w)
                (Earlier.activePlayersInRound w)).2).
  unfold Earlier.broadcastPlayerStatusUpdate.
  destruct ((m =? 0) || Nat.eqb (length ws) 0); simpl; rewrite ?Hreg; simpl.
  - done.
  - destruct ws as [|r1 [|r2 ws]]; simpl; rewrite ?Hreg; simpl; done.
Qed.

Lemma earlier_gameEnded_status reason w :
  Earlier.registered w = true →
  Earlier.status (Earlier.gameEnded reason w) = gameOver
  ∧ ∃ finalPlayers finalWinner,
      Earlier.out (Earlier.gameEnded reason w)
      = Earlier.out w ++ [Earlier.EmGameOver reason finalPlayers finalWinner].
Proof.
  intros Hreg. unfold Earlier.gameEnded, Earlier.clearGameIntervals.
  rewrite Hreg. simpl.
  destruct (Earlier.preRoundIntervalId w), (Earlier.roundTimerIntervalId w)
    eqn:E; simpl; rewrite ?E; simpl; (split; [done|by eexists _, _]).
Qed.

(** X21.  In the earlier revision the fate of the game is decided when a
    round is resolved: [endRoundOnServer] leaves the phase [roundEnded] and
    schedules one delayed decision carrying a flag that is true exactly when
    some player of the room has no time left after the award.  When that
    decision runs with the flag set, the game is over with the time-ran-out
    reason; with the flag clear it is a call of [startNewRound]. *)
Theorem earlier_round_decides_game_over (w : Earlier.World) :
  Earlier.registered w = true →
  let w1 := Earlier.endRoundOnServer w in
  Earlier.status w1 = roundEnded
  ∧ (∃ flag,
       Earlier.timeouts w1 = Earlier.timeouts w ++ [Earlier.DecideAfterRound flag]
       ∧ (flag = true ↔
          ∃ r p, In r (Earlier.players w) ∧ Earlier.heap w1 !! r = Some p
                 ∧ Earlier.time p ≤ 0))
  ∧ (∀ w2, Earlier.registered w2 = true →
       Earlier.status (Earlier.fire (Earlier.DecideAfterRound true) w2) = gameOver
       ∧ ∃ finalPlayers finalWinner,
           Earlier.out (Earlier.fire (Earlier.DecideAfterRound true) w2)
           = Earlier.out w2
             ++ [Earlier.EmGameOver Earlier.TimeRanOut finalPlayers finalWinner])
  ∧ (∀ w2, Earlier.fire (Earlier.DecideAfterRound false) w2
           = Earlier.startNewRound w2).
Proof.
  intros Hreg w1.
  destruct (earlier_endRoundOnServer_unfold w Hreg) as (Hs & _ & _ & Ht).
  split; [done|]. split; [|split; [|done]].
  - eexists. split; [exact Ht|]. rewrite existsb_exists. split.
    + intros (r & Hin & Hh). unfold Earlier.holds in Hh.
      destruct (Earlier.heap _ !! r) as [p|] eqn:Hp; [|done].
      exists r, p. split; [done|]. split; [done|]. by apply Z.leb_le.
    + intros (r & p & Hin & Hp & Hle). exists r. split; [done|].
      unfold Earlier.holds. fold w1. rewrite Hp. by apply Z.leb_le.
  - intros w2 Hreg2. by apply earlier_gameEnded_status.
Qed.

Lemma earlier_round_decides_game_over_witness :
  Earlier.status (Earlier.endRoundOnServer earlierCountdown) = roundEnded.
Proof.
  refine (proj1 (earlier_round_decides_game_over earlierCountdown _)).
  vm_compute. reflexivity.
Defined.

(** ** Letting go and pressing again during the bidding *)

Lemma alter_alter_id {A} (f g : A → A) (l : list A) i :
  (∀ x, l !! i = Some x → g (f x) = x) → alter g i (alter f i l) = l.
Proof.
  intros H. apply list_eq. intros j. destruct (decide (j = i)) as [->|Hne].
  - rewrite !list_lookup_alter_eq. destruct (l !! i) as [x|] eqn:E; [|done].
    simpl. f_equal. by apply H.
  - by rewrite !list_lookup_alter_ne.
Qed.

(** X22.  A release during the bidding is not final.  If a contesting
    player lets go and the test of [checkAllReleasedOnServer] still finds an
    active player holding, the round goes on (same phase, timers and pending
    timeouts), and if the same player presses again the player objects are
    exactly what they were before the release: the player is back in the
    contest with the hold duration reached so far. *)
Theorem release_and_press_again_in_round (w : World) (s : SocketId) (r : Ref)
    (p : Player) :
  is_attached s w = true → registered w = true → status w = inRound →
  find_player s w = Some r → heap w !! r = Some p →
  isHoldingButton p = true → isEliminated p = false → 0 < time p →
  let w1 := playerReleased s w in
  forallb (releasedNow (set_heap (alter (set_isHoldingButton false) r (heap w)) w))
    (activePlayersInRound w) = false →
  status w1 = inRound
  ∧ heap w1 = alter (set_isHoldingButton false) r (heap w)
  ∧ intervals w1 = intervals w ∧ timeouts w1 = timeouts w
  ∧ heap (playerHolding s w1) = heap w
  ∧ status (playerHolding s w1) = inRound
  ∧ intervals (playerHolding s w1) = intervals w
  ∧ timeouts (playerHolding s w1) = timeouts w.
Proof.
  intros Ha Hreg Hst Hf Hp Hh He Ht w1 Hnot.
  set (h1 := alter (set_isHoldingButton false) r (heap w)) in *.
  assert (∃ m, w1 = set_out (out w ++ m) (set_heap h1 w)) as [m Hw1].
  { subst w1. unfold playerReleased. rewrite Ha, Hreg, Hf. simpl.
    assert (holds isHoldingButton (heap w) r = true) as ->
      by (unfold holds; by rewrite Hp).
    simpl. rewrite Hst. simpl. fold h1.
    destruct (broadcastPlayerStatusUpdate_onlyEmits (set_heap h1 w)) as [m ->].
    simpl. rewrite Hst. simpl. exists m.
    unfold checkAllReleasedOnServer. simpl. rewrite Hreg, Hst. simpl.
    assert (forallb (releasedNow (set_out (out w ++ m) (set_heap h1 w)))
              (activePlayersInRound w)
            = forallb (releasedNow (set_heap h1 w)) (activePlayersInRound w))
      as -> by done.
    by rewrite Hnot. }
  assert (find_player s w1 = Some r) as Hf1.
  { rewrite <- Hf, Hw1.
    apply find_player_stable; [done| |apply length_alter].
    apply heapRel_alter; [apply sameIdentity_refl|apply sameIdentity_trans|done]. }
  assert (heap w1 = h1 ∧ status w1 = inRound ∧ registered w1 = true
          ∧ is_attached s w1 = true ∧ intervals w1 = intervals w
          ∧ timeouts w1 = timeouts w) as (Hh1 & Hst1 & Hreg1 & Ha1 & Hi1 & Ht1)
    by (by rewrite Hw1).
  assert (heap w1 !! r = Some (set_isHoldingButton false p)) as Hp1.
  { rewrite Hh1. subst h1. by rewrite list_lookup_alter_eq, Hp. }
  clearbody w1. clear Hw1.
  assert (∃ m', playerHolding s w1
                = set_out (out w1 ++ m')
                    (set_heap (alter (set_isHoldingButton true) r (heap w1)) w1))
    as [m' Hw2].
  { unfold playerHolding. rewrite Ha1, Hreg1, Hf1. simpl.
    unfold holds. rewrite Hp1. simpl.
    rewrite He. destruct (Z.leb_spec (time p) 0); [lia|]. simpl.
    match goal with |- context [broadcastPlayerStatusUpdate ?x] =>
      destruct (broadcastPlayerStatusUpdate_onlyEmits x) as [m' ->] end.
    simpl. rewrite Hst1. simpl. by exists m'. }
  rewrite Hw2. simpl. split_and!; try done.
  rewrite Hh1. subst h1. apply alter_alter_id. intros x Hx.
  assert (x = p) as -> by congruence.
  destruct p. simpl in *. by subst.
Qed.

Lemma release_and_press_again_in_round_witness :
  let w := run (take 12 scenarioB) (createRoom 1 "A" 60 3) in
  heap (playerHolding 1 (playerReleased 1 w)) = heap w.
Proof.
  intros w.
  refine (proj1 (proj2 (proj2 (proj2 (proj2
            (release_and_press_again_in_round w 1 0
               (mkPlayer 1 "A" 60 0 true false 4 false) _ _ _ _ _ _ _ _ _))))));
    try (vm_compute; reflexivity).
Defined.

(** ** A holding player leaves while the countdown runs *)

(** X23.  A holding player leaves (or disconnects) during the countdown and
    at least two non-eliminated players remain.  The running countdown is
    cancelled.  If every remaining non-eliminated player is holding, a fresh
    countdown starts at once: phase [preCountdown], 5 seconds, a new
    interval under a new handle, every remaining player's [hasOptedOut] and
    [roundHoldDuration] reset.  Otherwise the phase is [waiting], no
    countdown is live and [startNewRound] is scheduled. *)
Theorem leave_interrupts_countdown (w : World) (s : SocketId) (r : Ref)
    (t : TimerId) :
  is_attached s w = true → registered w = true →
  status w = preCountdown → preRoundIntervalId w = Some t →
  find_player s w = Some r → holds isHoldingButton (heap w) r = true →
  let w1 := set_players (remaining s w) w in
  (2 ≤ length (alivePlayers w1))%nat →
  ∀ w', w' = leaveRoom s w ∨ w' = disconnect s w →
  let live := List.filter (λ e, negb (Nat.eqb e.1 t)) (intervals w) in
  players w' = remaining s w
  ∧ (forallb (holds isHoldingButton (heap w)) (alivePlayers w1) = true →
     status w' = preCountdown ∧ preRoundCountdown w' = 5
     ∧ preRoundIntervalId w' = Some (nextTimerId w)
     ∧ intervals w' = live ++ [(nextTimerId w, CountdownTimer)]
     ∧ heap w' = forEach resetForCountdown (remaining s w) (heap w)
     ∧ timeouts w' = timeouts w)
  ∧ (forallb (holds isHoldingButton (heap w)) (alivePlayers w1) = false →
     status w' = waiting ∧ preRoundIntervalId w' = None
     ∧ intervals w' = live ∧ heap w' = heap w
     ∧ timeouts w' = S (timeouts w)).
Proof.
  intros Ha Hreg Hst Hpre Hf Hh w1 H2 w' Hw' live.
  assert (w' = leaveRoom s w) as ->.
  { destruct Hw' as [->| ->]; [done|apply disconnect_leaveRoom]. }
  rewrite leaveRoom_unfold by done.
  assert (remaining s w ≠ []) as Hne.
  { intros E. unfold alivePlayers in H2. subst w1. simpl in H2.
    rewrite E in H2. simpl in H2. lia. }
  destruct (Nat.eqb_spec (length (remaining s w)) 0) as [E|_].
  { by destruct (remaining s w). }
  set (w2 := detach s (set_players (remaining s w) w)).
  assert (alivePlayers w2 = alivePlayers w1) as Hal by done.
  set (w3 := set_status waiting
               (set_preRoundIntervalId None (clearInterval t w2))).
  assert (afterRemoval (Some r) w2
          = broadcastPlayerStatusUpdate
              (if forallb (holds isHoldingButton (heap w)) (alivePlayers w1)
               then startPreRoundCountdown w3
               else setTimeout_startNewRound w3)) as Haft.
  { unfold afterRemoval. rewrite Hal.
    change (status w2) with (status w).
    change (preRoundIntervalId w2) with (preRoundIntervalId w).
    rewrite Hst, Hpre. simpl.
    destruct (Nat.ltb_spec (length (alivePlayers w1)) 2); [lia|]. simpl.
    change (heap w2) with (heap w). rewrite Hh. simpl. fold w3.
    change (alivePlayers w3) with (alivePlayers w1).
    change (heap w3) with (heap w). done. }
  rewrite Hf, Haft.
  destruct (forallb (holds isHoldingButton (heap w)) (alivePlayers w1)) eqn:Hall.
  - assert (shouldStartCountdown w3 = true) as Hsh.
    { unfold shouldStartCountdown.
      change (alivePlayers w3) with (alivePlayers w1).
      change (heap w3) with (heap w). rewrite Hall.
      destruct (Nat.eqb_spec (length (alivePlayers w1)) 1); [done|].
      destruct (Nat.leb_spec 2 (length (alivePlayers w1))); [done|lia]. }
    destruct (startPreRoundCountdown_started w3 Hreg eq_refl Hsh)
      as (E1 & E2 & E3 & E4 & E5 & E6 & E7 & E8).
    destruct (broadcastPlayerStatusUpdate_onlyEmits (startPreRoundCountdown w3))
      as [m ->]. simpl.
    split; [by rewrite E6|]. split; [|done]. intros _.
    by rewrite E1, E2, E3, E4, E5, E8.
  - destruct (broadcastPlayerStatusUpdate_onlyEmits
                (setTimeout_startNewRound w3)) as [m ->]. simpl.
    split; [done|]. split; [done|]. by intros _.
Qed.

Lemma leave_interrupts_countdown_witness :
  let w := run [JoinRoom 2 "B"; JoinRoom 3 "C"; PlayerHolding 1;
                PlayerHolding 2; PlayerHolding 3] (createRoom 1 "A" 60 3) in
  players (leaveRoom 3 w) = remaining 3 w.
Proof.
  intros w.
  refine (proj1 (leave_interrupts_countdown w 3 2 0 _ _ _ _ _ _ _
                   (leaveRoom 3 w) (or_introl eq_refl)));
    vm_compute; reflexivity.
Defined.

(** ** Nobody is ever richer than the starting budget allows *)

Definition withinStart (p : Player) : Prop :=
  0 ≤ tokens p ∧ time p + tokens p ≤ 600.

Lemma withinStart_paidFor a b : paidFor a b → withinStart a → withinStart b.
Proof. unfold paidFor, withinStart. lia. Qed.

Lemma withinStart_step e w :
  (∀ r p, heap w !! r = Some p → withinStart p) →
  ∀ r p, heap (step e w) !! r = Some p → withinStart p.
Proof.
  intros Hall r p' Hp'.
  assert (length (heap (step e w)) = length (heap w) → withinStart p') as Hsame.
  { intros Hl.
    destruct (heapRel_back _ _ _ _ _ (paidFor_step e w) Hl Hp')
      as (p & Hp & HR).
    eapply withinStart_paidFor; [exact HR|by eapply Hall]. }
  assert (∀ w', sameRoom w w' → length (heap w') = length (heap w)) as Hsr.
  { by intros w' (_&_&_&_&_&_&?). }
  revert Hp' Hsame. unfold step. destruct (crashed w); [auto|].
  destruct e; intros Hp' Hsame.
  - destruct (joinRoom_cases s playerName w)
      as [[err E]|[(_ & _ & E)|(r0 & rest & p0 & more & _ & _ & _ & _ & Hps
                                 & Hp0 & E)]];
      rewrite E in *; [by apply Hsame..|].
    simpl in Hp'. apply lookup_app_Some in Hp' as [Hp'|[_ Hp']];
      [by eapply Hall|].
    destruct (r - length (heap w))%nat; [|done]. injection Hp' as <-.
    destruct (Hall r0 p0 Hp0). unfold withinStart. simpl. lia.
  - apply Hsame. destruct (is_attached s w && registered w) eqn:Hc.
    + apply andb_true_iff in Hc as [? ?].
      by destruct (leaveRoom_membership s w) as (_ & _ & _ & ? & _).
    + unfold leaveRoom. by rewrite Hc.
  - apply Hsame, Hsr, sameRoom_playerHolding.
  - apply Hsame.
    destruct (sameRoom_playerReleased s w) as [?|(_ & _ & _ & ->)];
      [by apply Hsr|done].
  - apply Hsame. rewrite disconnect_leaveRoom.
    destruct (is_attached s w && registered w) eqn:Hc.
    + apply andb_true_iff in Hc as [? ?].
      by destruct (leaveRoom_membership s w) as (_ & _ & _ & ? & _).
    + unfold leaveRoom. by rewrite Hc.
  - apply Hsame. destruct (timer_kind t w) as [[|]|];
      [apply Hsr, sameRoom_countdownTick|apply Hsr, sameRoom_roundTick|done].
  - apply Hsame. destruct (timeouts w); [done|].
    by destruct (startNewRound_room (set_timeouts n w)) as (_&_&_&_&_&?&_).
  - by apply Hsame.
Qed.

Lemma withinStart_reachable w :
  reachable w → ∀ r p, heap w !! r = Some p → withinStart p.
Proof.
  induction 1 as [s n t m|e w Hw IH].
  - intros r p. unfold createRoom.
    destruct (Z.ltb_spec t 10); simpl; [by destruct r|].
    destruct (Z.ltb_spec 600 t); simpl; [by destruct r|].
    destruct (_ || _); simpl; [by destruct r|].
    match goal with |- heap (startNewRound ?x) !! _ = _ → _ =>
      intros Hp;
      destruct (heapRel_back _ _ _ _ _
                  (heapRel_startNewRound paidFor paidFor_refl paidFor_trans
                     (λ q, paidFor_refl q) x)
                  (proj1 (proj2 (proj2 (proj2 (proj2 (proj2
                     (startNewRound_room x))))))) Hp) as (q & Hq & HR)
    end.
    eapply withinStart_paidFor; [exact HR|].
    simpl in Hq. destruct r; [|done]. injection Hq as <-.
    unfold withinStart. simpl. lia.
  - by apply withinStart_step.
Qed.

(** X24.  Nobody is ever richer than the starting budget allows: in every
    reachable state every player object has a non-negative token count and
    [time + tokens <= 600]; for a player of the room the time is moreover
    positive, so [0 < time <= 600 - tokens]. *)
Theorem score_within_starting_budget (w : World) (r : Ref) (p : Player) :
  reachable w → heap w !! r = Some p →
  0 ≤ tokens p ∧ time p + tokens p ≤ 600
  ∧ (In r (players w) → 0 < time p ∧ tokens p < 600).
Proof.
  intros Hw Hp. destruct (withinStart_reachable w Hw r p Hp) as [H1 H2].
  split; [done|]. split; [done|]. intros Hin.
  destruct (reachable_player_sound w r p Hw Hin Hp) as (Ht & _). lia.
Qed.

Lemma score_within_starting_budget_witness :
  0 ≤ tokens (mkPlayer 2 "B" 53 1 false false 7 false)
  ∧ time (mkPlayer 2 "B" 53 1 false false 7 false)
    + tokens (mkPlayer 2 "B" 53 1 false false 7 false) ≤ 600.
Proof.
  destruct (score_within_starting_budget
              (run scenarioB (createRoom 1 "A" 60 3)) 1
              (mkPlayer 2 "B" 53 1 false false 7 false)) as (H1 & H2 & _).
  - apply reachable_run, reach_create.
  - vm_compute. reflexivity.
  - by split.
Defined.

(** ** C6: the three cases do set [hasOptedOut] *)











(** The three cases on runs.  B lets go during the countdown.  The stale
    countdown of C7 ends with nobody holding.  In the second round of
    scenario B, B's 53 seconds run out while A holds on: the round goes on
    and B stays opted out.  With a sole bidder, the tick that uses up the
    budget also ends the round, and the flag is clear again after it. *)
Example hasOptedOut_cases :
  let w1 := run [JoinRoom 2 "B"; PlayerHolding 1; PlayerHolding 2]
              (createRoom 1 "A" 60 3) in
  let w3 := run (scenarioB ++ [TimeoutFires; PlayerHolding 1; PlayerHolding 2]
                 ++ replicate 5 (IntervalFires 2)
                 ++ replicate 52 (IntervalFires 3))
              (createRoom 1 "A" 60 3) in
  (hasOptedOut <$> heap w1 = [false; false]
   ∧ hasOptedOut <$> heap (step (PlayerReleased 2) w1) = [false; true])
  ∧ (isHoldingButton <$> heap staleCountdown = [false; false]
     ∧ hasOptedOut <$> heap staleCountdown = [false; false]
     ∧ hasOptedOut <$> heap (step (IntervalFires 2) staleCountdown)
       = [true; true])
  ∧ (hasOptedOut <$> heap w3 = [false; false]
     ∧ hasOptedOut <$> heap (step (IntervalFires 3) w3) = [false; true]
     ∧ isEliminated <$> heap (step (IntervalFires 3) w3) = [false; true]
     ∧ status (step (IntervalFires 3) w3) = inRound)
  ∧ (status exhausted = roundEnded
     ∧ hasOptedOut <$> heap exhausted = [false]
     ∧ isEliminated <$> heap exhausted = [true]).
Proof. by vm_compute. Qed.
